(** * bJecs: a shallow embedding of the world store, its groups, snapshots
      and events

    The development follows the TypeScript sources of the repository:
    [GroupImpl] (ecs/group.ts), [createSnapshot] (ecs/snapshot.ts), and
    [Event], [Prefab] and the archetype-indexed [WorldImpl] with its
    queries, all found in ecs/query.ts, which joins several modules; an
    older [WorldImpl] without the index follows the indexed one there, and
    its [each], [set], [remove] and [despawn] are embedded beside the
    indexed ones.  The registry of component names is the one of bJecs.ts.
    JavaScript [Map] and [Set] objects iterate in insertion order, so both
    are embedded as insertion-ordered lists; numbers are the ideal naturals
    [N] (identifiers only ever count upwards from 1). *)

From Stdlib Require Import List NArith String Ascii Bool Lia Arith DecimalString.
From Stdlib Require Import Permutation DecimalN DecimalPos Sorted.
Import ListNotations.
Local Open Scope N_scope.
Local Open Scope list_scope.

Set Implicit Arguments.

(** ** Keys with a boolean equality *)

Class Key (K : Type) := {
  keq : K -> K -> bool;
  keq_spec : forall x y, reflect (x = y) (keq x y)
}.

#[export] Instance Key_N : Key N := {| keq := N.eqb; keq_spec := N.eqb_spec |}.
#[export] Instance Key_nat : Key nat := {| keq := Nat.eqb; keq_spec := Nat.eqb_spec |}.
#[export] Instance Key_string : Key string :=
  {| keq := String.eqb; keq_spec := String.eqb_spec |}.

(** ** [Set<K>]: an insertion-ordered list without repetition *)

Module JsSet.
Section Defs.
Context {K : Type} `{Key K}.

Definition has (x : K) (s : list K) : bool := existsb (keq x) s.

Definition add (x : K) (s : list K) : list K :=
  if has x s then s else s ++ [x].

Definition delete (x : K) (s : list K) : list K :=
  filter (fun y => negb (keq x y)) s.

Definition size (s : list K) : nat := List.length s.

End Defs.
End JsSet.

(** ** [Map<K,V>]: an insertion-ordered association list

    [set] overwrites the value of a present key in place (a JavaScript [Map]
    keeps the key's original position) and appends a new key at the end. *)

Module JsMap.
Section Defs.
Context {K V : Type} `{Key K}.

Fixpoint get (k : K) (m : list (K * V)) : option V :=
  match m with
  | [] => None
  | (k', v) :: r => if keq k k' then Some v else get k r
  end.

Definition has (k : K) (m : list (K * V)) : bool :=
  match get k m with Some _ => true | None => false end.

Fixpoint set (k : K) (v : V) (m : list (K * V)) : list (K * V) :=
  match m with
  | [] => [(k, v)]
  | (k', v') :: r => if keq k k' then (k, v) :: r else (k', v') :: set k v r
  end.

Definition delete (k : K) (m : list (K * V)) : list (K * V) :=
  filter (fun kv => negb (keq k (fst kv))) m.

Definition keys (m : list (K * V)) : list K := map fst m.

Definition size (m : list (K * V)) : nat := List.length m.

End Defs.
End JsMap.

(** ** [Event<T>] (ecs/event.ts)

    A callback is described by what it does, in order, to the event it is
    connected to while it runs: it calls [Disconnect()] on a connection (on
    its own for a handler that unsubscribes itself, as the one [wait]
    installs) or it connects a further handler.  Callbacks that fire the
    event they are connected to, which need not return, are outside the
    model.

    [Map.prototype.forEach] walks the live map in insertion order: it never
    reaches an entry deleted before its turn, and it does reach an entry
    that a callback appends while the walk is under way.  The walk is
    modelled with the list [pending] of the entries it has yet to reach,
    which every [delete] and [set] of a callback updates together with the
    map. *)

Module Event.

#[warnings="-register-all"] Inductive Action : Type :=
| ADisconnect (id : N)
| AConnect (callback : list Action).

Definition Callback : Type := list Action.

(** The ids a callback disconnects, and the handlers it connects. *)
Definition cb_disconnects (cb : Callback) : list N :=
  flat_map (fun a => match a with ADisconnect id => [id] | AConnect _ => [] end) cb.

Definition cb_connects (cb : Callback) : list Callback :=
  flat_map (fun a => match a with ADisconnect _ => [] | AConnect c => [c] end) cb.

Record t := { connections : list (N * Callback); nextId : N }.

Definition create : t := {| connections := []; nextId := 0 |}.

Definition connect (callback : Callback) (ev : t) : N * t :=
  let id := nextId ev in
  (id, {| connections := JsMap.set id callback (connections ev);
          nextId := id + 1 |}).

Definition Disconnect (id : N) (ev : t) : t :=
  {| connections := JsMap.delete id (connections ev); nextId := nextId ev |}.

(** One action of a running callback.  A [set] of a key that the map does
    not hold appends an entry, which the walk will reach; a [set] of a key
    that the walk has passed changes nothing of what is left to reach. *)
Definition perform (st : list (N * Callback) * t) (a : Action)
  : list (N * Callback) * t :=
  let (pending, ev) := st in
  match a with
  | ADisconnect id => (JsMap.delete id pending, Disconnect id ev)
  | AConnect cb =>
      let id := nextId ev in
      (if JsMap.has id (connections ev) && negb (JsMap.has id pending)
       then pending else JsMap.set id cb pending,
       snd (connect cb ev))
  end.

Definition invoke (cb : Callback) (pending : list (N * Callback)) (ev : t)
  : list (N * Callback) * t :=
  fold_left perform cb (pending, ev).

(** The number of calls that a callback can give rise to: one for each
    handler that it connects, and those that these give rise to. *)
Fixpoint weight (a : Action) : nat :=
  match a with
  | ADisconnect _ => 0
  | AConnect cb => S (list_sum (map weight cb))
  end.

Definition queue_weight (pending : list (N * Callback)) : nat :=
  list_sum (map (fun p => S (list_sum (map weight (snd p)))) pending).

(** The walk, for at most [fuel] calls; it returns the entries whose
    callbacks ran, in call order. *)
Fixpoint forEach (fuel : nat) (pending : list (N * Callback)) (ev : t)
  : list (N * Callback) * t :=
  match fuel, pending with
  | S fuel', (id, cb) :: rest =>
      let (rest', ev') := invoke cb rest ev in
      let (ran, ev'') := forEach fuel' rest' ev' in
      ((id, cb) :: ran, ev'')
  | _, _ => ([], ev)
  end.

(** The walk as a relation, without a bound on the calls. *)
Inductive walk : list (N * Callback) -> t -> list (N * Callback) -> t -> Prop :=
| walk_done ev : walk [] ev [] ev
| walk_call id cb rest ev rest' ev' ran ev'' :
    invoke cb rest ev = (rest', ev') ->
    walk rest' ev' ran ev'' ->
    walk ((id, cb) :: rest) ev ((id, cb) :: ran) ev''.

(** The delivery of a [fire]: the handlers that ran and the event they
    leave.  [queue_weight] calls are enough for the walk to end. *)
Definition deliver (ev : t) : list (N * Callback) * t :=
  forEach (queue_weight (connections ev)) (connections ev) ev.

(** [fire] returns the connection ids whose callbacks ran, in call order. *)
Definition fire (ev : t) : list N * t :=
  (JsMap.keys (fst (deliver ev)), snd (deliver ev)).

Definition disconnectAll (ev : t) : t :=
  {| connections := []; nextId := nextId ev |}.

Definition getConnectionCount (ev : t) : nat := JsMap.size (connections ev).

(** [wait] connects a handler that disconnects itself when it runs and then
    resolves the promise; the promise is outside the model.  The executor of
    a promise runs at once, so the handler is connected when [wait] returns. *)
Definition wait (ev : t) : N * t :=
  connect [ADisconnect (nextId ev)] ev.

(** Connection ids are distinct and were all handed out by [connect]. *)
Definition wf (ev : t) : Prop :=
  NoDup (JsMap.keys (connections ev)) /\
  forall id, In id (JsMap.keys (connections ev)) -> id < nextId ev.

(** The entries left to reach have ids below the counter, and no id twice. *)
Definition queue_ok (pending : list (N * Callback)) (ev : t) : Prop :=
  NoDup (JsMap.keys pending) /\
  forall id, In id (JsMap.keys pending) -> id < nextId ev.

(** The handlers of [pending] that are served when [gone] lists the ids
    disconnected so far: one that is gone is passed over, one that is served
    adds its disconnections. *)
Fixpoint served (pending : list (N * Callback)) (gone : list N) : list N :=
  match pending with
  | [] => []
  | (id, cb) :: rest =>
      if JsSet.has id gone then served rest gone
      else id :: served rest (gone ++ cb_disconnects cb)
  end.

End Event.

(** ** Identifiers, outcomes and world events *)

Definition EntityId := N.
Definition Id := N.
Definition GroupId := N.

(** A call either returns or throws ([error(...)], or the runtime fault of
    indexing an absent table through a non-null assertion). *)
Inductive outcome (A : Type) : Type :=
| Returned (a : A)
| Threw.
Arguments Returned {A} a.
Arguments Threw {A}.

(** The arguments of the [fire] calls on the world's six events, in order.
    Observers are taken not to call back into the world while it runs. *)
Inductive WorldEvent : Type :=
| EntitySpawned (e : EntityId)
| EntityDespawned (e : EntityId)
| ComponentAdded (e : EntityId) (c : Id)
| ComponentRemoved (e : EntityId) (c : Id)
| EntityAddedToGroup (e : EntityId) (g : GroupId)
| EntityRemovedFromGroup (e : EntityId) (g : GroupId).

(** ** Archetype signatures (ecs/world.ts, [generateArchetypeSignature]) *)

Definition tostring (n : N) : string := NilZero.string_of_uint (N.to_uint n).

(** [tonumber(id) || 0] on the pieces of a signature. *)
Definition tonumber_or_0 (s : string) : N :=
  match NilZero.uint_of_string s with
  | Some u => N.of_uint u
  | None => 0
  end.

Fixpoint split (sep : ascii) (s : string) : list string :=
  match s with
  | EmptyString => [EmptyString]
  | String c r =>
      if Ascii.eqb c sep then EmptyString :: split sep r
      else match split sep r with
           | x :: xs => String c x :: xs
           | [] => [String c EmptyString]
           end
  end.

(** The inner loop of the manual sort for a fixed [i]: [x] is
    [componentArray[i]], [rest] the cells after it. *)
Fixpoint sort_inner (x : Id) (rest : list Id) : Id * list Id :=
  match rest with
  | [] => (x, [])
  | y :: r =>
      if y <? x
      then let (m, r') := sort_inner y r in (m, x :: r')
      else let (m, r') := sort_inner x r in (m, y :: r')
  end.

Fixpoint sort_outer (fuel : nat) (a : list Id) : list Id :=
  match fuel, a with
  | S f, x :: rest =>
      let (m, rest') := sort_inner x rest in m :: sort_outer f rest'
  | _, _ => a
  end.

Definition manual_sort (a : list Id) : list Id := sort_outer (List.length a) a.

(** Whether the character occurs in the string. *)
Fixpoint contains (c : ascii) (s : string) : bool :=
  match s with
  | EmptyString => false
  | String a r => Ascii.eqb a c || contains c r
  end.

Definition generateArchetypeSignature (components : list Id) : string :=
  String.concat "|" (map tostring (manual_sort components)).

(** [archetype.split('|').map(id => tonumber(id) || 0).filter(id => id > 0)] *)
Definition parseArchetype (archetype : string) : list Id :=
  filter (fun id => 0 <? id) (map tonumber_or_0 (split "|" archetype)).

(** ** The component registry (bJecs.ts, [component])

    The module-level map from names to ids and the counter [nextComponentId],
    passed as a state. *)

Record Registry := mkRegistry {
  componentRegistry : list (string * Id);
  nextComponentId : N
}.

Definition newRegistry : Registry :=
  {| componentRegistry := []; nextComponentId := 1 |}.

Definition component (name : string) (r : Registry) : outcome (Id * Registry) :=
  if JsMap.has name (componentRegistry r) then Threw
  else
    let id := nextComponentId r in
    Returned (id, {| componentRegistry := JsMap.set name id (componentRegistry r);
                     nextComponentId := id + 1 |}).

(** The calls [component(name)] for the names of a list, in order; a call
    that throws is taken to be caught by the caller, and gives no id. *)
Fixpoint registerAll (names : list string) (r : Registry)
  : list (string * Id) * Registry :=
  match names with
  | [] => ([], r)
  | name :: rest =>
      match component name r with
      | Returned (id, r') =>
          let (ids, r'') := registerAll rest r' in ((name, id) :: ids, r'')
      | Threw => registerAll rest r
      end
  end.

(** Every name is registered once, the ids lie between 1 and the counter,
    and no id is given to two names. *)
Definition registry_ok (r : Registry) : Prop :=
  NoDup (JsMap.keys (componentRegistry r)) /\
  (forall name id, In (name, id) (componentRegistry r) -> 0 < id < nextComponentId r) /\
  NoDup (List.map snd (componentRegistry r)) /\
  0 < nextComponentId r.

Section World.

(** Component values are opaque to the store; [deepClone] is the JSON
    round trip of [HttpService], which lives outside the repository. *)
Variable Value : Type.
Variable deepClone : Value -> Value.

Definition Components := list (Id * Value).

(** ecs/group.ts, [GroupImpl]: the fields of one group object. *)
Record GroupImpl := mkGroup {
  g_id : GroupId;
  g_entities : list EntityId;
  g_components : Components
}.

(** ecs/types.ts, [Snapshot]. *)
Record Snapshot := mkSnapshot {
  snap_id : N;
  snap_timestamp : N;
  entityStates : list (EntityId * Components);
  snap_components : option (list Id)
}.

(** ecs/world.ts, [WorldImpl], together with the group objects it refers to
    ([heap], addressed by group id) and the static counter
    [GroupImpl.nextId]. *)
Record World := mkWorld {
  nextEntityId : N;
  entities : list EntityId;
  components : list (EntityId * Components);
  groups : list GroupId;
  entityToGroups : list (EntityId * list GroupId);
  archetypeToEntities : list (string * list EntityId);
  entityToArchetype : list (EntityId * string);
  heap : list (GroupId * GroupImpl);
  nextGroupId : N;
  log : list WorldEvent
}.

Definition createWorld : World :=
  {| nextEntityId := 1; entities := []; components := []; groups := [];
     entityToGroups := []; archetypeToEntities := []; entityToArchetype := [];
     heap := []; nextGroupId := 1; log := [] |}.

Definition with_entities (x : list EntityId) (w : World) : World :=
  mkWorld (nextEntityId w) x (components w) (groups w) (entityToGroups w)
    (archetypeToEntities w) (entityToArchetype w) (heap w) (nextGroupId w) (log w).

Definition with_components (x : list (EntityId * Components)) (w : World) : World :=
  mkWorld (nextEntityId w) (entities w) x (groups w) (entityToGroups w)
    (archetypeToEntities w) (entityToArchetype w) (heap w) (nextGroupId w) (log w).

Definition with_groups (x : list GroupId) (w : World) : World :=
  mkWorld (nextEntityId w) (entities w) (components w) x (entityToGroups w)
    (archetypeToEntities w) (entityToArchetype w) (heap w) (nextGroupId w) (log w).

Definition with_entityToGroups (x : list (EntityId * list GroupId)) (w : World) : World :=
  mkWorld (nextEntityId w) (entities w) (components w) (groups w) x
    (archetypeToEntities w) (entityToArchetype w) (heap w) (nextGroupId w) (log w).

Definition with_archetypeToEntities (x : list (string * list EntityId)) (w : World) : World :=
  mkWorld (nextEntityId w) (entities w) (components w) (groups w) (entityToGroups w)
    x (entityToArchetype w) (heap w) (nextGroupId w) (log w).

Definition with_entityToArchetype (x : list (EntityId * string)) (w : World) : World :=
  mkWorld (nextEntityId w) (entities w) (components w) (groups w) (entityToGroups w)
    (archetypeToEntities w) x (heap w) (nextGroupId w) (log w).

Definition with_heap (x : list (GroupId * GroupImpl)) (w : World) : World :=
  mkWorld (nextEntityId w) (entities w) (components w) (groups w) (entityToGroups w)
    (archetypeToEntities w) (entityToArchetype w) x (nextGroupId w) (log w).

(** [event.fire(...)] on one of the world's events. *)
Definition fire (ev : WorldEvent) (w : World) : World :=
  mkWorld (nextEntityId w) (entities w) (components w) (groups w) (entityToGroups w)
    (archetypeToEntities w) (entityToArchetype w) (heap w) (nextGroupId w)
    (log w ++ [ev]).

Definition fire_all (evs : list WorldEvent) (w : World) : World :=
  fold_left (fun w ev => fire ev w) evs w.

(** *** Archetype index *)

(** [archetypeToEntities.get(a)?.delete(entity)] followed by the removal of
    the bucket when it became empty. *)
Definition leaveArchetype (a : string) (entity : EntityId) (w : World) : World :=
  let w1 :=
    match JsMap.get a (archetypeToEntities w) with
    | Some bucket =>
        with_archetypeToEntities
          (JsMap.set a (JsSet.delete entity bucket) (archetypeToEntities w)) w
    | None => w
    end in
  match JsMap.get a (archetypeToEntities w1) with
  | Some [] => with_archetypeToEntities (JsMap.delete a (archetypeToEntities w1)) w1
  | _ => w1
  end.

(** A string is truthy unless it is empty. *)
Definition truthy (s : option string) : option string :=
  match s with
  | Some EmptyString => None
  | other => other
  end.

(** The statements under "Add to new archetype": make the bucket if it is
    not there, put the entity in, record the archetype of the entity. *)
Definition joinArchetype (a : string) (entity : EntityId) (w : World) : World :=
  let w1 :=
    if JsMap.has a (archetypeToEntities w) then w
    else with_archetypeToEntities (JsMap.set a [] (archetypeToEntities w)) w in
  let w2 :=
    match JsMap.get a (archetypeToEntities w1) with
    | Some bucket =>
        with_archetypeToEntities
          (JsMap.set a (JsSet.add entity bucket) (archetypeToEntities w1)) w1
    | None => w1
    end in
  with_entityToArchetype (JsMap.set entity a (entityToArchetype w2)) w2.

(** The signature of a component table: its keys are collected, made a
    [Set] and handed to [generateArchetypeSignature]. *)
Definition signatureOf (comps : Components) : string :=
  generateArchetypeSignature
    (fold_left (fun s k => JsSet.add k s) (JsMap.keys comps) []).

Definition updateEntityArchetype (entity : EntityId) (w : World) : World :=
  let oldArchetype := JsMap.get entity (entityToArchetype w) in
  match JsMap.get entity (components w) with
  | None | Some [] =>
      match truthy oldArchetype with
      | Some old =>
          let w1 := leaveArchetype old entity w in
          with_entityToArchetype (JsMap.delete entity (entityToArchetype w1)) w1
      | None => w
      end
  | Some comps =>
      let newArchetype := signatureOf comps in
      if match oldArchetype with
         | Some old => String.eqb old newArchetype
         | None => false
         end
      then w
      else
        let w1 :=
          match truthy oldArchetype with
          | Some old => leaveArchetype old entity w
          | None => w
          end in
        joinArchetype newArchetype entity w1
  end.

Definition includes (x : Id) (l : list Id) : bool := existsb (N.eqb x) l.

Definition getMatchingEntities (required excluded : list Id) (w : World)
  : list EntityId :=
  match required with
  | [] =>
      fold_left
        (fun result entity =>
           match JsMap.get entity (components w) with
           | None => result
           | Some comps =>
               let hasExcluded := existsb (fun comp => JsMap.has comp comps) excluded in
               if hasExcluded then result else JsSet.add entity result
           end)
        (entities w) []
  | _ =>
      let matchingArchetypes :=
        fold_left
          (fun acc archetype =>
             let archetypeComponents := parseArchetype (fst archetype) in
             let hasAllRequired :=
               forallb (fun req => includes req archetypeComponents) required in
             if negb hasAllRequired then acc
             else
               let hasExcluded :=
                 existsb (fun ex => includes ex archetypeComponents) excluded in
               if hasExcluded then acc else acc ++ [fst archetype])
          (archetypeToEntities w) [] in
      fold_left
        (fun result archetype =>
           match JsMap.get archetype (archetypeToEntities w) with
           | Some ents => fold_left (fun r entity => JsSet.add entity r) ents result
           | None => result
           end)
        matchingArchetypes []
  end.

(** *** Groups (ecs/group.ts) with the two listeners that [createGroup]
    connects to every group it makes, run in line at the [fire] *)

Definition group_hasEntity (g : GroupId) (entity : EntityId) (w : World) : bool :=
  match JsMap.get g (heap w) with
  | Some G => JsSet.has entity (g_entities G)
  | None => false
  end.

Definition group_getEntities (g : GroupId) (w : World) : list EntityId :=
  match JsMap.get g (heap w) with
  | Some G => g_entities G
  | None => []
  end.

Definition group_has (g : GroupId) (component : Id) (w : World) : bool :=
  match JsMap.get g (heap w) with
  | Some G => JsMap.has component (g_components G)
  | None => false
  end.

Definition group_get (g : GroupId) (component : Id) (w : World) : option Value :=
  match JsMap.get g (heap w) with
  | Some G => JsMap.get component (g_components G)
  | None => None
  end.

Definition group_set (g : GroupId) (component : Id) (value : Value) (w : World) : World :=
  match JsMap.get g (heap w) with
  | Some G =>
      with_heap
        (JsMap.set g (mkGroup (g_id G) (g_entities G)
                        (JsMap.set component value (g_components G))) (heap w)) w
  | None => w
  end.

Definition group_remove (g : GroupId) (component : Id) (w : World) : bool * World :=
  match JsMap.get g (heap w) with
  | Some G =>
      (JsMap.has component (g_components G),
       with_heap
         (JsMap.set g (mkGroup (g_id G) (g_entities G)
                         (JsMap.delete component (g_components G))) (heap w)) w)
  | None => (false, w)
  end.

(** The listener on [group.onEntityAdded]. *)
Definition onGroupEntityAdded (g : GroupId) (entity : EntityId) (w : World) : World :=
  let w1 :=
    if JsMap.has entity (entityToGroups w) then w
    else with_entityToGroups (JsMap.set entity [] (entityToGroups w)) w in
  let w2 :=
    match JsMap.get entity (entityToGroups w1) with
    | Some gs =>
        with_entityToGroups (JsMap.set entity (JsSet.add g gs) (entityToGroups w1)) w1
    | None => w1
    end in
  fire (EntityAddedToGroup entity g) w2.

(** The listener on [group.onEntityRemoved]. *)
Definition onGroupEntityRemoved (g : GroupId) (entity : EntityId) (w : World) : World :=
  let w1 :=
    match JsMap.get entity (entityToGroups w) with
    | Some gs =>
        with_entityToGroups (JsMap.set entity (JsSet.delete g gs) (entityToGroups w)) w
    | None => w
    end in
  let w2 :=
    match JsMap.get entity (entityToGroups w1) with
    | Some [] => with_entityToGroups (JsMap.delete entity (entityToGroups w1)) w1
    | _ => w1
    end in
  fire (EntityRemovedFromGroup entity g) w2.

Definition group_addEntity (g : GroupId) (entity : EntityId) (w : World) : World :=
  match JsMap.get g (heap w) with
  | Some G =>
      if negb (JsSet.has entity (g_entities G)) then
        let w1 :=
          with_heap
            (JsMap.set g (mkGroup (g_id G) (JsSet.add entity (g_entities G))
                            (g_components G)) (heap w)) w in
        onGroupEntityAdded g entity w1
      else w
  | None => w
  end.

Definition group_removeEntity (g : GroupId) (entity : EntityId) (w : World) : World :=
  match JsMap.get g (heap w) with
  | Some G =>
      if JsSet.has entity (g_entities G) then
        let w1 :=
          with_heap
            (JsMap.set g (mkGroup (g_id G) (JsSet.delete entity (g_entities G))
                            (g_components G)) (heap w)) w in
        onGroupEntityRemoved g entity w1
      else w
  | None => w
  end.

(** *** Entities and components (ecs/world.ts) *)

Definition valid (entity : EntityId) (w : World) : bool :=
  JsSet.has entity (entities w).

Definition spawn (w : World) : EntityId * World :=
  let entity := nextEntityId w in
  let w1 :=
    mkWorld (entity + 1) (JsSet.add entity (entities w))
      (JsMap.set entity [] (components w)) (groups w) (entityToGroups w)
      (archetypeToEntities w) (entityToArchetype w) (heap w) (nextGroupId w)
      (log w) in
  (entity, fire (EntitySpawned entity) w1).

(** The loop of [despawn] over the groups of the entity: each group drops
    the entity (which runs the world's listener) and the removal is announced
    once more. *)
Definition detachFromGroups (entity : EntityId) (gs : list GroupId) (w : World) : World :=
  fold_left
    (fun w g => fire (EntityRemovedFromGroup entity g) (group_removeEntity g entity w))
    gs w.

Definition despawn (entity : EntityId) (w : World) : bool * World :=
  if negb (valid entity w) then (false, w)
  else
    let w1 :=
      match JsMap.get entity (entityToGroups w) with
      | Some gs =>
          let w' := detachFromGroups entity gs w in
          with_entityToGroups (JsMap.delete entity (entityToGroups w')) w'
      | None => w
      end in
    match JsMap.get entity (components w1) with
    | None => (false, w1)
    | Some comps =>
        let w2 :=
          fire_all (map (fun comp => ComponentRemoved entity comp) (JsMap.keys comps)) w1 in
        let w3 := with_entities (JsSet.delete entity (entities w2)) w2 in
        let w4 := with_components (JsMap.delete entity (components w3)) w3 in
        (true, fire (EntityDespawned entity) w4)
    end.

Definition set (entity : EntityId) (component : Id) (value : Value) (w : World)
  : outcome World :=
  if negb (valid entity w) then Threw
  else
    match JsMap.get entity (components w) with
    | None => Returned w
    | Some comps =>
        let had := JsMap.has component comps in
        let w1 :=
          with_components
            (JsMap.set entity (JsMap.set component value comps) (components w)) w in
        let w2 := updateEntityArchetype entity w1 in
        Returned (if had then w2 else fire (ComponentAdded entity component) w2)
    end.

(** The entity's own table, without the liveness test and the overlay. *)
Definition own_get (entity : EntityId) (component : Id) (w : World) : option Value :=
  match JsMap.get entity (components w) with
  | Some comps => JsMap.get component comps
  | None => None
  end.

Definition own_has (entity : EntityId) (component : Id) (w : World) : bool :=
  match JsMap.get entity (components w) with
  | Some comps => JsMap.has component comps
  | None => false
  end.

Definition get (entity : EntityId) (component : Id) (w : World) : option Value :=
  if negb (valid entity w) then None
  else if own_has entity component w then own_get entity component w
  else
    match JsMap.get entity (entityToGroups w) with
    | Some gs =>
        match find (fun g => group_has g component w) gs with
        | Some g => group_get g component w
        | None => None
        end
    | None => None
    end.

Definition has (entity : EntityId) (component : Id) (w : World) : bool :=
  if negb (valid entity w) then false
  else if own_has entity component w then true
  else
    match JsMap.get entity (entityToGroups w) with
    | Some gs => existsb (fun g => group_has g component w) gs
    | None => false
    end.

Definition remove (entity : EntityId) (component : Id) (w : World) : bool * World :=
  if negb (valid entity w) then (false, w)
  else
    match JsMap.get entity (components w) with
    | None => (false, w)
    | Some comps =>
        let had := JsMap.has component comps in
        if had then
          let w1 :=
            with_components
              (JsMap.set entity (JsMap.delete component comps) (components w)) w in
          let w2 := updateEntityArchetype entity w1 in
          (true, fire (ComponentRemoved entity component) w2)
        else (false, w)
    end.

(** *** Queries *)

Record Query := mkQuery { required : list Id; excluded : list Id }.

Definition query (cs : list Id) : Query := mkQuery cs [].

Definition with_ (newComps : list Id) (q : Query) : Query :=
  mkQuery (required q ++ newComps) (excluded q).

Definition without (ex : list Id) (q : Query) : Query :=
  mkQuery (required q) (excluded q ++ ex).

(** The calls [cb(entity, ...values)] that [each] makes, in order. *)
Definition each (q : Query) (w : World) : list (EntityId * list (option Value)) :=
  fold_left
    (fun calls entity =>
       match JsMap.get entity (components w) with
       | None => calls
       | Some comps =>
           calls ++ [(entity, map (fun c => JsMap.get c comps) (required q))]
       end)
    (getMatchingEntities (required q) (excluded q) w) [].

Definition collect (q : Query) (w : World) : list (EntityId * list (option Value)) :=
  each q w.

(** *** Groups of the world *)

Definition createGroup (w : World) : GroupId * World :=
  let g := nextGroupId w in
  (g,
   mkWorld (nextEntityId w) (entities w) (components w) (JsSet.add g (groups w))
     (entityToGroups w) (archetypeToEntities w) (entityToArchetype w)
     (JsMap.set g (mkGroup g [] []) (heap w)) (g + 1) (log w)).

Definition removeGroup (g : GroupId) (w : World) : World :=
  if negb (JsSet.has g (groups w)) then w
  else
    let w1 :=
      fold_left (fun w entity => group_removeEntity g entity w)
        (group_getEntities g w) w in
    with_groups (JsSet.delete g (groups w1)) w1.

Definition getGroupsForEntity (entity : EntityId) (w : World) : list GroupId :=
  match JsMap.get entity (entityToGroups w) with
  | Some gs => gs
  | None => []
  end.

Definition getGroupsWithComponent (component : Id) (w : World) : list GroupId :=
  filter (fun g => group_has g component w) (groups w).

(** *** Snapshots (ecs/snapshot.ts) and revert *)

Definition filtering (components : option (list Id)) : bool :=
  match components with
  | Some (_ :: _) => true
  | _ => false
  end.

Definition cloneFiltered (ids : list Id) (comps : Components) : Components :=
  fold_left
    (fun cloned id =>
       match JsMap.get id comps with
       | Some v => JsMap.set id (deepClone v) cloned
       | None => cloned
       end)
    ids [].

Definition cloneAll (comps : Components) : Components :=
  fold_left (fun cloned kv => JsMap.set (fst kv) (deepClone (snd kv)) cloned) comps [].

Fixpoint captureEntities (ents : list EntityId)
    (componentsMap : list (EntityId * Components)) (filter : option (list Id))
    (entityStates : list (EntityId * Components))
  : outcome (list (EntityId * Components)) :=
  match ents with
  | [] => Returned entityStates
  | entity :: rest =>
      match JsMap.get entity componentsMap with
      | None => Threw
      | Some comps =>
          if filtering filter then
            let cloned := cloneFiltered (match filter with Some ids => ids | None => [] end) comps in
            captureEntities rest componentsMap filter
              (match cloned with
               | [] => entityStates
               | _ => JsMap.set entity cloned entityStates
               end)
          else
            captureEntities rest componentsMap filter
              (JsMap.set entity (cloneAll comps) entityStates)
      end
  end.

(** [id] stands for the result of [generateId()] and [now] for [os.clock()]. *)
Definition createSnapshot (id now : N) (ents : list EntityId)
    (componentsMap : list (EntityId * Components)) (filter : option (list Id))
  : outcome Snapshot :=
  match captureEntities ents componentsMap filter [] with
  | Returned entityStates => Returned (mkSnapshot id now entityStates filter)
  | Threw => Threw
  end.

(** [WorldImpl.snapshot] is declared to return [Snapshot | undefined]. *)
Definition snapshot (id now : N) (filter : option (list Id)) (w : World)
  : outcome (option Snapshot) :=
  match createSnapshot id now (entities w) (components w) filter with
  | Returned s => Returned (Some s)
  | Threw => Threw
  end.

Definition isPartial (s : Snapshot) : bool := filtering (snap_components s).

(** The loop that deletes the current components the snapshot does not list. *)
Definition pruneComponents (entity : EntityId) (snapshotComps currentComps : Components)
  : Components * list WorldEvent :=
  fold_left
    (fun acc id =>
       if negb (JsMap.has id snapshotComps)
       then (JsMap.delete id (fst acc), snd acc ++ [ComponentRemoved entity id])
       else acc)
    (JsMap.keys currentComps) (currentComps, []).

(** The test guarding each write of the restore loop:
    [!isPartial || !snapshot.components || snapshot.components.includes(id)]. *)
Definition restores (s : Snapshot) (id : Id) : bool :=
  negb (isPartial s)
  || match snap_components s with
     | None => true
     | Some ids => includes id ids
     end.

(** The loop that writes the captured components back. *)
Definition restoreComponents (s : Snapshot) (entity : EntityId)
    (snapshotComps currentComps : Components) : Components * list WorldEvent :=
  fold_left
    (fun acc kv =>
       if restores s (fst kv)
       then (JsMap.set (fst kv) (deepClone (snd kv)) (fst acc),
             snd acc ++ [ComponentAdded entity (fst kv)])
       else acc)
    snapshotComps (currentComps, []).

(** Both loops on the table of one entity: the table they leave and the
    events they fire. *)
Definition restoreTable (s : Snapshot) (entity : EntityId)
    (snapshotComps currentComps : Components) : Components * list WorldEvent :=
  let pruned :=
    if negb (isPartial s) then pruneComponents entity snapshotComps currentComps
    else (currentComps, []) in
  let restored := restoreComponents s entity snapshotComps (fst pruned) in
  (fst restored, snd pruned ++ snd restored).

(** How one turn of a loop ends: at its end or a [continue], or with the
    [return] that leaves the function. *)
Inductive turn (A : Type) : Type :=
| Continue (a : A)
| Return (a : A).
Arguments Continue {A} a.
Arguments Return {A} a.

(** The body of the loop over [snapshot.entityStates]; the current table
    is a reference into [components], so the edits made through it are
    written back in place. *)
Definition restoreEntity (s : Snapshot) (entity : EntityId)
    (snapshotComps : Components) (w : World) : turn World :=
  if negb (JsSet.has entity (entities w)) && (JsMap.size snapshotComps =? 0)%nat
  then Continue w
  else
    let w1 :=
      if negb (JsSet.has entity (entities w)) then
        fire (EntitySpawned entity)
          (with_components (JsMap.set entity [] (components w))
             (with_entities (JsSet.add entity (entities w)) w))
      else w in
    match JsMap.get entity (components w1) with
    | None => Return w1
    | Some currentComps =>
        let r := restoreTable s entity snapshotComps currentComps in
        let w2 := with_components (JsMap.set entity (fst r) (components w1)) w1 in
        Continue (fire_all (snd r) w2)
    end.

Fixpoint restoreEntities (s : Snapshot) (states : list (EntityId * Components))
    (w : World) : World :=
  match states with
  | [] => w
  | (entity, snapshotComps) :: rest =>
      match restoreEntity s entity snapshotComps w with
      | Continue w' => restoreEntities s rest w'
      | Return w' => w'
      end
  end.

(** The loop that despawns the entities the snapshot does not list, over
    the copy [[...this.entities]] made before it starts. *)
Definition despawnEach (s : Snapshot) (ents : list EntityId) (w : World) : World :=
  fold_left
    (fun w entity =>
       if negb (JsMap.has entity (entityStates s)) then snd (despawn entity w) else w)
    ents w.

Definition despawnUnlisted (s : Snapshot) (w : World) : World :=
  despawnEach s (entities w) w.

Definition revert (s : Snapshot) (w : World) : World :=
  let w1 := if negb (isPartial s) then despawnUnlisted s w else w in
  restoreEntities s (entityStates s) w1.

(** *** Prefabs (ecs/prefab.ts)

    A prefab holds the array of component-value pairs it was made with and
    the world it spawns into, which is passed here at the call. *)

Definition Prefab := list (Id * Value).

Definition prefab (components : list (Id * Value)) : Prefab := components.

(** One of the two loops of [Prefab.spawn]: [world.set] for every pair. *)
Fixpoint setEach (entity : EntityId) (pairs : list (Id * Value)) (w : World)
  : outcome World :=
  match pairs with
  | [] => Returned w
  | (component, value) :: rest =>
      match set entity component value w with
      | Returned w' => setEach entity rest w'
      | Threw => Threw
      end
  end.

Definition prefab_spawn (p : Prefab) (overrides : list (Id * Value)) (w : World)
  : outcome (EntityId * World) :=
  let (entity, w1) := spawn w in
  match setEach entity p w1 with
  | Returned w2 =>
      match setEach entity overrides w2 with
      | Returned w3 => Returned (entity, w3)
      | Threw => Threw
      end
  | Threw => Threw
  end.

Definition prefab_extend (p : Prefab) (components : list (Id * Value)) : Prefab :=
  p ++ components.

(** *** The remaining methods of a query *)

Definition map_ {U : Type} (fn : EntityId * list (option Value) -> U) (q : Query)
    (w : World) : list U :=
  List.map fn (collect q w).

Definition filter_ (fn : EntityId * list (option Value) -> bool) (q : Query)
    (w : World) : list (EntityId * list (option Value)) :=
  List.filter fn (collect q w).

(** *** [each] of the older [WorldImpl], which has no archetype index

    It walks all entities and tests the own table of each.  The table is
    taken with a non-null assertion: on an entity without a table the first
    test that looks into the table faults, and with nothing required and
    nothing excluded no test is made and the callback gets the entity alone. *)
Fixpoint each_unindexed_loop (q : Query) (cm : list (EntityId * Components))
    (ents : list EntityId) (calls : list (EntityId * list (option Value)))
  : outcome (list (EntityId * list (option Value))) :=
  match ents with
  | [] => Returned calls
  | entity :: rest =>
      match JsMap.get entity cm with
      | Some comps =>
          let hasAll := forallb (fun c => JsMap.has c comps) (required q) in
          let hasEx := existsb (fun c => JsMap.has c comps) (excluded q) in
          if hasAll && negb hasEx
          then each_unindexed_loop q cm rest
                 (calls ++ [(entity, List.map (fun c => JsMap.get c comps) (required q))])
          else each_unindexed_loop q cm rest calls
      | None =>
          match required q, excluded q with
          | [], [] => each_unindexed_loop q cm rest (calls ++ [(entity, [])])
          | _, _ => Threw
          end
      end
  end.

Definition each_unindexed (q : Query) (w : World)
  : outcome (list (EntityId * list (option Value))) :=
  each_unindexed_loop q (components w) (entities w) [].

(** *** [set], [remove] and [despawn] of the older [WorldImpl]

    They are the methods of the indexed world without the call of
    [updateEntityArchetype], and they take the table of the entity with a
    non-null assertion, so that a live entity without a table makes them
    fault where the indexed ones return. *)

Definition set_unindexed (entity : EntityId) (component : Id) (value : Value)
    (w : World) : outcome World :=
  if negb (valid entity w) then Threw
  else
    match JsMap.get entity (components w) with
    | None => Threw
    | Some comps =>
        let had := JsMap.has component comps in
        let w1 :=
          with_components
            (JsMap.set entity (JsMap.set component value comps) (components w)) w in
        Returned (if had then w1 else fire (ComponentAdded entity component) w1)
    end.

Definition remove_unindexed (entity : EntityId) (component : Id) (w : World)
  : outcome (bool * World) :=
  if negb (valid entity w) then Returned (false, w)
  else
    match JsMap.get entity (components w) with
    | None => Threw
    | Some comps =>
        let had := JsMap.has component comps in
        if had then
          let w1 :=
            with_components
              (JsMap.set entity (JsMap.delete component comps) (components w)) w in
          Returned (true, fire (ComponentRemoved entity component) w1)
        else Returned (false, w)
    end.

Definition despawn_unindexed (entity : EntityId) (w : World) : outcome (bool * World) :=
  if negb (valid entity w) then Returned (false, w)
  else
    let w1 :=
      match JsMap.get entity (entityToGroups w) with
      | Some gs =>
          let w' := detachFromGroups entity gs w in
          with_entityToGroups (JsMap.delete entity (entityToGroups w')) w'
      | None => w
      end in
    match JsMap.get entity (components w1) with
    | None => Threw
    | Some comps =>
        let w2 :=
          fire_all (List.map (fun comp => ComponentRemoved entity comp) (JsMap.keys comps)) w1 in
        let w3 := with_entities (JsSet.delete entity (entities w2)) w2 in
        let w4 := with_components (JsMap.delete entity (components w3)) w3 in
        Returned (true, fire (EntityDespawned entity) w4)
    end.

(** *** Calls on a world and the states they reach *)

Inductive Op : Type :=
| OSpawn
| ODespawn (e : EntityId)
| OSet (e : EntityId) (c : Id) (v : Value)
| ORemove (e : EntityId) (c : Id)
| OCreateGroup
| ORemoveGroup (g : GroupId)
| OAddEntity (g : GroupId) (e : EntityId)
| ORemoveEntity (g : GroupId) (e : EntityId)
| OGroupSet (g : GroupId) (c : Id) (v : Value)
| OGroupRemove (g : GroupId) (c : Id)
| ORevert (s : Snapshot).

(** The state after a call; a call that throws leaves the state as it was. *)
Definition step (op : Op) (w : World) : World :=
  match op with
  | OSpawn => snd (spawn w)
  | ODespawn e => snd (despawn e w)
  | OSet e c v => match set e c v w with Returned w' => w' | Threw => w end
  | ORemove e c => snd (remove e c w)
  | OCreateGroup => snd (createGroup w)
  | ORemoveGroup g => removeGroup g w
  | OAddEntity g e => group_addEntity g e w
  | ORemoveEntity g e => group_removeEntity g e w
  | OGroupSet g c v => group_set g c v w
  | OGroupRemove g c => snd (group_remove g c w)
  | ORevert s => revert s w
  end.

Definition run (ops : list Op) (w : World) : World :=
  fold_left (fun w op => step op w) ops w.

(** spawn, despawn, set and remove: the calls on entities. *)
Definition entity_op (op : Op) : bool :=
  match op with
  | OSpawn | ODespawn _ | OSet _ _ _ | ORemove _ _ => true
  | _ => false
  end.

Definition is_revert (op : Op) : bool :=
  match op with
  | ORevert _ => true
  | _ => false
  end.

(** [reachable w snaps]: [w] is reached from a new world by calls of its
    API, [snaps] being the snapshots taken of it on the way; a revert is to
    one of those. *)
Inductive reachable : World -> list Snapshot -> Prop :=
| reach_new : reachable createWorld []
| reach_step w snaps op :
    reachable w snaps ->
    (forall s, op = ORevert s -> In s snaps) ->
    reachable (step op w) snaps
| reach_snapshot w snaps id now filter s :
    reachable w snaps ->
    snapshot id now filter w = Returned (Some s) ->
    reachable w (s :: snaps).

(** *** Invariants of the store *)

(** Every live entity has a component table. *)
Definition tables_ok (w : World) : Prop :=
  forall e, valid e w = true -> JsMap.has e (components w) = true.

(** Every live entity was issued by [spawn]. *)
Definition ids_issued (w : World) : Prop :=
  forall e, valid e w = true -> e < nextEntityId w.

(** The reverse index lists every group an entity is a member of. *)
Definition groups_synced (w : World) : Prop :=
  forall g e, group_hasEntity g e w = true -> In g (getGroupsForEntity e w).

(** The entities in the archetype bucket [a]. *)
Definition bucket (a : string) (w : World) : list EntityId :=
  match JsMap.get a (archetypeToEntities w) with
  | Some ents => ents
  | None => []
  end.

Definition in_bucket (a : string) (entity : EntityId) (w : World) : bool :=
  JsSet.has entity (bucket a w).

(** The keys of the buckets of an index that hold the entity. *)
Definition bucketsIn (entity : EntityId) (index : list (string * list EntityId))
  : list string :=
  map fst (filter (fun b => JsSet.has entity (snd b)) index).

(** The archetypes whose bucket holds the entity. *)
Definition bucketsOf (entity : EntityId) (w : World) : list string :=
  bucketsIn entity (archetypeToEntities w).

(** The archetype of an entity by its own table: none for an empty table. *)
Definition archetypeOf (entity : EntityId) (w : World) : option string :=
  match JsMap.get entity (components w) with
  | Some (kv :: r) => Some (signatureOf (kv :: r))
  | _ => None
  end.

(** The index knows the entity under the archetype [a], and under no other. *)
Definition indexed_at (entity : EntityId) (a : option string) (w : World) : Prop :=
  JsMap.get entity (entityToArchetype w) = a /\
  bucketsOf entity w = match a with Some x => [x] | None => [] end.

(** The archetype index agrees with the own table of every live entity, and
    knows nothing of ids that were never issued. *)
Definition archetype_ok (w : World) : Prop :=
  NoDup (JsMap.keys (archetypeToEntities w)) /\
  (forall e, valid e w = true -> indexed_at e (archetypeOf e w) w) /\
  (forall e, nextEntityId w <= e -> indexed_at e None w).

(** Only live entities have a component table. *)
Definition tables_live (w : World) : Prop :=
  forall e, JsMap.has e (components w) = true -> valid e w = true.

Definition ownComponentIds (entity : EntityId) (w : World) : list Id :=
  match JsMap.get entity (components w) with
  | Some comps => JsMap.keys comps
  | None => []
  end.

(** Two states that differ at most in the archetype index and the event log. *)
Definition same_store w w' : Prop :=
  nextEntityId w' = nextEntityId w /\ entities w' = entities w /\
  components w' = components w /\ groups w' = groups w /\
  entityToGroups w' = entityToGroups w /\ heap w' = heap w /\
  nextGroupId w' = nextGroupId w.

(** The fields that no call on a group touches. *)
Definition same_entities w w' : Prop :=
  nextEntityId w' = nextEntityId w /\ entities w' = entities w /\
  components w' = components w /\ groups w' = groups w /\
  archetypeToEntities w' = archetypeToEntities w /\
  entityToArchetype w' = entityToArchetype w.

(** The table the restore loop starts from: the live entity's own table,
    the empty one of an entity it has just re-created. *)
Definition currentTable (entity : EntityId) (w : World) : Components :=
  if valid entity w
  then match JsMap.get entity (components w) with
       | Some comps => comps
       | None => []
       end
  else [].

(** Keys are distinct in every component table of the world. *)
Definition tables_nodup (w : World) : Prop :=
  forall e comps, JsMap.get e (components w) = Some comps -> NoDup (JsMap.keys comps).

(** A snapshot is a map of maps: keys are distinct at both levels. *)
Definition snapshot_wf (s : Snapshot) : Prop :=
  NoDup (JsMap.keys (entityStates s)) /\
  forall e sc, In (e, sc) (entityStates s) -> NoDup (JsMap.keys sc).

(** The entities of the snapshots taken so far were issued by [spawn]. *)
Definition snapshots_issued (snaps : list Snapshot) (w : World) : Prop :=
  forall s e, In s snaps -> JsMap.has e (entityStates s) = true -> e < nextEntityId w.

(** Two states that differ at most in the entity set, the component
    tables and the event log. *)
Definition same_outside_tables w w' : Prop :=
  nextEntityId w' = nextEntityId w /\ groups w' = groups w /\
  entityToGroups w' = entityToGroups w /\ heap w' = heap w /\
  nextGroupId w' = nextGroupId w /\
  archetypeToEntities w' = archetypeToEntities w /\
  entityToArchetype w' = entityToArchetype w.

(** Two states with the same entities, ids issued and component tables. *)
Definition same_tables w w' : Prop :=
  nextEntityId w' = nextEntityId w /\ entities w' = entities w /\
  components w' = components w.

(** The invariants of the entity store taken together. *)
Definition store_inv (w : World) : Prop :=
  tables_ok w /\ ids_issued w /\ tables_nodup w.

(** What is known of a reachable world and the snapshots taken of it. *)
Definition world_inv (w : World) (snaps : list Snapshot) : Prop :=
  store_inv w /\ groups_synced w /\ snapshots_issued snaps w /\
  forall s, In s snaps -> snapshot_wf s.

(** Every group the reverse index lists for an entity has it as a member. *)
Definition groups_backed (w : World) : Prop :=
  forall g e, In g (getGroupsForEntity e w) -> group_hasEntity g e w = true.

(** The entries of the reverse index are sets: none lists a group twice. *)
Definition group_sets_ok (w : World) : Prop :=
  forall e, NoDup (getGroupsForEntity e w).

(** The group objects were all made by [createGroup]. *)
Definition heap_issued (w : World) : Prop :=
  forall g, JsMap.has g (heap w) = true -> g < nextGroupId w.

(** What holds of the groups of a reachable world, besides [groups_synced]. *)
Definition groups_inv (w : World) : Prop :=
  groups_backed w /\ group_sets_ok w /\ heap_issued w.

(** [entity] is in no group in [w'] that it is not in in [w], for the
    reverse index and for the groups themselves. *)
Definition membership_within (entity : EntityId) (w w' : World) : Prop :=
  (forall g, In g (getGroupsForEntity entity w') -> In g (getGroupsForEntity entity w)) /\
  (forall g, group_hasEntity g entity w' = true -> group_hasEntity g entity w = true).

(** The entity set lists no entity twice. *)
Definition entities_nodup (w : World) : Prop := NoDup (entities w).

(** What a query asks of an entity: it is live, its own table has every
    required component and no excluded one. *)
Definition matches (q : Query) (entity : EntityId) (w : World) : bool :=
  valid entity w
  && forallb (fun c => own_has entity c w) (required q)
  && negb (existsb (fun c => own_has entity c w) (excluded q)).

(** Whether the signature of a bucket passes the two tests of
    [getMatchingEntities]. *)
Definition archetypeMatches (required excluded : list Id) (archetype : string) : bool :=
  forallb (fun req => includes req (parseArchetype archetype)) required
  && negb (existsb (fun ex => includes ex (parseArchetype archetype)) excluded).

End World.

Arguments OSpawn {Value}.
Arguments ODespawn {Value} e.
Arguments ORemove {Value} e c.
Arguments OCreateGroup {Value}.
Arguments ORemoveGroup {Value} g.
Arguments OAddEntity {Value} g e.
Arguments ORemoveEntity {Value} g e.
Arguments OGroupRemove {Value} g c.
Arguments createWorld {Value}.

(** * Facts about sets and maps *)

Unset Implicit Arguments.

Lemma keq_refl {K} `{Key K} (x : K) : keq x x = true.
Proof. destruct (keq_spec x x); congruence. Qed.

Lemma keq_neq {K} `{Key K} {x y : K} : x <> y -> keq x y = false.
Proof. destruct (keq_spec x y); congruence. Qed.

Ltac keq_case x y :=
  let E := fresh "E" in
  destruct (keq_spec x y) as [E | E].

Section SetFacts.
Context {K : Type} `{Key K}.

Lemma set_has_In x s : JsSet.has x s = true <-> In x s.
Proof.
  unfold JsSet.has. rewrite existsb_exists. split.
  - intros [y [Hy E]]. destruct (keq_spec x y); congruence.
  - intros Hx. exists x. split; [assumption | apply keq_refl].
Qed.

Lemma set_has_false x s : JsSet.has x s = false <-> ~ In x s.
Proof.
  rewrite <- set_has_In. destruct (JsSet.has x s); split; congruence.
Qed.

Lemma set_In_add y x s : In y (JsSet.add x s) <-> y = x \/ In y s.
Proof.
  unfold JsSet.add. destruct (JsSet.has x s) eqn:E.
  - apply set_has_In in E. split; [tauto | intros [-> | ?]; assumption].
  - rewrite in_app_iff. simpl. intuition congruence.
Qed.

Lemma set_In_delete y x s : In y (JsSet.delete x s) <-> y <> x /\ In y s.
Proof.
  unfold JsSet.delete. rewrite filter_In.
  destruct (keq_spec x y); simpl; intuition congruence.
Qed.

Lemma set_has_add y x s : JsSet.has y (JsSet.add x s) = keq y x || JsSet.has y s.
Proof.
  destruct (JsSet.has y (JsSet.add x s)) eqn:E.
  - apply set_has_In, set_In_add in E. destruct E as [-> | E].
    + now rewrite keq_refl.
    + apply set_has_In in E. rewrite E. now rewrite orb_true_r.
  - apply set_has_false in E. rewrite set_In_add in E.
    keq_case y x; [tauto |].
    destruct (JsSet.has y s) eqn:E'; [apply set_has_In in E'; tauto | reflexivity].
Qed.

Lemma set_has_delete y x s : JsSet.has y (JsSet.delete x s) = negb (keq y x) && JsSet.has y s.
Proof.
  destruct (JsSet.has y (JsSet.delete x s)) eqn:E.
  - apply set_has_In, set_In_delete in E. destruct E as [Hn E].
    apply set_has_In in E. rewrite E, (keq_neq Hn). reflexivity.
  - apply set_has_false in E. rewrite set_In_delete in E.
    keq_case y x; [reflexivity |].
    destruct (JsSet.has y s) eqn:E'; [apply set_has_In in E'; tauto | reflexivity].
Qed.

Lemma set_delete_absent x s : JsSet.has x s = false -> JsSet.delete x s = s.
Proof.
  intros E. apply set_has_false in E. unfold JsSet.delete.
  induction s as [| y s IH]; simpl; [reflexivity |].
  keq_case x y; simpl.
  - exfalso. apply E. now left.
  - f_equal. apply IH. intros Hin. apply E. now right.
Qed.
End SetFacts.

Section MapFacts.
Context {K V : Type} `{Key K}.
Implicit Types m : list (K * V).

Lemma map_get_set k v m k' :
  JsMap.get k' (JsMap.set k v m) = if keq k' k then Some v else JsMap.get k' m.
Proof.
  induction m as [| [k0 v0] r IH]; simpl.
  - destruct (keq k' k); reflexivity.
  - keq_case k k0; simpl.
    + subst k0. destruct (keq k' k); reflexivity.
    + rewrite IH. keq_case k' k0; [| reflexivity].
      subst k0. now rewrite (keq_neq (x:=k') (y:=k)) by congruence.
Qed.

Lemma map_get_set_eq k v m : JsMap.get k (JsMap.set k v m) = Some v.
Proof. now rewrite map_get_set, keq_refl. Qed.

Lemma map_get_set_neq k v m k' : k' <> k -> JsMap.get k' (JsMap.set k v m) = JsMap.get k' m.
Proof. intros Hn. now rewrite map_get_set, (keq_neq Hn). Qed.

Lemma map_get_delete k m k' :
  JsMap.get k' (JsMap.delete k m) = if keq k' k then None else JsMap.get k' m.
Proof.
  induction m as [| [k0 v0] r IH]; simpl.
  - destruct (keq k' k); reflexivity.
  - keq_case k k0; simpl.
    + subst k0. rewrite IH. destruct (keq k' k); reflexivity.
    + rewrite IH. keq_case k' k0; [| reflexivity].
      subst k0. now rewrite (keq_neq (x:=k') (y:=k)) by congruence.
Qed.

Lemma map_get_delete_eq k m : JsMap.get k (JsMap.delete k m) = None.
Proof. now rewrite map_get_delete, keq_refl. Qed.

Lemma map_get_delete_neq k m k' : k' <> k -> JsMap.get k' (JsMap.delete k m) = JsMap.get k' m.
Proof. intros Hn. now rewrite map_get_delete, (keq_neq Hn). Qed.

Lemma map_has_set k v m k' : JsMap.has k' (JsMap.set k v m) = keq k' k || JsMap.has k' m.
Proof. unfold JsMap.has. rewrite map_get_set. destruct (keq k' k); reflexivity. Qed.

Lemma map_has_delete k m k' : JsMap.has k' (JsMap.delete k m) = negb (keq k' k) && JsMap.has k' m.
Proof. unfold JsMap.has. rewrite map_get_delete. destruct (keq k' k); reflexivity. Qed.

Lemma map_delete_absent k m : JsMap.has k m = false -> JsMap.delete k m = m.
Proof.
  unfold JsMap.has, JsMap.delete.
  induction m as [| [k0 v0] r IH]; simpl; [reflexivity |].
  destruct (keq k k0); simpl; [discriminate |].
  intros Hr. f_equal. now apply IH.
Qed.

Lemma map_get_In k v m : JsMap.get k m = Some v -> In (k, v) m.
Proof.
  induction m as [| [k0 v0] r IH]; simpl; [discriminate |].
  destruct (keq_spec k k0) as [-> | Hn].
  - intros [= ->]. now left.
  - intros Hr. right. now apply IH.
Qed.

Lemma map_In_has k v m : In (k, v) m -> JsMap.has k m = true.
Proof.
  unfold JsMap.has. induction m as [| [k0 v0] r IH]; simpl; [tauto |].
  intros [[= -> ->] | Hin].
  - now rewrite keq_refl.
  - destruct (keq k k0); [reflexivity | now apply IH].
Qed.

Lemma map_has_keys k m : JsMap.has k m = true <-> In k (JsMap.keys m).
Proof.
  unfold JsMap.keys. rewrite in_map_iff. split.
  - unfold JsMap.has. destruct (JsMap.get k m) eqn:Hg; [| discriminate].
    intros _. exists (k, v). split; [reflexivity | now apply map_get_In].
  - intros [[k0 v0] [Hk Hin]]. simpl in Hk. subst. eapply map_In_has; eauto.
Qed.

Lemma map_has_false_keys k m : JsMap.has k m = false <-> ~ In k (JsMap.keys m).
Proof.
  rewrite <- map_has_keys. destruct (JsMap.has k m); split; congruence.
Qed.

Lemma map_NoDup_get k v m :
  NoDup (JsMap.keys m) -> In (k, v) m -> JsMap.get k m = Some v.
Proof.
  induction m as [| [k0 v0] r IH]; simpl; [tauto |].
  intros Hnd [[= -> ->] | Hin].
  - now rewrite keq_refl.
  - inversion Hnd as [| ? ? Hni Hnd']; subst.
    destruct (keq_spec k k0) as [-> | Hn].
    + exfalso. apply Hni. apply map_has_keys. eapply map_In_has; eauto.
    + now apply IH.
Qed.

Lemma map_keys_set_NoDup k v m :
  NoDup (JsMap.keys m) -> NoDup (JsMap.keys (JsMap.set k v m)).
Proof.
  induction m as [| [k0 v0] r IH]; simpl; intros Hnd.
  - constructor; [tauto | constructor].
  - inversion Hnd as [| ? ? Hni Hnd']; subst.
    destruct (keq_spec k k0) as [-> | Hn]; simpl.
    + now constructor.
    + constructor; [| now apply IH].
      rewrite <- map_has_keys, map_has_set, (keq_neq (x:=k0) (y:=k)) by congruence.
      simpl. rewrite map_has_keys. assumption.
Qed.

Lemma map_get_has k m v : JsMap.get k m = Some v -> JsMap.has k m = true.
Proof. unfold JsMap.has. now intros ->. Qed.

Lemma map_has_get k m : JsMap.has k m = true -> exists v, JsMap.get k m = Some v.
Proof. unfold JsMap.has. destruct (JsMap.get k m); [eauto | discriminate]. Qed.

Lemma map_get_none_has k m : JsMap.get k m = None <-> JsMap.has k m = false.
Proof. unfold JsMap.has. destruct (JsMap.get k m); split; congruence. Qed.

End MapFacts.

(** * The event channel *)

Lemma map_set_absent {K V} `{Key K} (k : K) (v : V) (m : list (K * V)) :
  JsMap.has k m = false -> JsMap.set k v m = m ++ [(k, v)].
Proof.
  unfold JsMap.has. induction m as [| [k0 v0] r IH]; simpl; [reflexivity |].
  destruct (keq k k0); [discriminate |]. intros Hr. now rewrite IH.
Qed.

Lemma map_keys_delete_In {K V} `{Key K} (k k' : K) (m : list (K * V)) :
  In k' (JsMap.keys (JsMap.delete k m)) <-> k' <> k /\ In k' (JsMap.keys m).
Proof.
  rewrite <- !map_has_keys, map_has_delete.
  destruct (keq_spec k' k) as [-> | Hne]; simpl.
  - split; [discriminate | tauto].
  - tauto.
Qed.

Lemma map_keys_delete_NoDup {K V} `{Key K} (k : K) (m : list (K * V)) :
  NoDup (JsMap.keys m) -> NoDup (JsMap.keys (JsMap.delete k m)).
Proof.
  unfold JsMap.keys, JsMap.delete.
  induction m as [| [k0 v0] r IH]; simpl; intros Hnd; [constructor |].
  inversion Hnd as [| ? ? Hni Hnd']; subst.
  destruct (keq k k0); simpl; [now apply IH |].
  constructor; [| now apply IH].
  intros Hin. apply Hni. apply in_map_iff in Hin. destruct Hin as [p [Hp Hin]].
  apply filter_In in Hin. apply in_map_iff. exists p. tauto.
Qed.

Lemma map_keys_set_In {K V} `{Key K} (k k' : K) (v : V) (m : list (K * V)) :
  In k' (JsMap.keys (JsMap.set k v m)) <-> k' = k \/ In k' (JsMap.keys m).
Proof.
  rewrite <- !map_has_keys, map_has_set.
  destruct (keq_spec k' k) as [-> | Hne]; simpl; [tauto |].
  split; [tauto | intros [? | ?]; [contradiction | assumption]].
Qed.

Lemma filter_filter_and {A} (f g : A -> bool) (l : list A) :
  filter g (filter f l) = filter (fun x => f x && g x) l.
Proof.
  induction l as [| x l IH]; simpl; [reflexivity |].
  destruct (f x); simpl; [destruct (g x); now rewrite IH | exact IH].
Qed.

Lemma filter_all {A} (f : A -> bool) (l : list A) :
  (forall x, In x l -> f x = true) -> filter f l = l.
Proof.
  induction l as [| x l IH]; simpl; intros Hall; [reflexivity |].
  rewrite (Hall x) by auto. f_equal. apply IH. auto.
Qed.

Lemma filter_none {A} (f : A -> bool) (l : list A) :
  (forall x, In x l -> f x = false) -> filter f l = [].
Proof.
  induction l as [| x l IH]; simpl; intros Hall; [reflexivity |].
  rewrite (Hall x) by auto. apply IH. auto.
Qed.

Lemma map_keys_filter_NoDup {K V} (f : K * V -> bool) (m : list (K * V)) :
  NoDup (JsMap.keys m) -> NoDup (JsMap.keys (filter f m)).
Proof.
  unfold JsMap.keys. induction m as [| p m IH]; simpl; intros Hnd; [constructor |].
  inversion Hnd as [| ? ? Hni Hnd']; subst.
  destruct (f p); simpl; [| now apply IH].
  constructor; [| now apply IH].
  intros Hin. apply Hni. apply in_map_iff in Hin. destruct Hin as [q [Hq Hin]].
  apply filter_In in Hin. apply in_map_iff. exists q. tauto.
Qed.

Lemma map_keys_filter_In {K V} (f : K * V -> bool) (m : list (K * V)) k :
  In k (JsMap.keys (filter f m)) -> In k (JsMap.keys m).
Proof.
  unfold JsMap.keys. rewrite !in_map_iff. intros [p [Hp Hin]].
  apply filter_In in Hin. exists p. tauto.
Qed.

Section EventFacts.
Import Event.

Implicit Types (ev : t) (cb : Callback) (pending ran : list (N * Callback)).

Lemma set_has_app (id : N) (l1 l2 : list N) :
  JsSet.has id (l1 ++ l2) = JsSet.has id l1 || JsSet.has id l2.
Proof. unfold JsSet.has. apply existsb_app. Qed.

Lemma Disconnect_has id ev id' :
  JsMap.has id' (connections (Disconnect id ev))
  = negb (N.eqb id' id) && JsMap.has id' (connections ev).
Proof. exact (map_has_delete id (connections ev) id'). Qed.

Lemma Disconnect_get id ev id' :
  JsMap.get id' (connections (Disconnect id ev))
  = if N.eqb id' id then None else JsMap.get id' (connections ev).
Proof. exact (map_get_delete id (connections ev) id'). Qed.

Lemma create_wf : wf create.
Proof. split; simpl; [constructor | tauto]. Qed.

Lemma connect_wf cb ev : wf ev -> wf (snd (connect cb ev)).
Proof.
  intros [Hnd Hlt]. split; simpl.
  - now apply map_keys_set_NoDup.
  - intros id Hin. apply map_keys_set_In in Hin. destruct Hin as [-> | Hin].
    + lia.
    + apply Hlt in Hin. lia.
Qed.

Lemma Disconnect_wf id ev : wf ev -> wf (Disconnect id ev).
Proof.
  intros [Hnd Hlt]. split; simpl.
  - now apply map_keys_delete_NoDup.
  - intros id' Hin. apply map_keys_delete_In in Hin. now apply Hlt.
Qed.

Lemma wf_nextId_fresh ev : wf ev -> JsMap.has (nextId ev) (connections ev) = false.
Proof.
  intros [_ Hlt]. destruct (JsMap.has (nextId ev) (connections ev)) eqn:Hh; [| reflexivity].
  apply map_has_keys, Hlt in Hh. lia.
Qed.

Lemma connect_connections cb ev :
  wf ev -> connections (snd (connect cb ev)) = connections ev ++ [(nextId ev, cb)].
Proof. intros Hwf. simpl. apply map_set_absent. now apply wf_nextId_fresh. Qed.

(** ** One callback *)

Lemma invoke_cons a cb pending ev :
  invoke (a :: cb) pending ev
  = invoke cb (fst (perform (pending, ev) a)) (snd (perform (pending, ev) a)).
Proof. unfold invoke. cbn [fold_left]. now destruct (perform (pending, ev) a). Qed.

Lemma invoke_nil pending ev : invoke [] pending ev = (pending, ev).
Proof. reflexivity. Qed.

Lemma perform_nextId pending ev a :
  nextId (snd (perform (pending, ev) a))
  = nextId ev + match a with ADisconnect _ => 0 | AConnect _ => 1 end.
Proof. destruct a; simpl; lia. Qed.

Lemma invoke_nextId cb : forall pending ev,
  nextId (snd (invoke cb pending ev))
  = nextId ev + N.of_nat (List.length (cb_connects cb)).
Proof.
  induction cb as [| a cb IH]; intros pending ev.
  - simpl. lia.
  - rewrite invoke_cons, IH, perform_nextId. destruct a; simpl cb_connects.
    + lia.
    + simpl List.length. lia.
Qed.

Lemma invoke_nextId_le cb pending ev : nextId ev <= nextId (snd (invoke cb pending ev)).
Proof. rewrite invoke_nextId. lia. Qed.

Lemma perform_wf pending ev a : wf ev -> wf (snd (perform (pending, ev) a)).
Proof.
  intros Hwf. destruct a as [id | c]; simpl.
  - now apply Disconnect_wf.
  - exact (connect_wf c ev Hwf).
Qed.

Lemma invoke_wf cb : forall pending ev, wf ev -> wf (snd (invoke cb pending ev)).
Proof.
  induction cb as [| a cb IH]; intros pending ev Hwf; [exact Hwf |].
  rewrite invoke_cons. apply IH. now apply perform_wf.
Qed.

(** A callback takes from the map the connections it disconnects, of those
    that had an id when it started. *)
Lemma invoke_get cb : forall pending ev id,
  id < nextId ev ->
  JsMap.get id (connections (snd (invoke cb pending ev)))
  = if JsSet.has id (cb_disconnects cb) then None else JsMap.get id (connections ev).
Proof.
  induction cb as [| a cb IH]; intros pending ev id Hlt; [reflexivity |].
  rewrite invoke_cons.
  assert (Hlt' : id < nextId (snd (perform (pending, ev) a))).
  { rewrite perform_nextId. destruct a; lia. }
  rewrite (IH _ _ _ Hlt'). clear Hlt'.
  destruct a as [d | c]; simpl cb_disconnects.
  - simpl snd. rewrite Disconnect_get. simpl JsSet.has.
    destruct (N.eqb id d); simpl; [now destruct (JsSet.has id (cb_disconnects cb)) | reflexivity].
  - simpl. rewrite map_get_set.
    assert (Hne : N.eqb id (nextId ev) = false) by (apply N.eqb_neq; lia).
    cbn [keq Key_N]. now rewrite Hne.
Qed.

Lemma perform_queue_ok pending ev a :
  queue_ok pending ev ->
  queue_ok (fst (perform (pending, ev) a)) (snd (perform (pending, ev) a)).
Proof.
  intros [Hnd Hlt]. unfold queue_ok. destruct a as [d | c]; simpl.
  - split.
    + now apply map_keys_delete_NoDup.
    + intros id Hin. apply map_keys_delete_In in Hin. now apply Hlt.
  - destruct (JsMap.has (nextId ev) (connections ev) && negb (JsMap.has (nextId ev) pending)).
    + split; [exact Hnd |]. intros id Hin. apply Hlt in Hin. lia.
    + split; [now apply map_keys_set_NoDup |].
      intros id Hin. apply map_keys_set_In in Hin. destruct Hin as [-> | Hin]; [lia |].
      apply Hlt in Hin. lia.
Qed.

Lemma invoke_queue_ok cb : forall pending ev,
  queue_ok pending ev ->
  queue_ok (fst (invoke cb pending ev)) (snd (invoke cb pending ev)).
Proof.
  induction cb as [| a cb IH]; intros pending ev Hq; [exact Hq |].
  rewrite invoke_cons. apply IH. now apply perform_queue_ok.
Qed.

(** What a callback leaves of the entries to reach: those it does not
    disconnect, followed by entries that it has connected. *)
Lemma invoke_pending cb : forall pending ev,
  queue_ok pending ev ->
  exists new,
    fst (invoke cb pending ev)
    = filter (fun p => negb (JsSet.has (fst p) (cb_disconnects cb))) pending ++ new /\
    forall p, In p new -> nextId ev <= fst p.
Proof.
  induction cb as [| a cb IH]; intros pending ev Hq.
  - exists []. rewrite app_nil_r. split; [| intros p []].
    simpl. symmetry. now apply filter_all.
  - rewrite invoke_cons.
    pose proof (perform_queue_ok pending ev a Hq) as Hq1.
    destruct (IH _ _ Hq1) as (new & Heq & Hnew). rewrite Heq. clear Heq IH.
    pose proof (perform_nextId pending ev a) as Hn.
    destruct a as [d | c]; simpl cb_disconnects.
    + exists new. split.
      * f_equal. simpl fst. unfold JsMap.delete. rewrite filter_filter_and.
        apply filter_ext. intros [k c]. simpl.
        rewrite N.eqb_sym. now destruct (N.eqb k d).
      * intros p Hin. apply Hnew in Hin. lia.
    + simpl fst in *. simpl snd in *.
      destruct (JsMap.has (nextId ev) (connections ev) && negb (JsMap.has (nextId ev) pending)).
      * exists new. split; [reflexivity |]. intros p Hin. apply Hnew in Hin. simpl in Hin. lia.
      * assert (Habs : JsMap.has (nextId ev) pending = false).
        { apply map_has_false_keys. intros Hin. apply (proj2 Hq) in Hin. lia. }
        rewrite (map_set_absent _ _ _ Habs), filter_app, <- app_assoc.
        eexists. split; [reflexivity |].
        intros p Hin. apply in_app_or in Hin. destruct Hin as [Hin | Hin].
        -- apply filter_In in Hin. destruct Hin as [[<- | []] _]. simpl. lia.
        -- apply Hnew in Hin. simpl in Hin. lia.
Qed.

Lemma perform_entries pending ev a p :
  In p (fst (perform (pending, ev) a)) -> In p pending \/ nextId ev <= fst p.
Proof.
  destruct a as [d | c]; simpl.
  - intros Hin. apply filter_In in Hin. tauto.
  - destruct (JsMap.has (nextId ev) (connections ev) && negb (JsMap.has (nextId ev) pending));
      [tauto |].
    generalize (nextId ev) as k. intros k.
    induction pending as [| [k0 c0] r IH]; simpl.
    + intros [<- | []]. right. simpl. lia.
    + destruct (N.eqb k k0) eqn:E.
      * intros [<- | Hin]; [| tauto]. right. simpl. lia.
      * intros [<- | Hin]; [tauto |]. destruct (IH Hin); tauto.
Qed.

Lemma invoke_entries cb : forall pending ev p,
  In p (fst (invoke cb pending ev)) -> In p pending \/ nextId ev <= fst p.
Proof.
  induction cb as [| a cb IH]; intros pending ev p; [simpl; tauto |].
  rewrite invoke_cons. intros Hin. apply IH in Hin.
  pose proof (perform_nextId pending ev a) as Hn.
  destruct Hin as [Hin | Hle]; [| right; destruct a; lia].
  now apply perform_entries in Hin.
Qed.

(** ** The walk *)

Lemma queue_weight_cons id cb pending :
  queue_weight ((id, cb) :: pending)
  = S (list_sum (map weight cb) + queue_weight pending).
Proof. reflexivity. Qed.

Lemma queue_weight_app pending1 pending2 :
  queue_weight (pending1 ++ pending2) = (queue_weight pending1 + queue_weight pending2)%nat.
Proof. unfold queue_weight. now rewrite map_app, list_sum_app. Qed.

Lemma queue_weight_delete id pending :
  (queue_weight (JsMap.delete id pending) <= queue_weight pending)%nat.
Proof.
  unfold JsMap.delete. induction pending as [| [k c] r IH]; [simpl; lia |].
  cbn [filter fst]. destruct (keq id k); cbn [negb].
  - rewrite queue_weight_cons. lia.
  - rewrite !queue_weight_cons. lia.
Qed.

Lemma queue_weight_set id cb pending :
  (queue_weight (JsMap.set id cb pending)
   <= S (list_sum (map weight cb)) + queue_weight pending)%nat.
Proof.
  induction pending as [| [k c] r IH]; cbn [JsMap.set].
  - rewrite queue_weight_cons. change (queue_weight []) with 0%nat. lia.
  - destruct (keq id k).
    + rewrite !queue_weight_cons. lia.
    + rewrite !queue_weight_cons. lia.
Qed.

Lemma perform_weight pending ev a :
  (queue_weight (fst (perform (pending, ev) a)) <= weight a + queue_weight pending)%nat.
Proof.
  destruct a as [d | c]; simpl fst.
  - simpl. apply queue_weight_delete.
  - destruct (JsMap.has (nextId ev) (connections ev) && negb (JsMap.has (nextId ev) pending)).
    + simpl. lia.
    + apply queue_weight_set.
Qed.

Lemma invoke_weight cb : forall pending ev,
  (queue_weight (fst (invoke cb pending ev))
   <= list_sum (map weight cb) + queue_weight pending)%nat.
Proof.
  induction cb as [| a cb IH]; intros pending ev; [simpl; lia |].
  rewrite invoke_cons.
  pose proof (IH (fst (perform (pending, ev) a)) (snd (perform (pending, ev) a))).
  pose proof (perform_weight pending ev a).
  simpl map. simpl list_sum. lia.
Qed.

(** With [queue_weight] calls the walk reaches its end. *)
Lemma forEach_walk fuel : forall pending ev,
  (queue_weight pending <= fuel)%nat ->
  walk pending ev (fst (forEach fuel pending ev)) (snd (forEach fuel pending ev)).
Proof.
  induction fuel as [| fuel IH]; intros pending ev Hw.
  - destruct pending as [| [id cb] rest]; [constructor |].
    rewrite queue_weight_cons in Hw. lia.
  - destruct pending as [| [id cb] rest]; [constructor |].
    simpl. destruct (invoke cb rest ev) as [rest' ev'] eqn:Hi.
    assert (Hw' : (queue_weight rest' <= fuel)%nat).
    { pose proof (invoke_weight cb rest ev) as H. rewrite Hi in H. simpl in H.
      rewrite queue_weight_cons in Hw. lia. }
    specialize (IH rest' ev' Hw').
    destruct (forEach fuel rest' ev') as [ran ev'']. simpl in *.
    econstructor; eassumption.
Qed.

Lemma deliver_walk ev :
  walk (connections ev) ev (fst (deliver ev)) (snd (deliver ev)).
Proof. apply forEach_walk. apply Nat.le_refl. Qed.

(** The walk gives one result only. *)
Lemma walk_unique pending ev ran ev' :
  walk pending ev ran ev' ->
  forall ran2 ev2, walk pending ev ran2 ev2 -> ran2 = ran /\ ev2 = ev'.
Proof.
  induction 1 as [ev | id cb rest ev rest' ev' ran ev'' Hi Hw IH]; intros ran2 ev2 H2.
  - inversion H2; subst. auto.
  - inversion H2 as [| ? ? ? ? rest2 ev2' ran2' ? Hi2 Hw2]; subst.
    rewrite Hi in Hi2. injection Hi2 as <- <-.
    destruct (IH _ _ Hw2) as [-> ->]. auto.
Qed.

(** A callback that runs was left to reach or has been connected since. *)
Lemma walk_entries pending ev ran ev' :
  walk pending ev ran ev' ->
  forall p, In p ran -> In p pending \/ nextId ev <= fst p.
Proof.
  induction 1 as [ev | id cb rest ev rest' ev' ran ev'' Hi Hw IH]; intros p; [tauto |].
  intros [<- | Hin]; [left; now left |].
  pose proof (invoke_nextId_le cb rest ev) as Hle. rewrite Hi in Hle. simpl in Hle.
  destruct (IH p Hin) as [Hr | Hn]; [| right; lia].
  pose proof (invoke_entries cb rest ev p) as He. rewrite Hi in He.
  destruct (He Hr) as [? | ?]; [left; now right | now right].
Qed.

Lemma walk_nextId pending ev ran ev' :
  walk pending ev ran ev' ->
  nextId ev'
  = nextId ev + N.of_nat (List.length (flat_map (fun p => cb_connects (snd p)) ran)).
Proof.
  induction 1 as [ev | id cb rest ev rest' ev' ran ev'' Hi Hw IH]; [simpl; lia |].
  pose proof (invoke_nextId cb rest ev) as Hn. rewrite Hi in Hn. simpl in Hn.
  rewrite IH, Hn. simpl flat_map. rewrite length_app. lia.
Qed.

Lemma walk_nextId_le pending ev ran ev' :
  walk pending ev ran ev' -> nextId ev <= nextId ev'.
Proof. intros Hw. rewrite (walk_nextId _ _ _ _ Hw). lia. Qed.

Lemma walk_wf pending ev ran ev' : walk pending ev ran ev' -> wf ev -> wf ev'.
Proof.
  induction 1 as [ev | id cb rest ev rest' ev' ran ev'' Hi Hw IH]; intros Hwf; [exact Hwf |].
  apply IH. pose proof (invoke_wf cb rest ev Hwf) as H. now rewrite Hi in H.
Qed.

(** The walk takes from the map the connections that the callbacks it runs
    disconnect, of those that had an id when it started. *)
Lemma walk_get pending ev ran ev' :
  walk pending ev ran ev' ->
  forall id, id < nextId ev ->
    JsMap.get id (connections ev')
    = if existsb (fun p => JsSet.has id (cb_disconnects (snd p))) ran
      then None else JsMap.get id (connections ev).
Proof.
  induction 1 as [ev | id cb rest ev rest' ev' ran ev'' Hi Hw IH]; intros k Hlt;
    [reflexivity |].
  pose proof (invoke_nextId_le cb rest ev) as Hle. rewrite Hi in Hle. simpl in Hle.
  pose proof (invoke_get cb rest ev k Hlt) as Hg. rewrite Hi in Hg. simpl in Hg.
  rewrite IH by lia. rewrite Hg. simpl existsb.
  destruct (JsSet.has k (cb_disconnects cb)); simpl; [now destruct (existsb _ ran) | reflexivity].
Qed.

(** No callback runs twice. *)
Lemma walk_NoDup pending ev ran ev' :
  walk pending ev ran ev' -> queue_ok pending ev -> NoDup (JsMap.keys ran).
Proof.
  induction 1 as [ev | id cb rest ev rest' ev' ran ev'' Hi Hw IH]; intros Hq;
    [constructor |].
  destruct Hq as [Hnd Hlt]. simpl in Hnd. inversion Hnd as [| ? ? Hni Hnd']; subst.
  assert (Hq0 : queue_ok rest ev).
  { split; [exact Hnd' |]. intros k Hin. apply Hlt. now right. }
  pose proof (invoke_queue_ok cb rest ev Hq0) as Hq1. rewrite Hi in Hq1. simpl in Hq1.
  simpl. constructor; [| now apply IH].
  intros Hin. apply in_map_iff in Hin. destruct Hin as [[k c] [Hk Hin]]. simpl in Hk. subst k.
  pose proof (invoke_nextId_le cb rest ev) as Hle. rewrite Hi in Hle. simpl in Hle.
  assert (Hid : id < nextId ev) by (apply Hlt; now left).
  destruct (walk_entries _ _ _ _ Hw _ Hin) as [Hr | Hn]; [| simpl in Hn; lia].
  pose proof (invoke_entries cb rest ev (id, c)) as He. rewrite Hi in He.
  destruct (He Hr) as [Hold | Hn]; [| simpl in Hn; lia].
  apply Hni. apply in_map_iff. exists (id, c). auto.
Qed.

(** ** The handlers connected at the call *)

Lemma served_In pending : forall gone id,
  In id (served pending gone) -> In id (JsMap.keys pending) /\ JsSet.has id gone = false.
Proof.
  induction pending as [| [id0 cb] rest IH]; intros gone id; simpl; [tauto |].
  destruct (JsSet.has id0 gone) eqn:Eg.
  - intros Hin. apply IH in Hin. tauto.
  - intros [<- | Hin]; [auto |].
    apply IH in Hin. destruct Hin as [Hk Hg]. rewrite set_has_app in Hg.
    apply orb_false_iff in Hg. tauto.
Qed.

Lemma served_in_order pending : forall gone,
  NoDup (JsMap.keys pending) ->
  served pending gone
  = filter (fun id => JsSet.has id (served pending gone)) (JsMap.keys pending).
Proof.
  induction pending as [| [id0 cb] rest IH]; intros gone Hnd; simpl; [reflexivity |].
  inversion Hnd as [| ? ? Hni Hnd']; subst.
  destruct (JsSet.has id0 gone) eqn:Eg.
  - destruct (JsSet.has id0 (served rest gone)) eqn:Es.
    + apply set_has_In, served_In in Es. tauto.
    + now apply IH.
  - simpl. rewrite N.eqb_refl. simpl. f_equal.
    rewrite (IH (gone ++ cb_disconnects cb) Hnd') at 1.
    apply filter_ext_in. intros id Hin.
    destruct (N.eqb_spec id id0) as [-> | Hne]; [contradiction | reflexivity].
Qed.

(** A handler is served exactly when no handler that is served before it
    disconnects it. *)
Lemma served_iff before : forall id cb after gone,
  NoDup (JsMap.keys (before ++ (id, cb) :: after)) ->
  In id (served (before ++ (id, cb) :: after) gone) <->
  JsSet.has id gone = false /\
  forall id' cb', In (id', cb') before ->
                  In id' (served (before ++ (id, cb) :: after) gone) ->
                  ~ In id (cb_disconnects cb').
Proof.
  induction before as [| [j cj] before IH]; intros id cb after gone Hnd.
  - simpl. destruct (JsSet.has id gone) eqn:Eg.
    + split; [| intros [? _]; discriminate].
      intros Hin. apply served_In in Hin. destruct Hin as [_ Hg]. congruence.
    + split; [| intros _; now left]. intros _. split; [reflexivity | intros ? ? []].
  - simpl in Hnd. inversion Hnd as [| ? ? Hni Hnd']; subst.
    assert (Hne : id <> j).
    { intros ->. apply Hni. unfold JsMap.keys. rewrite map_app. apply in_or_app.
      right. now left. }
    assert (Hfresh : forall cb', ~ In (j, cb') before).
    { intros cb' Hin. apply Hni. unfold JsMap.keys. rewrite map_app. apply in_or_app.
      left. apply in_map_iff. exists (j, cb'). auto. }
    specialize (IH id cb after).
    change (((j, cj) :: before) ++ (id, cb) :: after)
      with ((j, cj) :: (before ++ (id, cb) :: after)).
    set (rest := before ++ (id, cb) :: after) in *.
    cbn [served]. destruct (JsSet.has j gone) eqn:Eg.
    + rewrite (IH gone Hnd'). split; intros [Hg Hall]; (split; [exact Hg |]).
      * intros id' cb' [[= <- <-] | Hin] Hs.
        -- apply served_In in Hs. destruct Hs as [_ Hs]. congruence.
        -- now apply (Hall id' cb').
      * intros id' cb' Hin Hs. apply (Hall id' cb'); [now right | exact Hs].
    + assert (Hhead : In id (j :: served rest (gone ++ cb_disconnects cj))
                     <-> In id (served rest (gone ++ cb_disconnects cj))).
      { simpl. split; [intros [? | ?]; [congruence | assumption] | auto]. }
      rewrite Hhead, (IH (gone ++ cb_disconnects cj) Hnd'), set_has_app, orb_false_iff.
      split.
      * intros [[Hg Hd] Hall]. split; [exact Hg |].
        intros id' cb' [[= <- <-] | Hin] Hs.
        -- now apply set_has_false.
        -- apply (Hall id' cb' Hin). destruct Hs as [<- | Hs]; [| exact Hs].
           exfalso. now apply (Hfresh cb').
      * intros [Hg Hall]. split; [split; [exact Hg |] |].
        -- apply set_has_false. apply (Hall j cj); now left.
        -- intros id' cb' Hin Hs. apply (Hall id' cb'); [now right | now right].
Qed.

(** The walk serves the handlers that were connected at the call as
    [served] says, and after them handlers that were connected since. *)
Lemma walk_served static : forall gone new ev ran ev' n0,
  n0 <= nextId ev ->
  NoDup (JsMap.keys static) ->
  (forall id, In id (JsMap.keys static) -> id < n0) ->
  NoDup (JsMap.keys new) ->
  (forall id, In id (JsMap.keys new) -> n0 <= id < nextId ev) ->
  walk (filter (fun p => negb (JsSet.has (fst p) gone)) static ++ new) ev ran ev' ->
  exists news,
    JsMap.keys ran = served static gone ++ news /\
    forall id, In id news -> n0 <= id.
Proof.
  induction static as [| [id cb] static IH];
    intros gone new ev ran ev' n0 Hn0 Hnds Hold Hndn Hnew Hw.
  - simpl in Hw. exists (JsMap.keys ran). split; [reflexivity |].
    intros id Hin. apply in_map_iff in Hin. destruct Hin as [p [<- Hin]].
    destruct (walk_entries _ _ _ _ Hw p Hin) as [Hp | Hle]; [| lia].
    apply (Hnew (fst p)). now apply in_map.
  - inversion Hnds as [| ? ? Hni Hnds']; subst.
    assert (Hold' : forall k, In k (JsMap.keys static) -> k < n0).
    { intros k Hin. apply Hold. now right. }
    cbn [filter fst served] in *. destruct (JsSet.has id gone) eqn:Eg; cbn [negb] in Hw.
    + exact (IH gone new ev ran ev' n0 Hn0 Hnds' Hold' Hndn Hnew Hw).
    + simpl in Hw.
      inversion Hw as [| ? ? ? ? rest' ev1 ran' ? Hi Hw']; subst.
      set (rest := filter (fun p => negb (JsSet.has (fst p) gone)) static ++ new) in *.
      assert (Hq : queue_ok rest ev).
      { split.
        - subst rest. unfold JsMap.keys. rewrite map_app. apply NoDup_app.
          + now apply map_keys_filter_NoDup.
          + exact Hndn.
          + intros k Hk Hk'. apply map_keys_filter_In, Hold' in Hk.
            apply Hnew in Hk'. lia.
        - intros k Hk. subst rest. unfold JsMap.keys in Hk. rewrite map_app in Hk.
          apply in_app_or in Hk. destruct Hk as [Hk | Hk].
          + apply map_keys_filter_In, Hold' in Hk. lia.
          + apply Hnew in Hk. lia. }
      pose proof (invoke_queue_ok cb rest ev Hq) as Hq1.
      pose proof (invoke_nextId_le cb rest ev) as Hle.
      destruct (invoke_pending cb rest ev Hq) as (new1 & Hrest & Hnew1).
      rewrite Hi in Hq1, Hle, Hrest. simpl in Hq1, Hle, Hrest.
      assert (Hshape : rest'
                = filter (fun p => negb (JsSet.has (fst p) (gone ++ cb_disconnects cb))) static
                  ++ (filter (fun p => negb (JsSet.has (fst p) (cb_disconnects cb))) new
                      ++ new1)).
      { rewrite Hrest. subst rest. rewrite filter_app, <- app_assoc. f_equal.
        rewrite filter_filter_and. apply filter_ext. intros p.
        now rewrite set_has_app, negb_orb. }
      rewrite Hshape in Hw', Hq1. destruct Hq1 as [Hnd1 Hlt1].
      unfold JsMap.keys in Hnd1. rewrite map_app in Hnd1.
      destruct (IH (gone ++ cb_disconnects cb)
                  (filter (fun p => negb (JsSet.has (fst p) (cb_disconnects cb))) new ++ new1)
                  ev1 ran' ev' n0) as (news & Hkeys & Hnews);
        try assumption.
      * lia.
      * exact (NoDup_app_remove_l _ _ Hnd1).
      * intros k Hk. split.
        -- unfold JsMap.keys in Hk. rewrite map_app in Hk.
           apply in_app_or in Hk. destruct Hk as [Hk | Hk].
           ++ apply map_keys_filter_In, Hnew in Hk. lia.
           ++ apply in_map_iff in Hk. destruct Hk as [p [<- Hp]].
              apply Hnew1 in Hp. lia.
        -- apply Hlt1. unfold JsMap.keys. rewrite map_app. apply in_or_app. now right.
      * exists news. split; [| exact Hnews]. simpl. now rewrite Hkeys.
Qed.

(** ** [fire] *)

Lemma fire_delivered ev : fst (fire ev) = JsMap.keys (fst (deliver ev)).
Proof. reflexivity. Qed.

Lemma wf_queue_ok ev : wf ev -> queue_ok (connections ev) ev.
Proof. intros Hwf. exact Hwf. Qed.

(** A handler that [fire] calls was connected at the call or has got its id
    since. *)
Lemma fire_calls ev id :
  In id (fst (fire ev)) -> In id (JsMap.keys (connections ev)) \/ nextId ev <= id.
Proof.
  intros Hin. apply in_map_iff in Hin. destruct Hin as [p [<- Hin]].
  destruct (walk_entries _ _ _ _ (deliver_walk ev) p Hin) as [Hp | Hle]; [| now right].
  left. now apply in_map.
Qed.

Lemma fire_nextId_le ev : nextId ev <= nextId (snd (fire ev)).
Proof. exact (walk_nextId_le _ _ _ _ (deliver_walk ev)). Qed.

Lemma fire_wf ev : wf ev -> wf (snd (fire ev)).
Proof. exact (walk_wf _ _ _ _ (deliver_walk ev)). Qed.

Lemma fire_NoDup ev : wf ev -> NoDup (fst (fire ev)).
Proof. intros Hwf. exact (walk_NoDup _ _ _ _ (deliver_walk ev) Hwf). Qed.

Lemma fire_served ev :
  wf ev ->
  exists news,
    fst (fire ev) = served (connections ev) [] ++ news /\
    forall id, In id news -> nextId ev <= id.
Proof.
  intros [Hnd Hlt].
  apply (walk_served (connections ev) [] [] ev (fst (deliver ev)) (snd (deliver ev)));
    try assumption.
  - lia.
  - constructor.
  - intros id [].
  - rewrite app_nil_r, filter_all by reflexivity. apply deliver_walk.
Qed.

(** Of the handlers connected at the call, [fire] calls the ones that
    [served] lists. *)
Lemma fire_served_In ev id :
  wf ev -> In id (JsMap.keys (connections ev)) ->
  In id (fst (fire ev)) <-> In id (served (connections ev) []).
Proof.
  intros Hwf Hin. destruct (fire_served ev Hwf) as (news & -> & Hnews).
  rewrite in_app_iff. split; [| tauto].
  intros [? | Hn]; [assumption |]. apply Hnews in Hn. apply (proj2 Hwf) in Hin. lia.
Qed.

(** A handler connected at the call is called exactly when no handler that
    was connected before it and is called disconnects it. *)
Lemma fire_called_iff ev before id cb after :
  wf ev -> connections ev = before ++ (id, cb) :: after ->
  In id (fst (fire ev)) <->
  forall id' cb', In (id', cb') before -> In id' (fst (fire ev)) ->
                  ~ In id (cb_disconnects cb').
Proof.
  intros Hwf Hconn.
  assert (Hkeys : forall p, In p (connections ev) -> In (fst p) (JsMap.keys (connections ev))).
  { intros p Hp. now apply in_map. }
  rewrite fire_served_In; [| exact Hwf |].
  2:{ apply (Hkeys (id, cb)). rewrite Hconn. apply in_or_app. right. now left. }
  pose proof (proj1 Hwf) as Hnd. rewrite Hconn in Hnd.
  rewrite Hconn at 1. rewrite (served_iff before id cb after [] Hnd), <- Hconn.
  split.
  - intros [_ Hall] id' cb' Hin Hc. apply (Hall id' cb' Hin).
    apply fire_served_In; [exact Hwf | | exact Hc].
    apply (Hkeys (id', cb')). rewrite Hconn. apply in_or_app. now left.
  - intros Hall. split; [reflexivity |]. intros id' cb' Hin Hs.
    apply (Hall id' cb' Hin). apply fire_served_In; [exact Hwf | | exact Hs].
    apply (Hkeys (id', cb')). rewrite Hconn. apply in_or_app. now left.
Qed.

(** The calls of [fire] in their order: the handlers connected at the call,
    in the order of their connection, and then handlers connected since. *)
Lemma fire_in_order ev :
  wf ev ->
  fst (fire ev)
  = filter (fun id => JsSet.has id (fst (fire ev))) (JsMap.keys (connections ev))
    ++ filter (fun id => nextId ev <=? id) (fst (fire ev)).
Proof.
  intros Hwf. destruct (fire_served ev Hwf) as (news & Heq & Hnews).
  pose proof (served_in_order (connections ev) [] (proj1 Hwf)) as Hord.
  rewrite Heq at 1. f_equal.
  - rewrite Hord at 1. apply filter_ext_in. intros id Hin.
    rewrite Heq, set_has_app.
    assert (Hn : JsSet.has id news = false).
    { apply set_has_false. intros Hn. apply Hnews in Hn. apply (proj2 Hwf) in Hin. lia. }
    now rewrite Hn, orb_false_r.
  - rewrite Heq, filter_app, filter_none, filter_all; [reflexivity | |].
    + intros id Hin. apply N.leb_le. now apply Hnews.
    + intros id Hin. apply served_In in Hin. destruct Hin as [Hin _].
      apply (proj2 Hwf) in Hin. apply N.leb_gt. exact Hin.
Qed.

(** What [fire] leaves of a connection that had its id at the call. *)
Lemma fire_get ev id :
  id < nextId ev ->
  JsMap.get id (connections (snd (fire ev)))
  = if existsb (fun p => JsSet.has id (cb_disconnects (snd p))) (fst (deliver ev))
    then None else JsMap.get id (connections ev).
Proof. exact (walk_get _ _ _ _ (deliver_walk ev) id). Qed.

Lemma fire_nextId ev :
  nextId (snd (fire ev))
  = nextId ev
    + N.of_nat (List.length (flat_map (fun p => cb_connects (snd p)) (fst (deliver ev)))).
Proof. exact (walk_nextId _ _ _ _ (deliver_walk ev)). Qed.

(** The handlers that ran are the handlers that [fire] called, each with the
    callback it was connected with if it was connected at the call. *)
Lemma deliver_entries ev p :
  In p (fst (deliver ev)) -> In p (connections ev) \/ nextId ev <= fst p.
Proof. exact (walk_entries _ _ _ _ (deliver_walk ev) p). Qed.

Lemma deliver_connected ev id cb :
  wf ev -> In (id, cb) (connections ev) -> In id (fst (fire ev)) ->
  In (id, cb) (fst (deliver ev)).
Proof.
  intros Hwf Hin Hc. apply in_map_iff in Hc. destruct Hc as [[k c] [Hk Hp]].
  simpl in Hk. subst k.
  destruct (deliver_entries ev _ Hp) as [Hold | Hle].
  - pose proof (map_NoDup_get _ _ _ (proj1 Hwf) Hold) as H1.
    pose proof (map_NoDup_get _ _ _ (proj1 Hwf) Hin) as H2.
    rewrite H1 in H2. injection H2 as ->. exact Hp.
  - simpl in Hle. apply (in_map fst), (proj2 Hwf) in Hin. simpl in Hin. lia.
Qed.

End EventFacts.

(** C5, as stated, fails: a handler connected when [fire] is called but
    disconnected by an earlier handler of the same delivery is never invoked.
    Handler 0 disconnects handler 1; both are connected at the call, and only
    handler 0 runs. *)
Lemma fire_skips_handler_disconnected_midfire :
  let h0 := [Event.ADisconnect 1] in
  let h1 := [] in
  let ev := snd (Event.connect h1 (snd (Event.connect h0 Event.create))) in
  JsMap.keys (Event.connections ev) = [0; 1] /\
  fst (Event.fire ev) = [0] /\
  ~ In 1 (fst (Event.fire ev)).
Proof.
  vm_compute. repeat split. intros [H | []]. discriminate H.
Qed.

(** C5, amended: [fire] invokes no handler twice; it invokes handlers that
    were connected at the call, in the order of their connection, and after
    them only handlers that were connected during the delivery; and a
    handler connected at the call is invoked exactly when no handler that
    was connected before it and is invoked in this delivery disconnects it:
    one that an earlier handler disconnects before its turn is passed over,
    while a handler that disconnects itself, or one that has had its turn,
    takes nothing from the others. *)
Theorem fire_serves_connected_handlers (ev : Event.t) :
  Event.wf ev ->
  let calls := fst (Event.fire ev) in
  NoDup calls /\
  calls = filter (fun id => JsSet.has id calls) (JsMap.keys (Event.connections ev))
          ++ filter (fun id => Event.nextId ev <=? id) calls /\
  (forall before id cb after,
     Event.connections ev = before ++ (id, cb) :: after ->
     (In id calls <->
      forall id' cb', In (id', cb') before -> In id' calls ->
                      ~ In id (Event.cb_disconnects cb'))).
Proof.
  intros Hwf calls. subst calls.
  split; [now apply fire_NoDup |]. split; [now apply fire_in_order |].
  intros before id cb after Hconn. now apply (fire_called_iff ev before id cb after).
Qed.

Lemma fire_serves_connected_handlers_witness :
  let h0 := [Event.ADisconnect 1; Event.AConnect []] in
  let h1 := [] in
  let h2 := [Event.ADisconnect 2] in
  let ev := snd (Event.connect h2 (snd (Event.connect h1
                   (snd (Event.connect h0 Event.create))))) in
  Event.wf ev /\
  fst (Event.fire ev) = [0; 2; 3] /\
  In 2 (fst (Event.fire ev)) /\
  ~ In 1 (fst (Event.fire ev)).
Proof.
  intros h0 h1 h2 ev.
  assert (Hwf : Event.wf ev) by (apply connect_wf, connect_wf, connect_wf, create_wf).
  split; [exact Hwf |]. split; [reflexivity |].
  destruct (fire_serves_connected_handlers ev Hwf) as (_ & _ & Hiff).
  assert (H0 : In 0 (fst (Event.fire ev))).
  { apply (Hiff [] 0 h0 [(1, h1); (2, h2)] eq_refl). intros id' cb' []. }
  split.
  - apply (Hiff [(0, h0); (1, h1)] 2 h2 [] eq_refl).
    intros id' cb' [[= <- <-] | [[= <- <-] | []]] _.
    + intros [H | []]. discriminate H.
    + intros [].
  - intros H1. apply (proj1 (Hiff [(0, h0)] 1 h1 [(2, h2)] eq_refl) H1 0 h0).
    + now left.
    + exact H0.
    + now left.
Defined.

(** * Archetype signatures *)

Lemma sort_inner_perm : forall rest x,
  Permutation (x :: rest) (fst (sort_inner x rest) :: snd (sort_inner x rest)).
Proof.
  induction rest as [| y r IH]; intros x; simpl; [reflexivity |].
  destruct (y <? x).
  - specialize (IH y). destruct (sort_inner y r) as [m r']; simpl in *.
    etransitivity; [apply perm_skip, IH | apply perm_swap].
  - specialize (IH x). destruct (sort_inner x r) as [m r']; simpl in *.
    etransitivity; [apply perm_swap |].
    etransitivity; [apply perm_skip, IH | apply perm_swap].
Qed.

Lemma sort_outer_perm : forall fuel a, Permutation a (sort_outer fuel a).
Proof.
  induction fuel as [| f IH]; intros a; simpl; [reflexivity |].
  destruct a as [| x rest]; [reflexivity |].
  pose proof (sort_inner_perm rest x) as H.
  destruct (sort_inner x rest) as [m rest']; simpl in *.
  rewrite H. constructor. apply IH.
Qed.

Lemma manual_sort_perm a : Permutation a (manual_sort a).
Proof. apply sort_outer_perm. Qed.

Lemma digits_no_bar d : contains "|" (NilEmpty.string_of_uint d) = false.
Proof. induction d; simpl; auto. Qed.

Lemma tostring_no_bar n : contains "|" (tostring n) = false.
Proof.
  unfold tostring, NilZero.string_of_uint.
  destruct (N.to_uint n) eqn:E; try reflexivity; rewrite <- E; apply digits_no_bar.
Qed.

Lemma tonumber_tostring n : tonumber_or_0 (tostring n) = n.
Proof.
  unfold tonumber_or_0, tostring. rewrite NilZero.usu.
  - apply DecimalN.Unsigned.of_to.
  - destruct n; simpl; [discriminate | apply DecimalPos.Unsigned.to_uint_nonnil].
Qed.

Lemma split_no_sep sep s : contains sep s = false -> split sep s = [s].
Proof.
  induction s as [| c r IH]; simpl; [reflexivity |].
  intros H. apply orb_false_iff in H. destruct H as [Hc Hr].
  rewrite Hc, (IH Hr). reflexivity.
Qed.

Lemma split_app_sep sep s rest :
  contains sep s = false ->
  split sep (s ++ String sep rest) = s :: split sep rest.
Proof.
  induction s as [| c r IH]; simpl.
  - intros _. now rewrite Ascii.eqb_refl.
  - intros H. apply orb_false_iff in H. destruct H as [Hc Hr].
    rewrite Hc, (IH Hr). reflexivity.
Qed.

Lemma split_concat (ss : list string) :
  ss <> [] -> Forall (fun s => contains "|" s = false) ss ->
  split "|" (String.concat "|" ss) = ss.
Proof.
  induction ss as [| s ss IH]; [congruence |].
  intros _ Hall. inversion Hall as [| ? ? Hs Hss]; subst.
  destruct ss as [| s' ss'].
  - simpl. now apply split_no_sep.
  - change (String.concat "|" (s :: s' :: ss'))
      with (s ++ String "|" (String.concat "|" (s' :: ss')))%string.
    rewrite split_app_sep by assumption. f_equal. apply IH; [discriminate | assumption].
Qed.

(** Parsing a generated signature gives back the sorted ids, zero apart. *)
Lemma parse_generate ids :
  parseArchetype (generateArchetypeSignature ids) = filter (fun id => 0 <? id) (manual_sort ids).
Proof.
  unfold parseArchetype, generateArchetypeSignature.
  destruct (manual_sort ids) as [| x l] eqn:E; [reflexivity |].
  rewrite split_concat.
  - rewrite map_map. f_equal. rewrite <- (map_id (x :: l)) at 2.
    apply map_ext. apply tonumber_tostring.
  - discriminate.
  - apply Forall_forall. intros s Hin. apply in_map_iff in Hin.
    destruct Hin as [n [<- _]]. apply tostring_no_bar.
Qed.

Lemma includes_In c l : includes c l = true <-> In c l.
Proof.
  unfold includes. rewrite existsb_exists. split.
  - intros [x [Hin Hx]]. apply N.eqb_eq in Hx. now subst.
  - intros Hin. exists c. split; [assumption | apply N.eqb_refl].
Qed.

Lemma includes_parse c ids :
  0 < c -> includes c (parseArchetype (generateArchetypeSignature ids)) = includes c ids.
Proof.
  intros Hc. rewrite parse_generate.
  apply eq_true_iff_eq. rewrite !includes_In, filter_In.
  split.
  - intros [Hin _]. eapply Permutation_in; [symmetry; apply manual_sort_perm | exact Hin].
  - intros Hin. split; [eapply Permutation_in; [apply manual_sort_perm | exact Hin] |].
    now apply N.ltb_lt.
Qed.

Lemma In_fold_add (ks : list Id) : forall acc c,
  In c (fold_left (fun s k => JsSet.add k s) ks acc) <-> In c acc \/ In c ks.
Proof.
  induction ks as [| k ks IH]; intros acc c; simpl; [tauto |].
  rewrite IH, set_In_add. intuition.
Qed.

Lemma generate_nonempty ids : ids <> [] -> generateArchetypeSignature ids <> EmptyString.
Proof.
  intros Hne. unfold generateArchetypeSignature.
  pose proof (manual_sort_perm ids) as Hp.
  destruct (manual_sort ids) as [| x l]; [apply Permutation_sym, Permutation_nil in Hp; congruence |].
  assert (Hx : tostring x <> EmptyString).
  { unfold tostring, NilZero.string_of_uint. destruct (N.to_uint x); discriminate. }
  simpl. destruct l; [assumption |].
  destruct (tostring x); [congruence | discriminate].
Qed.

(** * Buckets of an archetype index *)


Lemma bucketsIn_set_same e m a b b' :
  JsMap.get a m = Some b -> JsSet.has e b' = JsSet.has e b ->
  bucketsIn e (JsMap.set a b' m) = bucketsIn e m.
Proof.
  unfold bucketsIn. induction m as [| [k b0] r IH]; simpl; [discriminate |].
  destruct (String.eqb_spec a k) as [-> | Hn]; simpl.
  - intros [= ->] Hb. rewrite Hb. now destruct (JsSet.has e b).
  - intros Hg Hb. destruct (JsSet.has e b0); simpl; now rewrite IH.
Qed.

Lemma bucketsIn_set_new e m a b' :
  JsMap.get a m = None -> JsSet.has e b' = false ->
  bucketsIn e (JsMap.set a b' m) = bucketsIn e m.
Proof.
  unfold bucketsIn. induction m as [| [k b0] r IH]; simpl.
  - intros _ ->. reflexivity.
  - destruct (String.eqb_spec a k) as [-> | Hn]; simpl; [discriminate |].
    intros Hg Hb. destruct (JsSet.has e b0); simpl; now rewrite IH.
Qed.

Lemma bucketsIn_delete e m a b :
  NoDup (JsMap.keys m) -> JsMap.get a m = Some b -> JsSet.has e b = false ->
  bucketsIn e (JsMap.delete a m) = bucketsIn e m.
Proof.
  unfold bucketsIn. induction m as [| [k b0] r IH]; simpl; [discriminate |].
  intros Hnd. inversion Hnd as [| ? ? Hni Hnd']; subst.
  destruct (String.eqb_spec a k) as [-> | Hn]; simpl.
  - intros [= ->] Hb. rewrite Hb.
    fold (JsMap.delete k r). rewrite map_delete_absent; [reflexivity |].
    now apply map_has_false_keys.
  - intros Hg Hb. fold (JsMap.delete a r).
    destruct (JsSet.has e b0); simpl; now rewrite IH.
Qed.

Lemma bucketsIn_keys e m a : In a (bucketsIn e m) -> In a (JsMap.keys m).
Proof.
  unfold bucketsIn, JsMap.keys. rewrite !in_map_iff.
  intros [p [Hp Hin]]. apply filter_In in Hin. exists p. tauto.
Qed.

(** The one bucket that holds the entity is the one [get] finds. *)
Lemma bucketsIn_single e m a :
  NoDup (JsMap.keys m) -> bucketsIn e m = [a] ->
  exists b, JsMap.get a m = Some b /\ JsSet.has e b = true.
Proof.
  unfold bucketsIn. induction m as [| [k b0] r IH]; simpl; [discriminate |].
  intros Hnd. inversion Hnd as [| ? ? Hni Hnd']; subst.
  destruct (JsSet.has e b0) eqn:Hb; simpl.
  - intros [= -> _]. rewrite String.eqb_refl. eauto.
  - intros Hr. destruct (String.eqb_spec a k) as [-> | Hn]; [| now apply IH].
    exfalso. apply Hni. apply (bucketsIn_keys e). unfold bucketsIn. rewrite Hr. now left.
Qed.

Lemma bucketsIn_leave e m a b :
  NoDup (JsMap.keys m) -> bucketsIn e m = [a] -> JsMap.get a m = Some b ->
  bucketsIn e (JsMap.set a (JsSet.delete e b) m) = [].
Proof.
  unfold bucketsIn. induction m as [| [k b0] r IH]; simpl; [discriminate |].
  intros Hnd. inversion Hnd as [| ? ? Hni Hnd']; subst.
  destruct (String.eqb_spec a k) as [-> | Hn]; simpl.
  - intros Hone [= ->]. rewrite set_has_delete. simpl. rewrite N.eqb_refl. simpl.
    destruct (JsSet.has e b); simpl in Hone.
    + now injection Hone.
    + exfalso. apply Hni. apply (bucketsIn_keys e). unfold bucketsIn.
      rewrite Hone. now left.
  - destruct (JsSet.has e b0); simpl.
    + intros [= Hk _]. congruence.
    + intros Hone Hg. now apply IH.
Qed.

Lemma bucketsIn_join e m a b :
  bucketsIn e m = [] -> JsMap.get a m = Some b ->
  bucketsIn e (JsMap.set a (JsSet.add e b) m) = [a].
Proof.
  unfold bucketsIn. induction m as [| [k b0] r IH]; simpl; [discriminate |].
  destruct (JsSet.has e b0) eqn:Hb; simpl; [discriminate |].
  intros Hnone. destruct (String.eqb_spec a k) as [-> | Hn]; simpl.
  - intros [= ->]. rewrite set_has_add. simpl. rewrite N.eqb_refl. simpl.
    now rewrite Hnone.
  - intros Hg. rewrite Hb. now apply IH.
Qed.


(** * The world store *)

Ltac break_match :=
  match goal with
  | |- context [match ?x with _ => _ end] =>
      lazymatch x with
      | context [match _ with _ => _ end] => fail
      | _ => destruct x eqn:?
      end
  end.

Section WorldFacts.
Variable Value : Type.
Variable deepClone : Value -> Value.
Implicit Types w : World Value.
Implicit Types s : Snapshot Value.

(** ** What the archetype bookkeeping leaves alone *)

Lemma same_store_refl w : same_store w w.
Proof. repeat split. Qed.

Lemma same_store_trans w1 w2 w3 :
  same_store w1 w2 -> same_store w2 w3 -> same_store w1 w3.
Proof. unfold same_store. intuition congruence. Qed.

Lemma same_store_fire ev w : same_store w (fire ev w).
Proof. repeat split. Qed.

Lemma same_store_fire_all evs : forall w, same_store w (fire_all evs w).
Proof.
  induction evs as [| ev evs IH]; intros w; simpl; [apply same_store_refl |].
  eapply same_store_trans; [apply (same_store_fire ev) | apply IH].
Qed.

Lemma same_store_leaveArchetype a e w : same_store w (leaveArchetype a e w).
Proof. unfold leaveArchetype. repeat break_match; repeat split. Qed.

Lemma same_store_joinArchetype a e w : same_store w (joinArchetype a e w).
Proof. unfold joinArchetype. repeat break_match; repeat split. Qed.

Lemma same_store_updateEntityArchetype e w : same_store w (updateEntityArchetype e w).
Proof.
  unfold updateEntityArchetype.
  repeat break_match;
    try apply same_store_refl;
    repeat first
      [ apply same_store_leaveArchetype
      | apply same_store_joinArchetype
      | eapply same_store_trans; [apply same_store_leaveArchetype |]
      | match goal with
        | |- same_store ?w (with_entityToArchetype ?x ?w') =>
            apply (same_store_trans w w' _); [| repeat split]
        end ].
Qed.

Lemma valid_same_store w w' e : same_store w w' -> valid e w' = valid e w.
Proof. intros (_ & He & _). unfold valid. now rewrite He. Qed.

Lemma own_get_same_store w w' e c : same_store w w' -> own_get e c w' = own_get e c w.
Proof. intros (_ & _ & Hc & _). unfold own_get. now rewrite Hc. Qed.

Lemma own_has_same_store w w' e c : same_store w w' -> own_has e c w' = own_has e c w.
Proof. intros (_ & _ & Hc & _). unfold own_has. now rewrite Hc. Qed.

Lemma own_has_get e c w :
  own_has e c w = match own_get e c w with Some _ => true | None => false end.
Proof. unfold own_has, own_get. now destruct (JsMap.get e (components w)). Qed.

(** ** remove *)

Lemma remove_result e c w : fst (remove e c w) = valid e w && own_has e c w.
Proof.
  unfold remove, own_has. destruct (valid e w); simpl; [| reflexivity].
  destruct (JsMap.get e (components w)) as [comps |]; [| reflexivity].
  now destruct (JsMap.has c comps).
Qed.

Lemma remove_false e c w : fst (remove e c w) = false -> snd (remove e c w) = w.
Proof.
  unfold remove. destruct (valid e w); simpl; [| reflexivity].
  destruct (JsMap.get e (components w)) as [comps |]; [| reflexivity].
  now destruct (JsMap.has c comps).
Qed.

Lemma remove_components e c w :
  fst (remove e c w) = true ->
  exists comps,
    JsMap.get e (components w) = Some comps /\
    components (snd (remove e c w))
    = JsMap.set e (JsMap.delete c comps) (components w).
Proof.
  unfold remove. destruct (valid e w); simpl; [| discriminate].
  destruct (JsMap.get e (components w)) as [comps |]; [| discriminate].
  destruct (JsMap.has c comps); [| discriminate].
  intros _. exists comps. split; [reflexivity |]. simpl.
  destruct (same_store_updateEntityArchetype e
              (with_components (JsMap.set e (JsMap.delete c comps) (components w)) w))
    as (_ & _ & Hc & _).
  rewrite Hc. reflexivity.
Qed.

Lemma remove_groups_frame e c w :
  heap (snd (remove e c w)) = heap w /\
  entityToGroups (snd (remove e c w)) = entityToGroups w /\
  groups (snd (remove e c w)) = groups w /\
  entities (snd (remove e c w)) = entities w /\
  nextEntityId (snd (remove e c w)) = nextEntityId w.
Proof.
  unfold remove. destruct (valid e w); simpl; [| repeat split].
  destruct (JsMap.get e (components w)) as [comps |]; [| repeat split].
  destruct (JsMap.has c comps); [| repeat split]. simpl.
  destruct (same_store_updateEntityArchetype e
              (with_components (JsMap.set e (JsMap.delete c comps) (components w)) w))
    as (Hn & He & _ & Hg & Hm & Hh & _).
  simpl in *. repeat split; assumption.
Qed.

(** C7: [remove(e, c)] returns true exactly when [e] is live and [c] is in
    its own table, in which case it deletes that entry and no other; when it
    returns false the whole state is as before; in every case group objects
    (their tables and members) and the reverse index are untouched, so a
    component that [has] reports through a group stays in the group. *)
Theorem remove_acts_on_own_table_only (e : EntityId) (c : Id) w :
  let r := remove e c w in
  fst r = valid e w && own_has e c w /\
  (fst r = false -> snd r = w) /\
  (fst r = true ->
     own_get e c (snd r) = None /\
     forall e' c', e' <> e \/ c' <> c -> own_get e' c' (snd r) = own_get e' c' w) /\
  heap (snd r) = heap w /\
  entityToGroups (snd r) = entityToGroups w /\
  (forall g c', group_get g c' (snd r) = group_get g c' w) /\
  (valid e w = false -> fst r = false).
Proof.
  intros r. subst r.
  destruct (remove_groups_frame e c w) as (Hh & Hm & _).
  split; [apply remove_result |].
  split; [apply remove_false |].
  split; [| split; [exact Hh | split; [exact Hm | split]]].
  - intros Ht. destruct (remove_components e c w Ht) as (comps & Hget & Hc).
    unfold own_get. rewrite Hc. split.
    + rewrite map_get_set_eq. apply map_get_delete_eq.
    + intros e' c' Hne. destruct (N.eq_dec e' e) as [-> | Hn].
      * rewrite map_get_set_eq, Hget. destruct Hne as [Hne | Hne]; [congruence |].
        now apply map_get_delete_neq.
      * now rewrite map_get_set_neq.
  - intros g c'. unfold group_get. now rewrite Hh.
  - intros Hv. rewrite remove_result, Hv. reflexivity.
Qed.


(** ** Group membership calls *)

Lemma same_entities_refl w : same_entities w w.
Proof. repeat split. Qed.

Lemma same_entities_trans w1 w2 w3 :
  same_entities w1 w2 -> same_entities w2 w3 -> same_entities w1 w3.
Proof. unfold same_entities. intuition congruence. Qed.

Lemma group_removeEntity_same_entities g e w :
  same_entities w (group_removeEntity g e w).
Proof.
  unfold group_removeEntity, onGroupEntityRemoved.
  repeat break_match; repeat split.
Qed.

Lemma group_addEntity_same_entities g e w :
  same_entities w (group_addEntity g e w).
Proof.
  unfold group_addEntity, onGroupEntityAdded.
  repeat break_match; repeat split.
Qed.

Lemma heap_onGroupEntityRemoved g e w : heap (onGroupEntityRemoved g e w) = heap w.
Proof. unfold onGroupEntityRemoved. repeat break_match; reflexivity. Qed.

Lemma heap_onGroupEntityAdded g e w : heap (onGroupEntityAdded g e w) = heap w.
Proof. unfold onGroupEntityAdded. repeat break_match; reflexivity. Qed.

Lemma group_removeEntity_hasEntity g e w g' e' :
  group_hasEntity g' e' (group_removeEntity g e w)
  = group_hasEntity g' e' w && negb (N.eqb g' g && N.eqb e' e).
Proof.
  unfold group_removeEntity, group_hasEntity.
  destruct (JsMap.get g (heap w)) as [G |] eqn:HG.
  - destruct (JsSet.has e (g_entities G)) eqn:Hm.
    + rewrite heap_onGroupEntityRemoved. simpl.
      rewrite map_get_set. simpl.
      destruct (N.eqb_spec g' g) as [-> | Hn]; simpl.
      * rewrite HG. rewrite set_has_delete. simpl.
        destruct (N.eqb e' e); simpl; [now rewrite andb_false_r | now rewrite andb_true_r].
      * now rewrite andb_true_r.
    + destruct (N.eqb_spec g' g) as [-> | Hn]; simpl; [| now rewrite andb_true_r].
      rewrite HG. destruct (N.eqb_spec e' e) as [-> | Hn]; simpl.
      * now rewrite Hm.
      * now rewrite andb_true_r.
  - destruct (N.eqb_spec g' g) as [-> | Hn]; simpl; [| now rewrite andb_true_r].
    now rewrite HG.
Qed.

Lemma group_removeEntity_tables g e w g' :
  option_map (@g_components Value) (JsMap.get g' (heap (group_removeEntity g e w)))
  = option_map (@g_components Value) (JsMap.get g' (heap w)).
Proof.
  unfold group_removeEntity.
  destruct (JsMap.get g (heap w)) as [G |] eqn:HG; [| reflexivity].
  destruct (JsSet.has e (g_entities G)); [| reflexivity].
  rewrite heap_onGroupEntityRemoved. simpl. rewrite map_get_set. simpl.
  destruct (N.eqb_spec g' g) as [-> | Hn]; [| reflexivity].
  now rewrite HG.
Qed.

Lemma group_addEntity_tables g e w g' :
  option_map (@g_components Value) (JsMap.get g' (heap (group_addEntity g e w)))
  = option_map (@g_components Value) (JsMap.get g' (heap w)).
Proof.
  unfold group_addEntity.
  destruct (JsMap.get g (heap w)) as [G |] eqn:HG; [| reflexivity].
  destruct (JsSet.has e (g_entities G)); [reflexivity |]. cbn [negb].
  rewrite heap_onGroupEntityAdded. simpl. rewrite map_get_set. simpl.
  destruct (N.eqb_spec g' g) as [-> | Hn]; [| reflexivity].
  now rewrite HG.
Qed.

Lemma group_get_tables w w' :
  (forall g, option_map (@g_components Value) (JsMap.get g (heap w'))
             = option_map (@g_components Value) (JsMap.get g (heap w))) ->
  forall g c, group_get g c w' = group_get g c w /\ group_has g c w' = group_has g c w.
Proof.
  intros H g c. specialize (H g). unfold group_get, group_has.
  destruct (JsMap.get g (heap w')), (JsMap.get g (heap w)); simpl in H;
    try discriminate; [injection H as -> |]; auto.
Qed.

Lemma group_removeEntity_others g e w e' :
  e' <> e ->
  JsMap.get e' (entityToGroups (group_removeEntity g e w))
  = JsMap.get e' (entityToGroups w).
Proof.
  intros Hn. unfold group_removeEntity, onGroupEntityRemoved.
  repeat break_match; simpl in *;
    repeat first [rewrite map_get_delete_neq by assumption
                 | rewrite map_get_set_neq by assumption];
    reflexivity.
Qed.

Lemma group_addEntity_others g e w e' :
  e' <> e ->
  JsMap.get e' (entityToGroups (group_addEntity g e w))
  = JsMap.get e' (entityToGroups w).
Proof.
  intros Hn. unfold group_addEntity, onGroupEntityAdded.
  repeat break_match; simpl in *;
    repeat first [rewrite map_get_delete_neq by assumption
                 | rewrite map_get_set_neq by assumption];
    reflexivity.
Qed.

Lemma group_removeEntity_groupsFor g e w :
  getGroupsForEntity e (group_removeEntity g e w)
  = if group_hasEntity g e w then JsSet.delete g (getGroupsForEntity e w)
    else getGroupsForEntity e w.
Proof.
  unfold group_removeEntity, group_hasEntity, getGroupsForEntity.
  destruct (JsMap.get g (heap w)) as [G |]; [| reflexivity].
  destruct (JsSet.has e (g_entities G)); [| reflexivity].
  unfold onGroupEntityRemoved. simpl.
  destruct (JsMap.get e (entityToGroups w)) as [gs |] eqn:Hgs; simpl.
  - rewrite map_get_set_eq.
    destruct (JsSet.delete g gs) eqn:Hd; simpl.
    + now rewrite map_get_delete_eq.
    + now rewrite map_get_set_eq.
  - rewrite Hgs. simpl. now rewrite Hgs.
Qed.

Lemma group_addEntity_hasEntity g e w g' e' :
  group_hasEntity g' e' (group_addEntity g e w)
  = group_hasEntity g' e' w
    || (N.eqb g' g && N.eqb e' e && JsMap.has g (heap w)).
Proof.
  unfold group_addEntity, group_hasEntity, JsMap.has.
  destruct (JsMap.get g (heap w)) as [G |] eqn:HG.
  - destruct (JsSet.has e (g_entities G)) eqn:Hm.
    + cbn [negb]. destruct (N.eqb_spec g' g) as [-> | Hn]; simpl; [| now rewrite orb_false_r].
      rewrite HG. destruct (N.eqb_spec e' e) as [-> | Hn]; simpl.
      * now rewrite Hm.
      * now rewrite orb_false_r.
    + cbn [negb]. rewrite heap_onGroupEntityAdded. simpl. rewrite map_get_set. simpl.
      destruct (N.eqb_spec g' g) as [-> | Hn]; simpl; [| now rewrite orb_false_r].
      rewrite HG, set_has_add. simpl. rewrite andb_true_r. apply orb_comm.
  - rewrite andb_false_r. now rewrite orb_false_r.
Qed.

Lemma group_addEntity_groupsFor g e w :
  getGroupsForEntity e (group_addEntity g e w)
  = if JsMap.has g (heap w) && negb (group_hasEntity g e w)
    then JsSet.add g (getGroupsForEntity e w)
    else getGroupsForEntity e w.
Proof.
  unfold group_addEntity, group_hasEntity, getGroupsForEntity, JsMap.has.
  destruct (JsMap.get g (heap w)) as [G |]; [| reflexivity].
  destruct (JsSet.has e (g_entities G)); [reflexivity |]. simpl.
  unfold onGroupEntityAdded, JsMap.has. simpl.
  destruct (JsMap.get e (entityToGroups w)) as [gs |] eqn:Hgs; simpl.
  - rewrite Hgs. simpl. now rewrite map_get_set_eq.
  - rewrite map_get_set_eq. simpl. now rewrite map_get_set_eq.
Qed.

Lemma groupsFor_others w w' e :
  JsMap.get e (entityToGroups w') = JsMap.get e (entityToGroups w) ->
  getGroupsForEntity e w' = getGroupsForEntity e w.
Proof. unfold getGroupsForEntity. now intros ->. Qed.

(** ** despawn *)

Lemma detachFromGroups_same_entities e gs : forall w,
  same_entities w (detachFromGroups e gs w).
Proof.
  induction gs as [| g gs IH]; intros w; simpl; [apply same_entities_refl |].
  eapply same_entities_trans; [| apply IH].
  apply (group_removeEntity_same_entities g e w).
Qed.

Lemma detachFromGroups_tables e gs : forall w g',
  option_map (@g_components Value) (JsMap.get g' (heap (detachFromGroups e gs w)))
  = option_map (@g_components Value) (JsMap.get g' (heap w)).
Proof.
  induction gs as [| g gs IH]; intros w g'; simpl; [reflexivity |].
  rewrite IH. simpl. apply group_removeEntity_tables.
Qed.

Lemma detachFromGroups_others e gs e' : e' <> e -> forall w,
  JsMap.get e' (entityToGroups (detachFromGroups e gs w))
  = JsMap.get e' (entityToGroups w).
Proof.
  intros Hn. induction gs as [| g gs IH]; intros w; simpl; [reflexivity |].
  rewrite IH. simpl. now apply group_removeEntity_others.
Qed.

Lemma detachFromGroups_hasEntity e gs g' e' : forall w,
  group_hasEntity g' e' (detachFromGroups e gs w)
  = group_hasEntity g' e' w && negb (N.eqb e' e && JsSet.has g' gs).
Proof.
  induction gs as [| g gs IH]; intros w; simpl.
  - now rewrite andb_false_r, andb_true_r.
  - rewrite IH.
    change (group_hasEntity g' e' (fire (EntityRemovedFromGroup e g)
                                     (group_removeEntity g e w)))
      with (group_hasEntity g' e' (group_removeEntity g e w)).
    rewrite group_removeEntity_hasEntity.
    destruct (group_hasEntity g' e' w), (N.eqb e' e), (N.eqb g' g),
      (JsSet.has g' gs); reflexivity.
Qed.

Lemma fire_all_eq evs : forall w,
  fire_all evs w
  = mkWorld (nextEntityId w) (entities w) (components w) (groups w)
      (entityToGroups w) (archetypeToEntities w) (entityToArchetype w) (heap w)
      (nextGroupId w) (log w ++ evs).
Proof.
  induction evs as [| ev evs IH]; intros w; simpl.
  - rewrite app_nil_r. now destruct w.
  - rewrite IH. simpl. now rewrite <- app_assoc.
Qed.

Ltac detach_fields e gs w :=
  let H := fresh in
  pose proof (detachFromGroups_same_entities e gs w) as H;
  destruct H as (? & ? & ? & ? & ? & ?).

Lemma despawn_invalid e w : valid e w = false -> despawn e w = (false, w).
Proof. unfold despawn. now intros ->. Qed.

Lemma despawn_result e w :
  fst (despawn e w) = valid e w && JsMap.has e (components w).
Proof.
  unfold despawn, JsMap.has. destruct (valid e w); simpl; [| reflexivity].
  destruct (JsMap.get e (entityToGroups w)) as [gs |]; simpl.
  - detach_fields e gs w.
    replace (components (detachFromGroups e gs w)) with (components w) by congruence.
    destruct (JsMap.get e (components w)); reflexivity.
  - destruct (JsMap.get e (components w)); reflexivity.
Qed.

(** The fields of the store after [despawn]. *)
Lemma despawn_fields e w :
  let w' := snd (despawn e w) in
  nextEntityId w' = nextEntityId w /\
  groups w' = groups w /\
  entities w' = (if fst (despawn e w) then JsSet.delete e (entities w) else entities w) /\
  components w' = (if fst (despawn e w) then JsMap.delete e (components w)
                   else components w) /\
  archetypeToEntities w' = archetypeToEntities w /\
  entityToArchetype w' = entityToArchetype w.
Proof.
  unfold despawn. destruct (valid e w); simpl; [| repeat split].
  destruct (JsMap.get e (entityToGroups w)) as [gs |]; simpl.
  - detach_fields e gs w.
    replace (components (detachFromGroups e gs w)) with (components w) by congruence.
    destruct (JsMap.get e (components w)); simpl;
      rewrite ?fire_all_eq; simpl; repeat split; congruence.
  - destruct (JsMap.get e (components w)); simpl;
      rewrite ?fire_all_eq; simpl; repeat split; congruence.
Qed.

Lemma despawn_valid e w e' :
  valid e' (snd (despawn e w))
  = valid e' w && negb (N.eqb e' e && fst (despawn e w)).
Proof.
  unfold valid. destruct (despawn_fields e w) as (_ & _ & He & _). rewrite He.
  destruct (fst (despawn e w)).
  - rewrite set_has_delete. simpl. rewrite andb_true_r. apply andb_comm.
  - now rewrite andb_false_r, andb_true_r.
Qed.

(** The group objects and the reverse index after [despawn] of a live
    entity whose groups are [gs]. *)
Lemma despawn_group_state e w :
  valid e w = true ->
  heap (snd (despawn e w))
  = heap (detachFromGroups e (getGroupsForEntity e w) w) /\
  entityToGroups (snd (despawn e w))
  = JsMap.delete e (entityToGroups (detachFromGroups e (getGroupsForEntity e w) w)).
Proof.
  intros Hv. unfold despawn, getGroupsForEntity. rewrite Hv. simpl.
  destruct (JsMap.get e (entityToGroups w)) as [gs |] eqn:Hgs; simpl.
  - detach_fields e gs w.
    destruct (JsMap.get e (components (detachFromGroups e gs w))); simpl;
      rewrite ?fire_all_eq; simpl; auto.
  - assert (Hd : JsMap.delete e (entityToGroups w) = entityToGroups w).
    { apply map_delete_absent. now apply map_get_none_has. }
    destruct (JsMap.get e (components w)); simpl;
      rewrite ?fire_all_eq; simpl; auto.
Qed.

Lemma despawn_tables e w g :
  option_map (@g_components Value) (JsMap.get g (heap (snd (despawn e w))))
  = option_map (@g_components Value) (JsMap.get g (heap w)).
Proof.
  destruct (valid e w) eqn:Hv.
  - rewrite (proj1 (despawn_group_state e w Hv)). apply detachFromGroups_tables.
  - now rewrite despawn_invalid.
Qed.

Lemma despawn_others e w e' :
  e' <> e ->
  JsMap.get e' (entityToGroups (snd (despawn e w))) = JsMap.get e' (entityToGroups w) /\
  forall g, group_hasEntity g e' (snd (despawn e w)) = group_hasEntity g e' w.
Proof.
  intros Hn. destruct (valid e w) eqn:Hv.
  - destruct (despawn_group_state e w Hv) as [Hh Hm]. split.
    + rewrite Hm, map_get_delete_neq by assumption.
      now apply detachFromGroups_others.
    + intros g. unfold group_hasEntity at 1. rewrite Hh.
      fold (group_hasEntity g e' (detachFromGroups e (getGroupsForEntity e w) w)).
      rewrite detachFromGroups_hasEntity, (proj2 (N.eqb_neq e' e) Hn).
      apply andb_true_r.
  - rewrite despawn_invalid by assumption. auto.
Qed.

Lemma despawn_groupsFor_self e w :
  valid e w = true -> getGroupsForEntity e (snd (despawn e w)) = [].
Proof.
  intros Hv. unfold getGroupsForEntity at 1.
  rewrite (proj2 (despawn_group_state e w Hv)). now rewrite map_get_delete_eq.
Qed.

Lemma despawn_hasEntity_self e w g :
  valid e w = true ->
  group_hasEntity g e (snd (despawn e w))
  = group_hasEntity g e w && negb (JsSet.has g (getGroupsForEntity e w)).
Proof.
  intros Hv. unfold group_hasEntity at 1.
  rewrite (proj1 (despawn_group_state e w Hv)).
  fold (group_hasEntity g e (detachFromGroups e (getGroupsForEntity e w) w)).
  now rewrite detachFromGroups_hasEntity, N.eqb_refl.
Qed.

(** ** The loops of revert on one component table *)

Lemma prune_fold e (sc : Components Value) c :
  forall ks (acc : Components Value) evs,
  JsMap.get c
    (fst (fold_left
            (fun acc id =>
               if negb (JsMap.has id sc)
               then (JsMap.delete id (fst acc), snd acc ++ [ComponentRemoved e id])
               else acc)
            ks (acc, evs)))
  = if JsSet.has c ks && negb (JsMap.has c sc) then None else JsMap.get c acc.
Proof.
  induction ks as [| k ks IH]; intros acc evs; simpl; [reflexivity |].
  destruct (JsMap.has k sc) eqn:Hk; simpl.
  - rewrite IH. destruct (N.eqb_spec c k) as [-> | Hn]; simpl; [| reflexivity].
    rewrite Hk. simpl. now rewrite andb_false_r.
  - rewrite IH. destruct (N.eqb_spec c k) as [-> | Hn]; simpl.
    + rewrite Hk. simpl. rewrite map_get_delete_eq.
      now destruct (JsSet.has k ks).
    + now rewrite map_get_delete_neq.
Qed.

Lemma pruneComponents_get e (sc cur : Components Value) c :
  JsMap.get c (fst (pruneComponents e sc cur))
  = if JsMap.has c sc then JsMap.get c cur else None.
Proof.
  unfold pruneComponents. rewrite prune_fold.
  destruct (JsMap.has c sc); simpl; [now rewrite andb_false_r |].
  rewrite andb_true_r. destruct (JsSet.has c (JsMap.keys cur)) eqn:Hk; [reflexivity |].
  apply set_has_false in Hk. apply map_has_false_keys in Hk.
  apply map_get_none_has in Hk. now rewrite Hk.
Qed.

Lemma prune_fold_NoDup e (sc : Components Value) :
  forall ks (acc : Components Value) evs,
  NoDup (JsMap.keys acc) ->
  NoDup (JsMap.keys
           (fst (fold_left
                   (fun acc id =>
                      if negb (JsMap.has id sc)
                      then (JsMap.delete id (fst acc),
                            snd acc ++ [ComponentRemoved e id])
                      else acc)
                   ks (acc, evs)))).
Proof.
  induction ks as [| k ks IH]; intros acc evs Hnd; simpl; [assumption |].
  destruct (negb (JsMap.has k sc)); simpl; apply IH; [| assumption].
  now apply map_keys_delete_NoDup.
Qed.

Lemma pruneComponents_NoDup e (sc cur : Components Value) :
  NoDup (JsMap.keys cur) -> NoDup (JsMap.keys (fst (pruneComponents e sc cur))).
Proof. intros Hnd. unfold pruneComponents. now apply prune_fold_NoDup. Qed.

Lemma restoreComponents_get s e c : forall (sc cur : Components Value) evs,
  NoDup (JsMap.keys sc) ->
  JsMap.get c
    (fst (fold_left
            (fun acc kv =>
               if restores s (fst kv)
               then (JsMap.set (fst kv) (deepClone (snd kv)) (fst acc),
                     snd acc ++ [ComponentAdded e (fst kv)])
               else acc)
            sc (cur, evs)))
  = match JsMap.get c sc with
    | Some v => if restores s c then Some (deepClone v) else JsMap.get c cur
    | None => JsMap.get c cur
    end.
Proof.
  induction sc as [| [k v] r IH]; intros cur evs Hnd; simpl; [reflexivity |].
  inversion Hnd as [| ? ? Hni Hnd']; subst.
  destruct (N.eqb_spec c k) as [-> | Hn].
  - assert (Hr : JsMap.get k r = None).
    { apply map_get_none_has. now apply map_has_false_keys. }
    destruct (restores s k); simpl; rewrite IH, Hr by assumption;
      [apply map_get_set_eq | reflexivity].
  - destruct (restores s k); simpl; rewrite IH by assumption;
      [| reflexivity].
    now rewrite map_get_set_neq.
Qed.

Lemma restoreComponents_NoDup s e : forall (sc cur : Components Value) evs,
  NoDup (JsMap.keys cur) ->
  NoDup (JsMap.keys
           (fst (fold_left
                   (fun acc kv =>
                      if restores s (fst kv)
                      then (JsMap.set (fst kv) (deepClone (snd kv)) (fst acc),
                            snd acc ++ [ComponentAdded e (fst kv)])
                      else acc)
                   sc (cur, evs)))).
Proof.
  induction sc as [| [k v] r IH]; intros cur evs Hnd; simpl; [assumption |].
  destruct (restores s k); simpl; apply IH; [| assumption].
  now apply map_keys_set_NoDup.
Qed.

Lemma restores_full s c : isPartial s = false -> restores s c = true.
Proof. unfold restores. now intros ->. Qed.

(** The table that the two loops leave for one entity. *)
Lemma restoreTable_get s e (sc cur : Components Value) c :
  NoDup (JsMap.keys sc) ->
  JsMap.get c (fst (restoreTable deepClone s e sc cur))
  = match JsMap.get c sc with
    | Some v => if restores s c then Some (deepClone v) else JsMap.get c cur
    | None => if isPartial s then JsMap.get c cur else None
    end.
Proof.
  intros Hnd. unfold restoreTable, restoreComponents. simpl.
  rewrite restoreComponents_get by assumption.
  destruct (isPartial s) eqn:Hp; simpl; [reflexivity |].
  rewrite pruneComponents_get. unfold JsMap.has.
  destruct (JsMap.get c sc); [| reflexivity].
  now rewrite restores_full.
Qed.

Lemma restoreTable_NoDup s e (sc cur : Components Value) :
  NoDup (JsMap.keys cur) -> NoDup (JsMap.keys (fst (restoreTable deepClone s e sc cur))).
Proof.
  intros Hnd. unfold restoreTable, restoreComponents. simpl.
  apply restoreComponents_NoDup.
  destruct (isPartial s); simpl; [assumption |].
  now apply pruneComponents_NoDup.
Qed.

(** ** The loop of revert over the captured entities *)

Lemma same_outside_tables_refl w : same_outside_tables w w.
Proof. repeat split. Qed.

Lemma same_outside_tables_trans w1 w2 w3 :
  same_outside_tables w1 w2 -> same_outside_tables w2 w3 -> same_outside_tables w1 w3.
Proof. unfold same_outside_tables. intuition congruence. Qed.

Lemma restoreEntity_frame s e sc w :
  same_outside_tables w
    match restoreEntity deepClone s e sc w with Continue w' | Return w' => w' end.
Proof.
  unfold restoreEntity. repeat break_match; rewrite ?fire_all_eq; repeat split.
Qed.

Lemma restoreEntities_frame s states : forall w,
  same_outside_tables w (restoreEntities deepClone s states w).
Proof.
  induction states as [| [e sc] rest IH]; intros w; simpl;
    [apply same_outside_tables_refl |].
  pose proof (restoreEntity_frame s e sc w) as H.
  destruct (restoreEntity deepClone s e sc w) as [w' | w']; [| exact H].
  eapply same_outside_tables_trans; [exact H | apply IH].
Qed.

Lemma tables_ok_get e w :
  tables_ok w -> valid e w = true ->
  JsMap.get e (components w) = Some (currentTable e w).
Proof.
  intros Hok Hv. unfold currentTable. rewrite Hv.
  apply Hok, map_has_get in Hv. destruct Hv as [t ->]. reflexivity.
Qed.

(** One turn of the loop on a store where live entities have their table:
    it never takes the early [return]. *)
Lemma restoreEntity_spec s e0 sc0 w :
  tables_ok w ->
  exists w',
    restoreEntity deepClone s e0 sc0 w = Continue w' /\
    tables_ok w' /\
    (forall e, valid e w' = valid e w || (N.eqb e e0 && negb (JsMap.size sc0 =? 0)%nat)) /\
    (forall e, JsMap.get e (components w')
               = if N.eqb e e0 && negb (negb (valid e0 w) && (JsMap.size sc0 =? 0)%nat)
                 then Some (fst (restoreTable deepClone s e0 sc0 (currentTable e0 w)))
                 else JsMap.get e (components w)).
Proof.
  intros Hok. unfold restoreEntity. fold (valid e0 w).
  destruct (valid e0 w) eqn:Hv; simpl.
  - rewrite (tables_ok_get e0 w Hok Hv).
    eexists. split; [reflexivity |]. rewrite fire_all_eq.
    split; [| split].
    + intros e He. unfold valid in *. simpl in *. rewrite map_has_set.
      rewrite (Hok e He). apply orb_true_r.
    + intros e. unfold valid. simpl. fold (valid e w).
      destruct (N.eqb_spec e e0) as [-> | Hn]; simpl.
      * rewrite Hv. reflexivity.
      * now rewrite orb_false_r.
    + intros e. simpl. rewrite map_get_set. simpl.
      now destruct (N.eqb e e0).
  - destruct (JsMap.size sc0 =? 0)%nat eqn:Hz; simpl.
    + eexists. split; [reflexivity |]. split; [assumption |]. split.
      * intros e. now rewrite andb_false_r, orb_false_r.
      * intros e. now rewrite andb_false_r.
    + rewrite map_get_set_eq.
      eexists. split; [reflexivity |]. rewrite fire_all_eq.
      assert (Hcur : currentTable e0 w = []) by (unfold currentTable; now rewrite Hv).
      rewrite Hcur. split; [| split].
      * intros e He. unfold valid in *. simpl in *.
        rewrite !map_has_set. rewrite set_has_add in He.
        apply orb_true_iff in He. destruct He as [He | He].
        -- now rewrite He.
        -- rewrite (Hok e He). now rewrite !orb_true_r.
      * intros e. unfold valid. simpl. rewrite set_has_add. simpl.
        rewrite andb_true_r. apply orb_comm.
      * intros e. simpl. rewrite !map_get_set. simpl.
        rewrite andb_true_r. now destruct (N.eqb e e0).
Qed.

Lemma currentTable_ext e w w' :
  valid e w' = valid e w ->
  JsMap.get e (components w') = JsMap.get e (components w) ->
  currentTable e w' = currentTable e w.
Proof. unfold currentTable. now intros -> ->. Qed.

(** The whole loop: which entities are live afterwards and what their
    tables hold. *)
Lemma restoreEntities_spec s : forall states w,
  NoDup (JsMap.keys states) ->
  tables_ok w ->
  let w' := restoreEntities deepClone s states w in
  tables_ok w' /\
  (forall e, valid e w'
             = valid e w
               || match JsMap.get e states with
                  | Some sc => negb (JsMap.size sc =? 0)%nat
                  | None => false
                  end) /\
  (forall e, JsMap.get e (components w')
             = match JsMap.get e states with
               | Some sc =>
                   if negb (valid e w) && (JsMap.size sc =? 0)%nat
                   then JsMap.get e (components w)
                   else Some (fst (restoreTable deepClone s e sc (currentTable e w)))
               | None => JsMap.get e (components w)
               end).
Proof.
  induction states as [| [e0 sc0] rest IH]; intros w Hnd Hok; simpl.
  - split; [assumption |]. split; intros e; [now rewrite orb_false_r | reflexivity].
  - inversion Hnd as [| ? ? Hni Hnd']; subst.
    assert (Hrest : JsMap.get e0 rest = None).
    { apply map_get_none_has. now apply map_has_false_keys. }
    destruct (restoreEntity_spec s e0 sc0 w Hok) as (w1 & -> & Hok1 & Hv1 & Hc1).
    destruct (IH w1 Hnd' Hok1) as (Hok' & Hv' & Hc').
    split; [assumption |]. split.
    + intros e. rewrite Hv', Hv1.
      destruct (N.eqb_spec e e0) as [-> | Hn]; simpl.
      * rewrite Hrest. now rewrite orb_false_r.
      * now rewrite orb_false_r.
    + intros e. rewrite Hc'.
      destruct (N.eqb_spec e e0) as [-> | Hn]; simpl.
      * rewrite Hrest, Hc1, N.eqb_refl. simpl.
        now destruct (negb (valid e0 w) && (JsMap.size sc0 =? 0)%nat).
      * assert (He : JsMap.get e (components w1) = JsMap.get e (components w)).
        { rewrite Hc1. now rewrite (proj2 (N.eqb_neq e e0) Hn). }
        assert (Hve : valid e w1 = valid e w).
        { rewrite Hv1. rewrite (proj2 (N.eqb_neq e e0) Hn). apply orb_false_r. }
        rewrite Hve, He, (currentTable_ext e w w1 Hve He). reflexivity.
Qed.

(** ** The loop of revert over the entities to despawn *)

Lemma despawnEach_frame s ents : forall w,
  let w' := despawnEach s ents w in
  nextEntityId w' = nextEntityId w /\ groups w' = groups w /\
  archetypeToEntities w' = archetypeToEntities w /\
  entityToArchetype w' = entityToArchetype w /\
  forall g, option_map (@g_components Value) (JsMap.get g (heap w'))
            = option_map (@g_components Value) (JsMap.get g (heap w)).
Proof.
  induction ents as [| e0 ents IH]; intros w; simpl; [repeat split |].
  destruct (negb (JsMap.has e0 (entityStates s))); [| apply IH].
  destruct (IH (snd (despawn e0 w))) as (Hn & Hg & Ha & Hb & Ht).
  destruct (despawn_fields e0 w) as (Hn' & Hg' & _ & _ & Ha' & Hb').
  repeat split; try congruence.
  intros g. rewrite Ht. apply despawn_tables.
Qed.

(** An entity that the snapshot lists, or that is not live, is left as it
    is: liveness, own table, groups. *)
Lemma despawnEach_kept s ents e : forall w,
  JsMap.has e (entityStates s) = true \/ valid e w = false ->
  let w' := despawnEach s ents w in
  valid e w' = valid e w /\
  JsMap.get e (components w') = JsMap.get e (components w) /\
  JsMap.get e (entityToGroups w') = JsMap.get e (entityToGroups w) /\
  forall g, group_hasEntity g e w' = group_hasEntity g e w.
Proof.
  induction ents as [| e0 ents IH]; intros w Hkept; simpl; [repeat split |].
  destruct (JsMap.has e0 (entityStates s)) eqn:Hs; simpl; [now apply IH |].
  assert (Hstep : valid e (snd (despawn e0 w)) = valid e w /\
                  JsMap.get e (components (snd (despawn e0 w)))
                  = JsMap.get e (components w) /\
                  JsMap.get e (entityToGroups (snd (despawn e0 w)))
                  = JsMap.get e (entityToGroups w) /\
                  forall g, group_hasEntity g e (snd (despawn e0 w))
                            = group_hasEntity g e w).
  { destruct (N.eq_dec e e0) as [-> | Hn].
    - destruct Hkept as [Hk | Hk]; [congruence |].
      rewrite (@despawn_invalid e0 w Hk). repeat split.
    - destruct (@despawn_others e0 w e Hn) as [Hm Hh].
      destruct (despawn_fields e0 w) as (_ & _ & _ & Hc & _).
      split; [| split; [| split; assumption]].
      + rewrite despawn_valid, (proj2 (N.eqb_neq e e0) Hn). apply andb_true_r.
      + rewrite Hc. destruct (fst (despawn e0 w)); [| reflexivity].
        now apply map_get_delete_neq. }
  destruct Hstep as (Hv & Hc & Hm & Hh).
  assert (Hkept' : JsMap.has e (entityStates s) = true \/
                    valid e (snd (despawn e0 w)) = false).
  { destruct Hkept as [Hk | Hk]; [now left | right; congruence]. }
  destruct (IH (snd (despawn e0 w)) Hkept') as (Hv' & Hc' & Hm' & Hh').
  repeat split; try congruence; intros g; now rewrite Hh', Hh.
Qed.

Lemma despawn_tables_ok e w : tables_ok w -> tables_ok (snd (despawn e w)).
Proof.
  intros Hok e' Hv. rewrite despawn_valid in Hv. apply andb_true_iff in Hv.
  destruct Hv as [Hv Hne]. destruct (despawn_fields e w) as (_ & _ & _ & Hc & _).
  rewrite Hc. destruct (fst (despawn e w)); [| now apply Hok].
  rewrite map_has_delete, (Hok e' Hv). simpl in *.
  rewrite andb_true_r in Hne. now rewrite Hne.
Qed.

Lemma despawn_live e w : tables_ok w -> fst (despawn e w) = valid e w.
Proof.
  intros Hok. rewrite despawn_result. destruct (valid e w) eqn:Hv; [| reflexivity].
  now rewrite (Hok e Hv).
Qed.

Lemma despawnEach_valid s ents : forall w,
  tables_ok w ->
  let w' := despawnEach s ents w in
  tables_ok w' /\
  forall e, valid e w'
            = valid e w && negb (JsSet.has e ents && negb (JsMap.has e (entityStates s))).
Proof.
  induction ents as [| e0 ents IH]; intros w Hok; simpl.
  - split; [assumption | intros e; now rewrite andb_true_r].
  - destruct (JsMap.has e0 (entityStates s)) eqn:Hs; simpl.
    + destruct (IH w Hok) as [Hok' Hv']. split; [assumption |].
      intros e. rewrite Hv'. destruct (N.eqb_spec e e0) as [-> | Hn]; simpl; [| reflexivity].
      rewrite Hs. simpl. now rewrite andb_false_r.
    + destruct (IH _ (despawn_tables_ok e0 w Hok)) as [Hok' Hv']. split; [assumption |].
      intros e. rewrite Hv', despawn_valid, (despawn_live e0 w Hok).
      destruct (N.eqb_spec e e0) as [-> | Hn]; simpl.
      * rewrite Hs. simpl. now destruct (valid e0 w).
      * now rewrite andb_true_r.
Qed.

(** ** spawn and set *)

Lemma spawn_fields w :
  fst (spawn w) = nextEntityId w /\
  nextEntityId (snd (spawn w)) = nextEntityId w + 1 /\
  entities (snd (spawn w)) = JsSet.add (nextEntityId w) (entities w) /\
  components (snd (spawn w)) = JsMap.set (nextEntityId w) [] (components w) /\
  groups (snd (spawn w)) = groups w /\
  entityToGroups (snd (spawn w)) = entityToGroups w /\
  heap (snd (spawn w)) = heap w.
Proof. repeat split. Qed.

Lemma set_threw e c v w : valid e w = false -> set e c v w = Threw.
Proof. unfold set. now intros ->. Qed.

Lemma set_returned e c v w :
  valid e w = true ->
  exists w',
    set e c v w = Returned w' /\
    nextEntityId w' = nextEntityId w /\ entities w' = entities w /\
    groups w' = groups w /\ entityToGroups w' = entityToGroups w /\
    heap w' = heap w /\
    components w'
    = match JsMap.get e (components w) with
      | Some comps => JsMap.set e (JsMap.set c v comps) (components w)
      | None => components w
      end.
Proof.
  intros Hv. unfold set. rewrite Hv. simpl.
  destruct (JsMap.get e (components w)) as [comps |].
  - eexists. split; [reflexivity |].
    destruct (same_store_updateEntityArchetype e
                (with_components
                   (JsMap.set e (JsMap.set c v comps) (components w)) w))
      as (Hn & He & Hc & Hg & Hm & Hh & _).
    destruct (JsMap.has c comps); simpl in *; repeat split; assumption.
  - eexists. split; [reflexivity |]. repeat split.
Qed.

(** The state after [set], whether it returned or threw. *)
Lemma step_set_fields e c v w :
  let w' := step deepClone (OSet e c v) w in
  nextEntityId w' = nextEntityId w /\ entities w' = entities w /\
  groups w' = groups w /\ entityToGroups w' = entityToGroups w /\
  heap w' = heap w /\
  components w'
  = if valid e w
    then match JsMap.get e (components w) with
         | Some comps => JsMap.set e (JsMap.set c v comps) (components w)
         | None => components w
         end
    else components w.
Proof.
  simpl. destruct (valid e w) eqn:Hv.
  - destruct (set_returned e c v w Hv) as (w' & -> & H). exact H.
  - rewrite set_threw by assumption. repeat split.
Qed.

Lemma step_remove_fields e c w :
  let w' := step deepClone (ORemove e c) w in
  nextEntityId w' = nextEntityId w /\ entities w' = entities w /\
  groups w' = groups w /\ entityToGroups w' = entityToGroups w /\
  heap w' = heap w /\
  components w'
  = if valid e w && own_has e c w
    then match JsMap.get e (components w) with
         | Some comps => JsMap.set e (JsMap.delete c comps) (components w)
         | None => components w
         end
    else components w.
Proof.
  simpl. destruct (remove_groups_frame e c w) as (Hh & Hm & Hg & He & Hn).
  repeat split; try assumption.
  rewrite <- remove_result. destruct (fst (remove e c w)) eqn:Hr.
  - destruct (remove_components e c w Hr) as (comps & -> & Hc). exact Hc.
  - now rewrite remove_false.
Qed.

(** ** Calls on groups leave entities and tables alone *)

Lemma removeGroup_loop_same_entities g ents : forall w,
  same_entities w (fold_left (fun w entity => group_removeEntity g entity w) ents w).
Proof.
  induction ents as [| e ents IH]; intros w; simpl; [apply same_entities_refl |].
  eapply same_entities_trans; [apply group_removeEntity_same_entities | apply IH].
Qed.

Lemma same_entities_tables w w' : same_entities w w' -> same_tables w w'.
Proof. intros (? & ? & ? & _). repeat split; assumption. Qed.

Lemma step_group_same_tables op w :
  entity_op op = false -> is_revert op = false ->
  same_tables w (step deepClone op w).
Proof.
  destruct op; simpl; intros H1 H2; try discriminate; clear H1 H2.
  - repeat split.
  - unfold removeGroup. destruct (negb (JsSet.has g (groups w)));
      [repeat split |].
    destruct (removeGroup_loop_same_entities g (group_getEntities g w) w)
      as (? & ? & ? & _).
    repeat split; simpl; congruence.
  - apply same_entities_tables, group_addEntity_same_entities.
  - apply same_entities_tables, group_removeEntity_same_entities.
  - unfold group_set. destruct (JsMap.get g (heap w)); repeat split.
  - unfold group_remove. destruct (JsMap.get g (heap w)); repeat split.
Qed.

(** ** revert outside the tables *)

Lemma revert_frame s w :
  let w' := revert deepClone s w in
  nextEntityId w' = nextEntityId w /\ groups w' = groups w /\
  archetypeToEntities w' = archetypeToEntities w /\
  entityToArchetype w' = entityToArchetype w /\
  forall g, option_map (@g_components Value) (JsMap.get g (heap w'))
            = option_map (@g_components Value) (JsMap.get g (heap w)).
Proof.
  unfold revert.
  set (w1 := if negb (isPartial s) then despawnUnlisted s w else w).
  assert (H1 : nextEntityId w1 = nextEntityId w /\ groups w1 = groups w /\
               archetypeToEntities w1 = archetypeToEntities w /\
               entityToArchetype w1 = entityToArchetype w /\
               forall g, option_map (@g_components Value) (JsMap.get g (heap w1))
                         = option_map (@g_components Value) (JsMap.get g (heap w))).
  { subst w1. destruct (negb (isPartial s)); [apply despawnEach_frame | repeat split]. }
  destruct H1 as (Hn & Hg & Ha & Hb & Ht).
  destruct (restoreEntities_frame s (entityStates s) w1)
    as (Hn' & Hg' & _ & Hh' & _ & Ha' & Hb').
  repeat split; try congruence; intros g; rewrite Hh'; apply Ht.
Qed.

(** Membership of an entity that revert does not despawn. *)
Lemma revert_membership s w e :
  JsMap.has e (entityStates s) = true \/ valid e w = false \/ isPartial s = true ->
  JsMap.get e (entityToGroups (revert deepClone s w)) = JsMap.get e (entityToGroups w) /\
  forall g, group_hasEntity g e (revert deepClone s w) = group_hasEntity g e w.
Proof.
  intros Hkept. unfold revert.
  set (w1 := if negb (isPartial s) then despawnUnlisted s w else w).
  assert (H1 : JsMap.get e (entityToGroups w1) = JsMap.get e (entityToGroups w) /\
               forall g, group_hasEntity g e w1 = group_hasEntity g e w).
  { subst w1. destruct (isPartial s) eqn:Hp; simpl; [auto |].
    assert (Hk : JsMap.has e (entityStates s) = true \/ valid e w = false).
    { destruct Hkept as [H | [H | H]]; [auto | auto | discriminate]. }
    destruct (despawnEach_kept s (entities w) e w Hk) as (_ & _ & Hm & Hh). auto. }
  destruct H1 as [Hm Hh].
  destruct (restoreEntities_frame s (entityStates s) w1)
    as (_ & _ & Hm' & Hh' & _).
  split; [congruence |].
  intros g. rewrite <- Hh. unfold group_hasEntity. now rewrite Hh'.
Qed.

(** ** Entity ids *)

Lemma step_nextEntityId op w : nextEntityId w <= nextEntityId (step deepClone op w).
Proof.
  destruct (entity_op op) eqn:He; [| destruct (is_revert op) eqn:Hr].
  - destruct op; try discriminate.
    + cbn [step]. rewrite (proj1 (proj2 (spawn_fields w))). lia.
    + cbn [step]. rewrite (proj1 (despawn_fields e w)). lia.
    + rewrite (proj1 (step_set_fields e c v w)). lia.
    + rewrite (proj1 (step_remove_fields e c w)). lia.
  - destruct op; try discriminate. cbn [step].
    rewrite (proj1 (revert_frame s w)). lia.
  - rewrite (proj1 (step_group_same_tables op w He Hr)). lia.
Qed.

Lemma run_app ops1 ops2 w :
  run deepClone (ops1 ++ ops2) w = run deepClone ops2 (run deepClone ops1 w).
Proof. unfold run. apply fold_left_app. Qed.

Lemma run_nextEntityId ops : forall w,
  nextEntityId w <= nextEntityId (run deepClone ops w).
Proof.
  induction ops as [| op ops IH]; intros w; simpl; [lia |].
  etransitivity; [apply (step_nextEntityId op w) | apply IH].
Qed.

(** Without a revert, an id that was issued and is not live stays so. *)
Lemma step_stays_dead op w e :
  is_revert op = false -> valid e w = false -> e < nextEntityId w ->
  valid e (step deepClone op w) = false.
Proof.
  intros Hr Hv Hlt. destruct (entity_op op) eqn:He.
  - destruct op; try discriminate.
    + cbn [step]. unfold valid.
      rewrite (proj1 (proj2 (proj2 (spawn_fields w)))), set_has_add.
      fold (valid e w). rewrite Hv. simpl. rewrite orb_false_r. apply N.eqb_neq. lia.
    + cbn [step]. rewrite despawn_valid, Hv. reflexivity.
    + unfold valid. now rewrite (proj1 (proj2 (step_set_fields e0 c v w))).
    + unfold valid. now rewrite (proj1 (proj2 (step_remove_fields e0 c w))).
  - unfold valid. now rewrite (proj1 (proj2 (step_group_same_tables op w He Hr))).
Qed.

Lemma run_stays_dead ops e : forall w,
  existsb (@is_revert Value) ops = false -> valid e w = false -> e < nextEntityId w ->
  valid e (run deepClone ops w) = false.
Proof.
  induction ops as [| op ops IH]; intros w Hr Hv Hlt; simpl in *; [assumption |].
  apply orb_false_iff in Hr. destruct Hr as [Hr Hrs].
  apply IH; [assumption | now apply step_stays_dead |].
  pose proof (step_nextEntityId op w). lia.
Qed.

(** C8: once the entity that [spawn] returned has been despawned it is not
    live, no later [spawn] returns its id again whatever calls come in
    between (reverts included, which may bring the entity back under its old
    id), and unless a revert brings it back it stays not live. *)
Theorem entity_ids_never_reused w (ops1 ops2 : list (Op Value)) :
  let e := fst (spawn w) in
  let w1 := run deepClone ops1 (snd (spawn w)) in
  fst (despawn e w1) = true ->
  let w2 := snd (despawn e w1) in
  valid e w2 = false /\
  fst (spawn (run deepClone ops2 w2)) <> e /\
  e < fst (spawn (run deepClone ops2 w2)) /\
  (existsb (@is_revert Value) ops2 = false -> valid e (run deepClone ops2 w2) = false).
Proof.
  intros e w1 Hd w2.
  assert (Hlt : e < nextEntityId w2).
  { subst w2 w1 e. rewrite (proj1 (despawn_fields _ _)).
    pose proof (run_nextEntityId ops1 (snd (spawn w))) as H.
    rewrite (proj1 (proj2 (spawn_fields w))) in H.
    rewrite (proj1 (spawn_fields w)). lia. }
  assert (Hv : valid e w2 = false).
  { subst w2. rewrite despawn_valid, Hd, N.eqb_refl. simpl. apply andb_false_r. }
  assert (Hs : e < fst (spawn (run deepClone ops2 w2))).
  { rewrite (proj1 (spawn_fields _)).
    pose proof (run_nextEntityId ops2 w2). lia. }
  split; [exact Hv |]. split; [lia |]. split; [exact Hs |].
  intros Hr. now apply run_stays_dead.
Qed.

(** ** revert and groups *)

Lemma getGroupsForEntity_get e w w' :
  JsMap.get e (entityToGroups w') = JsMap.get e (entityToGroups w) ->
  getGroupsForEntity e w' = getGroupsForEntity e w.
Proof. unfold getGroupsForEntity. now intros ->. Qed.

(** A captured entity with a non-empty table is live after revert. *)
Lemma revert_recreates s w e sc :
  snapshot_wf s -> tables_ok w ->
  JsMap.get e (entityStates s) = Some sc -> sc <> [] ->
  valid e (revert deepClone s w) = true.
Proof.
  intros [Hnd _] Hok Hget Hne. unfold revert.
  set (w1 := if negb (isPartial s) then despawnUnlisted s w else w).
  assert (Hok1 : tables_ok w1).
  { subst w1. destruct (negb (isPartial s)); [| assumption].
    apply (despawnEach_valid s (entities w) w Hok). }
  destruct (restoreEntities_spec s (entityStates s) w1 Hnd Hok1) as (_ & Hv & _).
  rewrite Hv, Hget. destruct sc; [congruence |]. apply orb_true_r.
Qed.

(** ** The reverse index stays in step with the groups *)

Lemma groups_synced_ext w w' :
  heap w' = heap w -> entityToGroups w' = entityToGroups w ->
  groups_synced w -> groups_synced w'.
Proof.
  intros Hh Hm Hs g e. unfold group_hasEntity, getGroupsForEntity.
  rewrite Hh, Hm. apply Hs.
Qed.

Lemma group_removeEntity_synced g e w :
  groups_synced w -> groups_synced (group_removeEntity g e w).
Proof.
  intros Hs g' e' Hin. rewrite group_removeEntity_hasEntity in Hin.
  apply andb_true_iff in Hin. destruct Hin as [Hin Hne].
  specialize (Hs g' e' Hin).
  destruct (N.eq_dec e' e) as [-> | Hn].
  - rewrite group_removeEntity_groupsFor.
    destruct (group_hasEntity g e w); [| assumption].
    apply set_In_delete. split; [| assumption].
    intros ->. rewrite !N.eqb_refl in Hne. discriminate.
  - now rewrite (getGroupsForEntity_get e' _ _ (group_removeEntity_others g e w e' Hn)).
Qed.

Lemma group_addEntity_synced g e w :
  groups_synced w -> groups_synced (group_addEntity g e w).
Proof.
  intros Hs g' e' Hin. rewrite group_addEntity_hasEntity in Hin.
  destruct (N.eq_dec e' e) as [-> | Hn].
  - rewrite group_addEntity_groupsFor.
    destruct (group_hasEntity g' e w) eqn:Hbefore.
    + specialize (Hs g' e Hbefore).
      destruct (JsMap.has g (heap w) && negb (group_hasEntity g e w)); [| assumption].
      apply set_In_add. now right.
    + simpl in Hin. apply andb_true_iff in Hin. destruct Hin as [Hin Hheap].
      apply andb_true_iff in Hin. destruct Hin as [Hg _].
      apply N.eqb_eq in Hg. subst g'. rewrite Hheap, Hbefore. simpl.
      apply set_In_add. now left.
  - rewrite (proj2 (N.eqb_neq e' e) Hn), andb_false_r in Hin. simpl in Hin.
    rewrite orb_false_r in Hin.
    rewrite (getGroupsForEntity_get e' _ _ (group_addEntity_others g e w e' Hn)).
    now apply Hs.
Qed.

Lemma despawn_synced e w : groups_synced w -> groups_synced (snd (despawn e w)).
Proof.
  intros Hs g e' Hin. destruct (N.eq_dec e' e) as [-> | Hn].
  - destruct (valid e w) eqn:Hv.
    + rewrite despawn_hasEntity_self in Hin by assumption.
      apply andb_true_iff in Hin. destruct Hin as [Hin Hout].
      apply Hs, set_has_In in Hin. rewrite Hin in Hout. discriminate.
    + rewrite despawn_invalid in * by assumption. now apply Hs.
  - destruct (@despawn_others e w e' Hn) as [Hm Hh].
    rewrite Hh in Hin. rewrite (getGroupsForEntity_get e' _ _ Hm). now apply Hs.
Qed.

Lemma despawnEach_synced s ents : forall w,
  groups_synced w -> groups_synced (despawnEach s ents w).
Proof.
  induction ents as [| e ents IH]; intros w Hs; simpl; [assumption |].
  destruct (negb (JsMap.has e (entityStates s))); apply IH; [| assumption].
  now apply despawn_synced.
Qed.

Lemma revert_synced s w : groups_synced w -> groups_synced (revert deepClone s w).
Proof.
  intros Hs. unfold revert.
  set (w1 := if negb (isPartial s) then despawnUnlisted s w else w).
  assert (Hs1 : groups_synced w1).
  { subst w1. destruct (negb (isPartial s)); [now apply despawnEach_synced | assumption]. }
  destruct (restoreEntities_frame s (entityStates s) w1) as (_ & _ & Hm & Hh & _).
  now apply (groups_synced_ext _ _ Hh Hm).
Qed.

Lemma removeGroup_loop_synced g ents : forall w,
  groups_synced w ->
  groups_synced (fold_left (fun w entity => group_removeEntity g entity w) ents w).
Proof.
  induction ents as [| e ents IH]; intros w Hs; simpl; [assumption |].
  apply IH. now apply group_removeEntity_synced.
Qed.

Lemma step_synced op w : groups_synced w -> groups_synced (step deepClone op w).
Proof.
  intros Hs. destruct op.
  - now apply (@groups_synced_ext w).
  - now apply despawn_synced.
  - destruct (step_set_fields e c v w) as (_ & _ & _ & Hm & Hh & _).
    now apply (groups_synced_ext _ _ Hh Hm).
  - destruct (step_remove_fields e c w) as (_ & _ & _ & Hm & Hh & _).
    now apply (groups_synced_ext _ _ Hh Hm).
  - intros g e Hin. apply (Hs g e). revert Hin.
    unfold group_hasEntity. cbn [step createGroup snd heap]. rewrite map_get_set.
    cbn [keq Key_N]. destruct (N.eqb g (nextGroupId w)); [discriminate | auto].
  - cbn [step]. unfold removeGroup.
    destruct (negb (JsSet.has g (groups w))); [assumption |].
    pose proof (removeGroup_loop_synced g (group_getEntities g w) w Hs) as H.
    now apply (@groups_synced_ext _ _ eq_refl eq_refl H).
  - now apply group_addEntity_synced.
  - now apply group_removeEntity_synced.
  - cbn [step]. unfold group_set.
    destruct (JsMap.get g (heap w)) as [G |] eqn:HG; [| assumption].
    intros g' e Hin. apply (Hs g' e). revert Hin.
    unfold group_hasEntity. cbn [heap with_heap]. rewrite map_get_set. cbn [keq Key_N].
    destruct (N.eqb_spec g' g) as [-> | Hn]; [now rewrite HG | auto].
  - cbn [step]. unfold group_remove.
    destruct (JsMap.get g (heap w)) as [G |] eqn:HG; [| assumption].
    intros g' e Hin. apply (Hs g' e). revert Hin.
    unfold group_hasEntity. cbn [snd heap with_heap]. rewrite map_get_set. cbn [keq Key_N].
    destruct (N.eqb_spec g' g) as [-> | Hn]; [now rewrite HG | auto].
  - now apply revert_synced.
Qed.

(** ** The entity store keeps its invariants *)

Lemma same_tables_inv w w' : same_tables w w' -> store_inv w -> store_inv w'.
Proof.
  intros (Hn & He & Hc) (Hok & Hid & Hnd). unfold store_inv, tables_ok, ids_issued,
    tables_nodup, valid. rewrite Hn, He, Hc. auto.
Qed.

Lemma createWorld_inv : store_inv (@createWorld Value).
Proof.
  split; [| split].
  - intros e Hv. discriminate Hv.
  - intros e Hv. discriminate Hv.
  - intros e comps Hg. discriminate Hg.
Qed.

Lemma spawn_inv w : store_inv w -> store_inv (snd (spawn w)).
Proof.
  intros (Hok & Hid & Hnd).
  destruct (spawn_fields w) as (_ & Hn & He & Hc & _).
  unfold store_inv, tables_ok, ids_issued, tables_nodup, valid.
  rewrite Hn, He, Hc. split; [| split].
  - intros e Hv. rewrite set_has_add in Hv. rewrite map_has_set.
    apply orb_true_iff in Hv. destruct Hv as [Hv | Hv].
    + now rewrite Hv.
    + rewrite (Hok e Hv). apply orb_true_r.
  - intros e Hv. rewrite set_has_add in Hv.
    apply orb_true_iff in Hv. destruct Hv as [Hv | Hv].
    + apply N.eqb_eq in Hv. lia.
    + specialize (Hid e Hv). lia.
  - intros e comps. rewrite map_get_set. cbn [keq Key_N].
    destruct (N.eqb e (nextEntityId w)).
    + intros [= <-]. constructor.
    + apply Hnd.
Qed.

Lemma despawn_inv e w : store_inv w -> store_inv (snd (despawn e w)).
Proof.
  intros (Hok & Hid & Hnd).
  destruct (despawn_fields e w) as (Hn & _ & He & Hc & _).
  split; [now apply despawn_tables_ok |]. split.
  - intros e' Hv. unfold ids_issued in Hid. rewrite Hn. apply Hid.
    rewrite despawn_valid in Hv. apply andb_true_iff in Hv. tauto.
  - intros e' comps. rewrite Hc. destruct (fst (despawn e w)); [| apply Hnd].
    rewrite map_get_delete. cbn [keq Key_N].
    destruct (N.eqb e' e); [discriminate | apply Hnd].
Qed.

(** A call that rewrites the table of one live entity, keeping its keys
    distinct. *)
Lemma table_update_inv w w' e (f : Components Value -> Components Value) :
  nextEntityId w' = nextEntityId w -> entities w' = entities w ->
  components w'
  = match JsMap.get e (components w) with
    | Some comps => JsMap.set e (f comps) (components w)
    | None => components w
    end ->
  (forall comps, NoDup (JsMap.keys comps) -> NoDup (JsMap.keys (f comps))) ->
  store_inv w -> store_inv w'.
Proof.
  intros Hn He Hc Hf (Hok & Hid & Hnd).
  unfold store_inv, tables_ok, ids_issued, tables_nodup, valid.
  rewrite Hn, He, Hc.
  destruct (JsMap.get e (components w)) as [comps |] eqn:Hg; [| auto].
  split; [| split; [assumption |]].
  - intros e' Hv. rewrite map_has_set, (Hok e' Hv). apply orb_true_r.
  - intros e' comps'. rewrite map_get_set. cbn [keq Key_N].
    destruct (N.eqb e' e).
    + intros [= <-]. apply Hf. eapply Hnd; eauto.
    + apply Hnd.
Qed.

Lemma step_set_inv e c v w : store_inv w -> store_inv (step deepClone (OSet e c v) w).
Proof.
  intros Hinv. destruct (step_set_fields e c v w) as (Hn & He & _ & _ & _ & Hc).
  destruct (valid e w).
  - eapply (table_update_inv w _ e (JsMap.set c v)); eauto.
    intros comps. apply map_keys_set_NoDup.
  - apply (same_tables_inv w); [repeat split; assumption | assumption].
Qed.

Lemma step_remove_inv e c w : store_inv w -> store_inv (step deepClone (ORemove e c) w).
Proof.
  intros Hinv. destruct (step_remove_fields e c w) as (Hn & He & _ & _ & _ & Hc).
  destruct (valid e w && own_has e c w).
  - eapply (table_update_inv w _ e (JsMap.delete c)); eauto.
    intros comps. apply map_keys_delete_NoDup.
  - apply (same_tables_inv w); [repeat split; assumption | assumption].
Qed.

Lemma despawnEach_inv s ents : forall w, store_inv w -> store_inv (despawnEach s ents w).
Proof.
  induction ents as [| e ents IH]; intros w Hinv; simpl; [assumption |].
  destruct (negb (JsMap.has e (entityStates s))); apply IH; [| assumption].
  now apply despawn_inv.
Qed.

Lemma despawnEach_live s ents : forall w e,
  valid e (despawnEach s ents w) = true -> valid e w = true.
Proof.
  induction ents as [| e0 ents IH]; intros w e Hv; simpl in *; [assumption |].
  destruct (negb (JsMap.has e0 (entityStates s))); [| now apply IH].
  apply IH in Hv. rewrite despawn_valid in Hv. apply andb_true_iff in Hv. tauto.
Qed.

Lemma currentTable_NoDup e w : tables_nodup w -> NoDup (JsMap.keys (currentTable e w)).
Proof.
  intros Hnd. unfold currentTable. destruct (valid e w); [| constructor].
  destruct (JsMap.get e (components w)) eqn:Hg; [| constructor].
  eapply Hnd; eauto.
Qed.

Lemma revert_inv s w :
  snapshot_wf s ->
  (forall e, JsMap.has e (entityStates s) = true -> e < nextEntityId w) ->
  store_inv w -> store_inv (revert deepClone s w).
Proof.
  intros [Hwf _] Hissued Hinv.
  pose proof (proj1 (revert_frame s w)) as Hn.
  unfold revert in *.
  set (w1 := if negb (isPartial s) then despawnUnlisted s w else w) in *.
  assert (Hinv1 : store_inv w1).
  { subst w1. destruct (negb (isPartial s)); [now apply despawnEach_inv | assumption]. }
  assert (Hlive1 : forall e, valid e w1 = true -> valid e w = true).
  { subst w1. destruct (negb (isPartial s)); [apply despawnEach_live | auto]. }
  destruct Hinv1 as (Hok1 & _ & Hnd1). destruct Hinv as (_ & Hid & _).
  destruct (restoreEntities_spec s (entityStates s) w1 Hwf Hok1) as (Hok' & Hv' & Hc').
  split; [assumption |]. split.
  - intros e Hv. rewrite Hn. rewrite Hv' in Hv. apply orb_true_iff in Hv.
    destruct Hv as [Hv | Hv]; [now apply Hid, Hlive1 |].
    apply Hissued. unfold JsMap.has.
    destruct (JsMap.get e (entityStates s)); [reflexivity | discriminate].
  - intros e comps. rewrite Hc'.
    destruct (JsMap.get e (entityStates s)) as [sc |]; [| apply Hnd1].
    destruct (negb (valid e w1) && (JsMap.size sc =? 0)%nat); [apply Hnd1 |].
    intros [= <-]. apply restoreTable_NoDup. now apply currentTable_NoDup.
Qed.

Lemma step_inv op w :
  (forall s, op = ORevert s ->
     snapshot_wf s /\
     forall e, JsMap.has e (entityStates s) = true -> e < nextEntityId w) ->
  store_inv w -> store_inv (step deepClone op w).
Proof.
  intros Hrev Hinv.
  destruct (entity_op op) eqn:He; [| destruct (is_revert op) eqn:Hr].
  - destruct op; try discriminate.
    + now apply spawn_inv.
    + now apply despawn_inv.
    + now apply step_set_inv.
    + now apply step_remove_inv.
  - destruct op; try discriminate.
    destruct (Hrev s eq_refl) as [Hwf Hissued]. now apply revert_inv.
  - apply (same_tables_inv w); [now apply step_group_same_tables | assumption].
Qed.

(** ** Snapshots *)

Lemma map_In_set {K V} `{Key K} (k k' : K) (v v' : V) (m : list (K * V)) :
  In (k', v') (JsMap.set k v m) -> (k', v') = (k, v) \/ In (k', v') m.
Proof.
  induction m as [| [k0 v0] r IH]; simpl.
  - intros [E | []]. left. now symmetry.
  - destruct (keq k k0); simpl.
    + intros [E | Hin]; [left; now symmetry | right; now right].
    + intros [E | Hin]; [right; now left |].
      destruct (IH Hin); [now left | right; now right].
Qed.


Lemma cloneAll_fold_get c : forall (comps acc : Components Value),
  NoDup (JsMap.keys comps) ->
  JsMap.get c
    (fold_left (fun cloned kv => JsMap.set (fst kv) (deepClone (snd kv)) cloned) comps acc)
  = match JsMap.get c comps with
    | Some v => Some (deepClone v)
    | None => JsMap.get c acc
    end.
Proof.
  induction comps as [| [k v] r IH]; intros acc Hnd; simpl; [reflexivity |].
  inversion Hnd as [| ? ? Hni Hnd']; subst. rewrite IH by assumption.
  destruct (N.eqb_spec c k) as [-> | Hn].
  - assert (Hr : JsMap.get k r = None).
    { apply map_get_none_has. now apply map_has_false_keys. }
    rewrite Hr. apply map_get_set_eq.
  - destruct (JsMap.get c r); [reflexivity |]. now apply map_get_set_neq.
Qed.

Lemma cloneAll_get c (comps : Components Value) :
  NoDup (JsMap.keys comps) ->
  JsMap.get c (cloneAll deepClone comps) = option_map deepClone (JsMap.get c comps).
Proof.
  intros Hnd. unfold cloneAll. rewrite cloneAll_fold_get by assumption.
  now destruct (JsMap.get c comps).
Qed.

Lemma cloneAll_fold_NoDup : forall (comps acc : Components Value),
  NoDup (JsMap.keys acc) ->
  NoDup (JsMap.keys
           (fold_left (fun cloned kv => JsMap.set (fst kv) (deepClone (snd kv)) cloned)
              comps acc)).
Proof.
  induction comps as [| [k v] r IH]; intros acc Hnd; simpl; [assumption |].
  apply IH. now apply map_keys_set_NoDup.
Qed.



Lemma cloneFiltered_NoDup (comps : Components Value) : forall ids acc,
  NoDup (JsMap.keys acc) ->
  NoDup (JsMap.keys
           (fold_left
              (fun cloned id =>
                 match JsMap.get id comps with
                 | Some v => JsMap.set id (deepClone v) cloned
                 | None => cloned
                 end)
              ids acc)).
Proof.
  induction ids as [| id ids IH]; intros acc Hnd; simpl; [assumption |].
  apply IH. destruct (JsMap.get id comps); [| assumption].
  now apply map_keys_set_NoDup.
Qed.

(** The maps built by a capture have distinct keys at both levels. *)
Lemma captureEntities_wf cm filter : forall ents acc states,
  NoDup (JsMap.keys acc) ->
  (forall e sc, In (e, sc) acc -> NoDup (JsMap.keys sc)) ->
  captureEntities deepClone ents cm filter acc = Returned states ->
  NoDup (JsMap.keys states) /\
  forall e sc, In (e, sc) states -> NoDup (JsMap.keys sc).
Proof.
  induction ents as [| e0 ents IH]; intros acc states Hnd Hin; simpl.
  - intros [= <-]. auto.
  - destruct (JsMap.get e0 cm) as [comps |]; [| discriminate].
    assert (Hset : forall t, NoDup (JsMap.keys t) ->
              NoDup (JsMap.keys (JsMap.set e0 t acc)) /\
              forall e sc, In (e, sc) (JsMap.set e0 t acc) -> NoDup (JsMap.keys sc)).
    { intros t Ht. split; [now apply map_keys_set_NoDup |].
      intros e sc Hi. apply map_In_set in Hi. destruct Hi as [[= -> ->] | Hi]; eauto. }
    destruct (filtering filter).
    + assert (Hc : NoDup (JsMap.keys
                (cloneFiltered deepClone
                   match filter with Some ids => ids | None => [] end comps))).
      { apply cloneFiltered_NoDup. constructor. }
      destruct (cloneFiltered deepClone _ comps) eqn:Hcl.
      * now apply IH.
      * destruct (Hset _ Hc). now apply IH.
    + destruct (Hset (cloneAll deepClone comps)).
      { apply cloneAll_fold_NoDup. constructor. }
      now apply IH.
Qed.

(** Only entities of the world are captured. *)
Lemma captureEntities_keys cm filter e : forall ents acc states,
  captureEntities deepClone ents cm filter acc = Returned states ->
  JsMap.has e states = true -> JsMap.has e acc = true \/ In e ents.
Proof.
  induction ents as [| e0 ents IH]; intros acc states; simpl.
  - intros [= <-]. auto.
  - destruct (JsMap.get e0 cm) as [comps |]; [| discriminate].
    assert (Hset : forall t,
              JsMap.has e (JsMap.set e0 t acc) = true ->
              JsMap.has e acc = true \/ e0 = e \/ In e ents).
    { intros t. rewrite map_has_set. cbn [keq Key_N]. intros Hh.
      apply orb_true_iff in Hh. destruct Hh as [Hh | Hh]; [| auto].
      apply N.eqb_eq in Hh. auto. }
    intros Hcap Hh. destruct (filtering filter).
    + destruct (cloneFiltered deepClone _ comps).
      * destruct (IH _ _ Hcap Hh); auto.
      * destruct (IH _ _ Hcap Hh) as [Ha | Ha]; [eauto | auto].
    + destruct (IH _ _ Hcap Hh) as [Ha | Ha]; [eauto | auto].
Qed.

(** On a store where live entities have their table the capture returns. *)
Lemma captureEntities_returns cm filter : forall ents acc,
  (forall e, In e ents -> JsMap.has e cm = true) ->
  exists states, captureEntities deepClone ents cm filter acc = Returned states.
Proof.
  induction ents as [| e0 ents IH]; intros acc Hall; simpl; [eauto |].
  destruct (map_has_get e0 cm (Hall e0 (or_introl eq_refl))) as [comps ->].
  destruct (filtering filter); [destruct (cloneFiltered deepClone _ comps) |];
    apply IH; intros e Hin; apply Hall; now right.
Qed.

(** What a full capture holds: the clone of the table of each entity. *)
Lemma captureEntities_full cm filter : forall ents acc states,
  filtering filter = false ->
  captureEntities deepClone ents cm filter acc = Returned states ->
  forall e, JsMap.get e states
            = if JsSet.has e ents
              then option_map (cloneAll deepClone) (JsMap.get e cm)
              else JsMap.get e acc.
Proof.
  induction ents as [| e0 ents IH]; intros acc states Hf; simpl.
  - intros [= <-]. reflexivity.
  - destruct (JsMap.get e0 cm) as [comps |] eqn:Hg; [| discriminate].
    rewrite Hf. intros Hcap e. rewrite (IH _ _ Hf Hcap e).
    destruct (JsSet.has e ents); [now rewrite orb_true_r |].
    rewrite orb_false_r, map_get_set. cbn [keq Key_N].
    destruct (N.eqb_spec e e0) as [-> | Hn]; [now rewrite Hg | reflexivity].
Qed.

Lemma snapshot_inversion id now filter w s :
  snapshot deepClone id now filter w = Returned (Some s) ->
  snap_components s = filter /\
  captureEntities deepClone (entities w) (components w) filter []
  = Returned (entityStates s).
Proof.
  unfold snapshot, createSnapshot.
  destruct (captureEntities deepClone (entities w) (components w) filter []);
    [| discriminate].
  intros [= <-]. auto.
Qed.

Lemma snapshot_wf_captured id now filter w s :
  snapshot deepClone id now filter w = Returned (Some s) -> snapshot_wf s.
Proof.
  intros Hs. apply snapshot_inversion in Hs. destruct Hs as [_ Hcap].
  eapply captureEntities_wf; eauto; [constructor | intros e sc []].
Qed.

Lemma snapshot_captures_live id now filter w s e :
  snapshot deepClone id now filter w = Returned (Some s) ->
  JsMap.has e (entityStates s) = true -> valid e w = true.
Proof.
  intros Hs Hh. apply snapshot_inversion in Hs. destruct Hs as [_ Hcap].
  destruct (captureEntities_keys _ _ e _ _ _ Hcap Hh) as [Ha | Ha]; [discriminate |].
  now apply set_has_In.
Qed.

Lemma snapshot_returns id now filter w :
  tables_ok w -> exists s, snapshot deepClone id now filter w = Returned (Some s).
Proof.
  intros Hok. unfold snapshot, createSnapshot.
  destruct (captureEntities_returns (components w) filter (entities w) []) as [st ->].
  - intros e Hin. apply Hok. now apply set_has_In.
  - eauto.
Qed.

(** ** Reachable worlds *)

Theorem reachable_inv w snaps : reachable deepClone w snaps -> world_inv w snaps.
Proof.
  induction 1 as [| w snaps op Hreach IH Hrev | w snaps id now filter s Hreach IH Hsnap].
  - split; [apply createWorld_inv |]. split; [| split].
    + intros g e Hin. discriminate Hin.
    + intros s e [].
    + intros s [].
  - destruct IH as (Hinv & Hsync & Hiss & Hwf).
    split; [| split; [now apply step_synced | split; [| assumption]]].
    + apply step_inv; [| assumption].
      intros s ->. specialize (Hrev s eq_refl). split; [now apply Hwf |].
      intros e. now apply Hiss.
    + intros s e Hin Hh. specialize (Hiss s e Hin Hh).
      pose proof (step_nextEntityId op w). lia.
  - destruct IH as (Hinv & Hsync & Hiss & Hwf).
    split; [assumption |]. split; [assumption |]. split.
    + intros s' e [<- | Hin] Hh; [| eauto].
      apply (proj1 (proj2 Hinv)). eapply snapshot_captures_live; eauto.
    + intros s' [<- | Hin]; [| auto]. eapply snapshot_wf_captured; eauto.
Qed.

(** ** Groups take any entity id *)

Lemma group_hasEntity_getEntities g e w :
  group_hasEntity g e w = JsSet.has e (group_getEntities g w).
Proof.
  unfold group_hasEntity, group_getEntities. now destruct (JsMap.get g (heap w)).
Qed.

(** C10: for a group [g] made by [createGroup] and any entity id [e], live
    or not, after [g.addEntity(e)] the group has [e] as a member, lists it
    among its entities, and the world lists [g] among the groups of [e];
    yet for an [e] that is not live, [get] and [has] still answer absent and
    false, since they test liveness before they look at groups. *)
Theorem group_membership_ignores_liveness w snaps (g : GroupId) (e : EntityId) :
  reachable deepClone w snaps ->
  JsMap.has g (heap w) = true ->
  let w' := group_addEntity g e w in
  group_hasEntity g e w' = true /\
  In e (group_getEntities g w') /\
  In g (getGroupsForEntity e w') /\
  (valid e w = false ->
   valid e w' = false /\ forall c, get e c w' = None /\ has e c w' = false).
Proof.
  intros Hreach Hheap w'. subst w'.
  destruct (reachable_inv w snaps Hreach) as (_ & Hsync & _).
  assert (Hmem : group_hasEntity g e (group_addEntity g e w) = true).
  { rewrite group_addEntity_hasEntity, !N.eqb_refl, Hheap. apply orb_true_r. }
  split; [exact Hmem |]. split; [| split].
  - apply set_has_In. now rewrite <- group_hasEntity_getEntities.
  - rewrite group_addEntity_groupsFor, Hheap. simpl.
    destruct (group_hasEntity g e w) eqn:Hbefore; simpl.
    + now apply Hsync.
    + apply set_In_add. now left.
  - intros Hv.
    assert (Hv' : valid e (group_addEntity g e w) = false).
    { unfold valid.
      now rewrite (proj1 (proj2 (group_addEntity_same_entities g e w))). }
    split; [exact Hv' |]. intros c. unfold get, has. now rewrite Hv'.
Qed.

(** ** revert on a store whose live entities have their table *)

Lemma currentTable_get e c w :
  JsMap.get c (currentTable e w) = if valid e w then own_get e c w else None.
Proof.
  unfold currentTable, own_get. destruct (valid e w); [| reflexivity].
  now destruct (JsMap.get e (components w)).
Qed.

Lemma revert_spec s w :
  snapshot_wf s -> tables_ok w ->
  let w' := revert deepClone s w in
  tables_ok w' /\
  (forall e, valid e w'
             = valid e w && (isPartial s || JsMap.has e (entityStates s))
               || match JsMap.get e (entityStates s) with
                  | Some sc => negb (JsMap.size sc =? 0)%nat
                  | None => false
                  end) /\
  (forall e sc,
     JsMap.get e (entityStates s) = Some sc ->
     JsMap.get e (components w')
     = if negb (valid e w) && (JsMap.size sc =? 0)%nat
       then JsMap.get e (components w)
       else Some (fst (restoreTable deepClone s e sc (currentTable e w)))) /\
  (forall e, isPartial s = true -> JsMap.get e (entityStates s) = None ->
             JsMap.get e (components w') = JsMap.get e (components w)).
Proof.
  intros [Hwf _] Hok. unfold revert.
  set (w1 := if negb (isPartial s) then despawnUnlisted s w else w).
  assert (H1 : tables_ok w1 /\
               (forall e, valid e w1
                          = valid e w && (isPartial s || JsMap.has e (entityStates s))) /\
               (forall e, JsMap.has e (entityStates s) = true ->
                          valid e w1 = valid e w /\
                          JsMap.get e (components w1) = JsMap.get e (components w)) /\
               (isPartial s = true -> w1 = w)).
  { subst w1. destruct (isPartial s); simpl.
    - split; [assumption |]. split; [| split]; auto.
      intros e. now rewrite andb_true_r.
    - destruct (despawnEach_valid s (entities w) w Hok) as [Hok1 Hv1].
      split; [assumption |]. split; [| split; [| discriminate]].
      + intros e. unfold despawnUnlisted. rewrite Hv1. fold (valid e w).
        destruct (valid e w), (JsMap.has e (entityStates s)); reflexivity.
      + intros e Hh.
        destruct (despawnEach_kept s (entities w) e w (or_introl Hh)) as (? & ? & _).
        auto. }
  destruct H1 as (Hok1 & Hv1 & Hkept & Hpart).
  destruct (restoreEntities_spec s (entityStates s) w1 Hwf Hok1) as (Hok' & Hv' & Hc').
  split; [assumption |]. split; [| split].
  - intros e. now rewrite Hv', Hv1.
  - intros e sc Hget. rewrite Hc', Hget.
    destruct (Hkept e (map_get_has _ _ _ Hget)) as [Hve Hce].
    now rewrite Hve, Hce, (currentTable_ext e w w1 Hve Hce).
  - intros e Hp Hget. rewrite Hc', Hget. now rewrite (Hpart Hp).
Qed.

Lemma restores_partial s c ids :
  isPartial s = true -> snap_components s = Some ids -> restores s c = includes c ids.
Proof. unfold restores. now intros -> ->. Qed.

(** C6: reverting a snapshot that carries a non-empty component filter
    despawns no entity and removes no component; a component outside the
    filter keeps its value; the only writes are the captured values of
    filtered components on captured entities, an entity that is not live
    being re-created first when its captured table is not empty; the ids
    issued, the groups and the archetype index are as before. *)
Theorem partial_revert_only_adds_or_overwrites s w :
  isPartial s = true -> snapshot_wf s -> tables_ok w ->
  let w' := revert deepClone s w in
  (forall e, valid e w = true -> valid e w' = true) /\
  (forall e, valid e w = false ->
     valid e w' = match JsMap.get e (entityStates s) with
                  | Some sc => negb (JsMap.size sc =? 0)%nat
                  | None => false
                  end) /\
  (forall e c, valid e w = true -> own_has e c w = true -> own_has e c w' = true) /\
  (forall e c ids, valid e w = true -> snap_components s = Some ids ->
     includes c ids = false -> own_get e c w' = own_get e c w) /\
  (forall e c, valid e w' = true ->
     own_get e c w'
     = match JsMap.get e (entityStates s) with
       | Some sc =>
           match JsMap.get c sc with
           | Some v =>
               if restores s c then Some (deepClone v)
               else if valid e w then own_get e c w else None
           | None => if valid e w then own_get e c w else None
           end
       | None => own_get e c w
       end) /\
  same_outside_tables w w'.
Proof.
  intros Hp Hwf Hok w'. subst w'.
  destruct (revert_spec s w Hwf Hok) as (_ & Hv & Hc & Hnone).
  assert (Hown : forall e c, valid e (revert deepClone s w) = true ->
     own_get e c (revert deepClone s w)
     = match JsMap.get e (entityStates s) with
       | Some sc =>
           match JsMap.get c sc with
           | Some v =>
               if restores s c then Some (deepClone v)
               else if valid e w then own_get e c w else None
           | None => if valid e w then own_get e c w else None
           end
       | None => own_get e c w
       end).
  { intros e c Hlive. unfold own_get at 1.
    destruct (JsMap.get e (entityStates s)) as [sc |] eqn:Hget.
    - rewrite (Hc e sc Hget).
      rewrite Hv, Hp, Hget in Hlive. simpl in Hlive. rewrite andb_true_r in Hlive.
      assert (Hcond : negb (valid e w) && (JsMap.size sc =? 0)%nat = false).
      { destruct (valid e w), (JsMap.size sc =? 0)%nat; simpl in *; congruence. }
      rewrite Hcond, restoreTable_get, Hp, currentTable_get; [reflexivity |].
      destruct Hwf as [_ Hsc]. eapply Hsc. eapply map_get_In; eauto.
    - unfold own_get. now rewrite (Hnone e Hp Hget). }
  assert (Hkeep : forall e, valid e w = true -> valid e (revert deepClone s w) = true).
  { intros e Hlive. now rewrite Hv, Hlive, Hp. }
  split; [exact Hkeep |]. split; [| split; [| split; [| split]]].
  - intros e Hdead. now rewrite Hv, Hdead.
  - intros e c Hlive Hhas. rewrite own_has_get in *.
    rewrite (Hown e c (Hkeep e Hlive)), Hlive.
    destruct (JsMap.get e (entityStates s)) as [sc |]; [| assumption].
    destruct (JsMap.get c sc); [| assumption].
    destruct (restores s c); [reflexivity | assumption].
  - intros e c ids Hlive Hids Hout.
    rewrite (Hown e c (Hkeep e Hlive)), Hlive, (restores_partial s c ids Hp Hids), Hout.
    destruct (JsMap.get e (entityStates s)) as [sc |]; [| reflexivity].
    now destruct (JsMap.get c sc).
  - exact Hown.
  - unfold revert. rewrite Hp. simpl. apply restoreEntities_frame.
Qed.

(** ** What [valid], [has] and [get] depend on *)

Lemma get_groups e c w :
  get e c w
  = if negb (valid e w) then None
    else if own_has e c w then own_get e c w
    else match find (fun g => group_has g c w) (getGroupsForEntity e w) with
         | Some g => group_get g c w
         | None => None
         end.
Proof.
  unfold get, getGroupsForEntity.
  now destruct (JsMap.get e (entityToGroups w)).
Qed.

Lemma has_groups e c w :
  has e c w
  = if negb (valid e w) then false
    else if own_has e c w then true
    else existsb (fun g => group_has g c w) (getGroupsForEntity e w).
Proof.
  unfold has, getGroupsForEntity.
  now destruct (JsMap.get e (entityToGroups w)).
Qed.

Lemma existsb_ext_all {A} (f g : A -> bool) (l : list A) :
  (forall x, f x = g x) -> existsb f l = existsb g l.
Proof.
  intros H. induction l as [| x l IH]; simpl; [reflexivity |].
  now rewrite H, IH.
Qed.

Lemma find_ext_all {A} (f g : A -> bool) (l : list A) :
  (forall x, f x = g x) -> find f l = find g l.
Proof.
  intros H. induction l as [| x l IH]; simpl; [reflexivity |].
  now rewrite H, IH.
Qed.

Lemma observe_ext e w w' :
  valid e w' = valid e w ->
  (valid e w = true -> forall c, own_get e c w' = own_get e c w) ->
  getGroupsForEntity e w' = getGroupsForEntity e w ->
  (forall g c, group_get g c w' = group_get g c w /\
               group_has g c w' = group_has g c w) ->
  forall c, has e c w' = has e c w /\ get e c w' = get e c w.
Proof.
  intros Hv Hown Hgs Htab c.
  rewrite !has_groups, !get_groups, Hv, Hgs, !own_has_get.
  destruct (valid e w); simpl; [| auto].
  rewrite (Hown eq_refl c).
  rewrite (existsb_ext_all _ (fun g => group_has g c w));
    [| intros g; apply (Htab g c)].
  rewrite (find_ext_all _ (fun g => group_has g c w));
    [| intros g; apply (Htab g c)].
  split; [reflexivity |].
  destruct (own_get e c w); [reflexivity |].
  destruct (find _ _); [apply (Htab g c) | reflexivity].
Qed.


(** ** spawn, despawn, set and remove, as a sequence *)












(** ** A full snapshot and its revert *)

Lemma snapshot_full_states id now filter w0 s0 :
  tables_ok w0 -> filtering filter = false ->
  snapshot deepClone id now filter w0 = Returned (Some s0) ->
  isPartial s0 = false /\
  forall e, JsMap.get e (entityStates s0)
            = if valid e w0 then Some (cloneAll deepClone (currentTable e w0)) else None.
Proof.
  intros Hok Hf Hs. apply snapshot_inversion in Hs. destruct Hs as [Hc Hcap].
  split; [unfold isPartial; now rewrite Hc |].
  intros e. rewrite (captureEntities_full _ _ _ _ _ Hf Hcap e). fold (valid e w0).
  destruct (valid e w0) eqn:Hv; [| reflexivity].
  now rewrite (tables_ok_get e w0 Hok Hv).
Qed.



Lemma reachable_run ops : forall w snaps,
  reachable deepClone w snaps ->
  existsb (@is_revert Value) ops = false ->
  reachable deepClone (run deepClone ops w) snaps.
Proof.
  induction ops as [| op ops IH]; intros w snaps Hreach Hops; simpl in *; [assumption |].
  apply orb_false_iff in Hops. destruct Hops as [Hop Hops].
  apply IH; [| assumption].
  apply reach_step; [assumption |]. intros s ->. discriminate Hop.
Qed.

(** ** The archetype index of the world *)

Lemma leaveArchetype_index a e w :
  entityToArchetype (leaveArchetype a e w) = entityToArchetype w /\
  components (leaveArchetype a e w) = components w /\
  entities (leaveArchetype a e w) = entities w /\
  nextEntityId (leaveArchetype a e w) = nextEntityId w.
Proof. unfold leaveArchetype. repeat break_match; repeat split. Qed.

Lemma leaveArchetype_NoDup a e w :
  NoDup (JsMap.keys (archetypeToEntities w)) ->
  NoDup (JsMap.keys (archetypeToEntities (leaveArchetype a e w))).
Proof.
  intros Hnd. unfold leaveArchetype.
  repeat break_match; simpl;
    repeat first [apply map_keys_delete_NoDup | apply map_keys_set_NoDup]; assumption.
Qed.

Lemma leaveArchetype_other a e w e' :
  NoDup (JsMap.keys (archetypeToEntities w)) -> e' <> e ->
  bucketsOf e' (leaveArchetype a e w) = bucketsOf e' w.
Proof.
  intros Hnd Hn. unfold leaveArchetype, bucketsOf.
  destruct (JsMap.get a (archetypeToEntities w)) as [b |] eqn:Hg; simpl.
  - assert (Hsame : bucketsIn e' (JsMap.set a (JsSet.delete e b) (archetypeToEntities w))
                    = bucketsIn e' (archetypeToEntities w)).
    { apply (bucketsIn_set_same e' _ a b); [assumption |].
      rewrite set_has_delete. simpl. now rewrite (proj2 (N.eqb_neq e' e) Hn). }
    rewrite map_get_set_eq.
    destruct (JsSet.delete e b) eqn:Hd; simpl; [| exact Hsame].
    rewrite <- Hsame, <- Hd.
    apply (bucketsIn_delete e' _ a (JsSet.delete e b)).
    + now apply map_keys_set_NoDup.
    + apply map_get_set_eq.
    + now rewrite Hd.
  - rewrite Hg. reflexivity.
Qed.

Lemma leaveArchetype_self a e w :
  NoDup (JsMap.keys (archetypeToEntities w)) -> bucketsOf e w = [a] ->
  bucketsOf e (leaveArchetype a e w) = [].
Proof.
  intros Hnd Hone. unfold bucketsOf in *.
  destruct (bucketsIn_single e _ a Hnd Hone) as [b [Hg Hb]].
  unfold leaveArchetype. rewrite Hg. simpl. rewrite map_get_set_eq.
  pose proof (bucketsIn_leave e _ a b Hnd Hone Hg) as Hleft.
  destruct (JsSet.delete e b) eqn:Hd; simpl; [| exact Hleft].
  rewrite <- Hleft, <- Hd.
  apply (bucketsIn_delete e _ a (JsSet.delete e b)).
  - now apply map_keys_set_NoDup.
  - apply map_get_set_eq.
  - now rewrite Hd.
Qed.

Lemma joinArchetype_index a e w :
  entityToArchetype (joinArchetype a e w) = JsMap.set e a (entityToArchetype w) /\
  components (joinArchetype a e w) = components w /\
  entities (joinArchetype a e w) = entities w /\
  nextEntityId (joinArchetype a e w) = nextEntityId w.
Proof. unfold joinArchetype. repeat break_match; repeat split. Qed.

Lemma joinArchetype_NoDup a e w :
  NoDup (JsMap.keys (archetypeToEntities w)) ->
  NoDup (JsMap.keys (archetypeToEntities (joinArchetype a e w))).
Proof.
  intros Hnd. unfold joinArchetype.
  repeat break_match; simpl;
    repeat first [apply map_keys_delete_NoDup | apply map_keys_set_NoDup]; assumption.
Qed.

Lemma joinArchetype_other a e w e' :
  e' <> e -> bucketsOf e' (joinArchetype a e w) = bucketsOf e' w.
Proof.
  intros Hn. unfold joinArchetype, bucketsOf, JsMap.has.
  destruct (JsMap.get a (archetypeToEntities w)) as [b |] eqn:Hg; simpl.
  - rewrite Hg. simpl. apply (bucketsIn_set_same e' _ a b); [assumption |].
    rewrite set_has_add. simpl. now rewrite (proj2 (N.eqb_neq e' e) Hn).
  - rewrite map_get_set_eq. simpl.
    rewrite (bucketsIn_set_same e' _ a []); [| apply map_get_set_eq |].
    + now apply bucketsIn_set_new.
    + rewrite set_has_add. simpl. now rewrite (proj2 (N.eqb_neq e' e) Hn).
Qed.

Lemma joinArchetype_self a e w :
  bucketsOf e w = [] -> bucketsOf e (joinArchetype a e w) = [a].
Proof.
  intros Hnone. unfold joinArchetype, bucketsOf, JsMap.has in *.
  destruct (JsMap.get a (archetypeToEntities w)) as [b |] eqn:Hg; simpl.
  - rewrite Hg. simpl. now apply bucketsIn_join.
  - rewrite map_get_set_eq. simpl. apply bucketsIn_join; [| apply map_get_set_eq].
    rewrite bucketsIn_set_new; auto.
Qed.

Lemma signatureOf_nonempty (comps : Components Value) :
  comps <> [] -> signatureOf comps <> EmptyString.
Proof.
  intros Hne. apply generate_nonempty. destruct comps as [| [k v] r]; [congruence |].
  intros Hnil.
  assert (Hin : In k (fold_left (fun acc id => JsSet.add id acc)
                        (JsMap.keys ((k, v) :: r)) [])).
  { apply In_fold_add. right. now left. }
  rewrite Hnil in Hin. destruct Hin.
Qed.

Lemma archetypeOf_truthy e w a : archetypeOf e w = Some a -> truthy (Some a) = Some a.
Proof.
  unfold archetypeOf. destruct (JsMap.get e (components w)) as [[| kv r] |];
    try discriminate.
  intros [= <-]. pose proof (signatureOf_nonempty (kv :: r)) as H.
  destruct (signatureOf (kv :: r)); [exfalso; now apply H | reflexivity].
Qed.

(** [updateEntityArchetype] brings the index up to date for its entity. *)
Lemma updateEntityArchetype_self e w old :
  NoDup (JsMap.keys (archetypeToEntities w)) ->
  indexed_at e old w ->
  (forall a, old = Some a -> truthy (Some a) = Some a) ->
  indexed_at e (archetypeOf e (updateEntityArchetype e w)) (updateEntityArchetype e w).
Proof.
  intros Hnd [Hold Hbuckets] Htruthy.
  assert (Hcomp : components (updateEntityArchetype e w) = components w)
    by apply (same_store_updateEntityArchetype e w).
  unfold archetypeOf. rewrite Hcomp. unfold updateEntityArchetype. rewrite Hold.
  assert (Hempty : indexed_at e None
            match truthy old with
            | Some a =>
                with_entityToArchetype
                  (JsMap.delete e (entityToArchetype (leaveArchetype a e w)))
                  (leaveArchetype a e w)
            | None => w
            end).
  { destruct old as [a |].
    - rewrite (Htruthy a eq_refl). split; simpl.
      + apply map_get_delete_eq.
      + now apply leaveArchetype_self.
    - simpl. split; assumption. }
  destruct (JsMap.get e (components w)) as [[| kv r] |]; try exact Hempty.
  clear Hempty. set (new := signatureOf (kv :: r)).
  destruct old as [a |].
  - destruct (String.eqb_spec a new) as [-> | Hn].
    + split; assumption.
    + rewrite (Htruthy a eq_refl).
      split.
      * rewrite (proj1 (joinArchetype_index new e _)). apply map_get_set_eq.
      * apply joinArchetype_self. now apply leaveArchetype_self.
  - simpl. split.
    + rewrite (proj1 (joinArchetype_index new e _)). apply map_get_set_eq.
    + now apply joinArchetype_self.
Qed.

Lemma updateEntityArchetype_NoDup e w :
  NoDup (JsMap.keys (archetypeToEntities w)) ->
  NoDup (JsMap.keys (archetypeToEntities (updateEntityArchetype e w))).
Proof.
  intros Hnd. unfold updateEntityArchetype.
  repeat break_match; simpl;
    repeat first [assumption | apply joinArchetype_NoDup | apply leaveArchetype_NoDup].
Qed.

Lemma bucketsOf_with_entityToArchetype x w e :
  bucketsOf e (with_entityToArchetype x w) = bucketsOf e w.
Proof. reflexivity. Qed.

Lemma updateEntityArchetype_other_entry e w e' :
  e' <> e ->
  JsMap.get e' (entityToArchetype (updateEntityArchetype e w))
  = JsMap.get e' (entityToArchetype w).
Proof.
  intros Hn. unfold updateEntityArchetype.
  repeat break_match; cbn [entityToArchetype with_entityToArchetype];
    rewrite ?(proj1 (joinArchetype_index _ _ _));
    rewrite ?map_get_set_neq by assumption;
    rewrite ?map_get_delete_neq by assumption;
    rewrite ?(proj1 (leaveArchetype_index _ _ _));
    reflexivity.
Qed.

Lemma updateEntityArchetype_other_buckets e w e' :
  NoDup (JsMap.keys (archetypeToEntities w)) -> e' <> e ->
  bucketsOf e' (updateEntityArchetype e w) = bucketsOf e' w.
Proof.
  intros Hnd Hn. unfold updateEntityArchetype.
  repeat break_match;
    rewrite ?bucketsOf_with_entityToArchetype;
    rewrite ?joinArchetype_other by assumption;
    rewrite ?leaveArchetype_other by assumption;
    reflexivity.
Qed.

Lemma updateEntityArchetype_other e w e' x :
  NoDup (JsMap.keys (archetypeToEntities w)) -> e' <> e ->
  indexed_at e' x w -> indexed_at e' x (updateEntityArchetype e w).
Proof.
  intros Hnd Hn [Hx Hb]. split.
  - now rewrite updateEntityArchetype_other_entry.
  - now rewrite updateEntityArchetype_other_buckets.
Qed.

(** The index is kept by every call but revert. *)

Lemma archetype_ok_ext w w' :
  archetypeToEntities w' = archetypeToEntities w ->
  entityToArchetype w' = entityToArchetype w ->
  components w' = components w -> entities w' = entities w ->
  nextEntityId w' = nextEntityId w ->
  archetype_ok w -> archetype_ok w'.
Proof.
  intros Ha Hb Hc He Hn.
  unfold archetype_ok, indexed_at, bucketsOf, archetypeOf, valid.
  now rewrite Ha, Hb, Hc, He, Hn.
Qed.

Lemma createWorld_archetype_ok : archetype_ok (@createWorld Value).
Proof.
  split; [constructor |]. split; [intros e Hv; discriminate Hv |].
  intros e _. split; reflexivity.
Qed.

Lemma archetypeOf_ext e w w' :
  JsMap.get e (components w') = JsMap.get e (components w) ->
  archetypeOf e w' = archetypeOf e w.
Proof. unfold archetypeOf. now intros ->. Qed.

Lemma indexed_at_ext e a w w' :
  archetypeToEntities w' = archetypeToEntities w ->
  entityToArchetype w' = entityToArchetype w ->
  indexed_at e a w -> indexed_at e a w'.
Proof. unfold indexed_at, bucketsOf. now intros -> ->. Qed.

Lemma spawn_archetype_ok w : archetype_ok w -> archetype_ok (snd (spawn w)).
Proof.
  intros (Hnd & Hlive & Hfresh). split; [exact Hnd |]. split.
  - intros e Hv. apply (indexed_at_ext e _ w); try reflexivity.
    unfold valid in Hv. cbn [spawn snd fire entities] in Hv.
    rewrite set_has_add in Hv. unfold archetypeOf. cbn [spawn snd fire components].
    rewrite map_get_set. cbn [keq Key_N] in *.
    destruct (N.eqb_spec e (nextEntityId w)) as [Heq | Hn].
    + apply Hfresh. lia.
    + apply Hlive. exact Hv.
  - intros e Hle. apply (indexed_at_ext e _ w); try reflexivity.
    apply Hfresh. cbn [spawn snd fire nextEntityId] in Hle. lia.
Qed.

Lemma despawn_archetype_ok e w : archetype_ok w -> archetype_ok (snd (despawn e w)).
Proof.
  intros (Hnd & Hlive & Hfresh).
  destruct (despawn_fields e w) as (Hn & _ & _ & Hc & Ha & Hb).
  split; [now rewrite Ha |]. split.
  - intros e' Hv. rewrite despawn_valid in Hv. apply andb_true_iff in Hv.
    destruct Hv as [Hv Hne].
    apply (indexed_at_ext e' _ w); [assumption | assumption |].
    rewrite (archetypeOf_ext e' w); [now apply Hlive |].
    rewrite Hc. destruct (fst (despawn e w)); [| reflexivity].
    rewrite andb_true_r in Hne. apply negb_true_iff, N.eqb_neq in Hne.
    now apply map_get_delete_neq.
  - intros e' Hle. apply (indexed_at_ext e' _ w); [assumption | assumption |].
    apply Hfresh. now rewrite <- Hn.
Qed.

(** A call that rewrites the table of one live entity and then updates its
    archetype. *)
Lemma table_update_archetype_ok e (t' : Components Value) w :
  archetype_ok w -> ids_issued w -> valid e w = true ->
  archetype_ok
    (updateEntityArchetype e
       (with_components (JsMap.set e t' (components w)) w)).
Proof.
  intros (Hnd & Hlive & Hfresh) Hid Hv.
  set (w1 := with_components (JsMap.set e t' (components w)) w).
  assert (Hstore : same_store w1 (updateEntityArchetype e w1))
    by apply same_store_updateEntityArchetype.
  destruct Hstore as (Hn & He & Hc & _).
  assert (Hother : forall e' a, e' <> e -> indexed_at e' a w ->
                                indexed_at e' a (updateEntityArchetype e w1)).
  { intros e' a Hne Hat. apply updateEntityArchetype_other; assumption. }
  split; [now apply updateEntityArchetype_NoDup |]. split.
  - intros e' Hv'. destruct (N.eq_dec e' e) as [-> | Hne].
    + apply (updateEntityArchetype_self e w1 (archetypeOf e w)).
      * exact Hnd.
      * now apply Hlive.
      * intros a Ha. eapply archetypeOf_truthy; eauto.
    + rewrite (archetypeOf_ext e' w).
      * apply Hother; [assumption |]. apply Hlive.
        unfold valid in *. now rewrite He in Hv'.
      * rewrite Hc. subst w1. cbn [components with_components].
        now apply map_get_set_neq.
  - intros e' Hle. rewrite Hn in Hle. apply Hother; [| now apply Hfresh].
    intros ->. specialize (Hid e Hv). subst w1. cbn [nextEntityId with_components] in Hle.
    lia.
Qed.

Lemma fire_archetype_ok ev w : archetype_ok w -> archetype_ok (fire ev w).
Proof. now apply archetype_ok_ext. Qed.

Lemma step_set_archetype_ok e c v w :
  archetype_ok w -> ids_issued w -> archetype_ok (step deepClone (OSet e c v) w).
Proof.
  intros Hok Hid. cbn [step]. unfold set.
  destruct (valid e w) eqn:Hv; simpl; [| assumption].
  destruct (JsMap.get e (components w)) as [comps |]; [| assumption].
  destruct (JsMap.has c comps); [| apply fire_archetype_ok];
    now apply table_update_archetype_ok.
Qed.

Lemma step_remove_archetype_ok e c w :
  archetype_ok w -> ids_issued w -> archetype_ok (step deepClone (ORemove e c) w).
Proof.
  intros Hok Hid. cbn [step]. unfold remove.
  destruct (valid e w) eqn:Hv; simpl; [| assumption].
  destruct (JsMap.get e (components w)) as [comps |]; [| assumption].
  destruct (JsMap.has c comps); [| assumption].
  cbn [snd]. apply fire_archetype_ok. now apply table_update_archetype_ok.
Qed.

Lemma step_group_index op w :
  entity_op op = false -> is_revert op = false ->
  archetypeToEntities (step deepClone op w) = archetypeToEntities w /\
  entityToArchetype (step deepClone op w) = entityToArchetype w.
Proof.
  destruct op; simpl; intros H1 H2; try discriminate; clear H1 H2.
  - split; reflexivity.
  - unfold removeGroup. destruct (negb (JsSet.has g (groups w))); [split; reflexivity |].
    destruct (removeGroup_loop_same_entities g (group_getEntities g w) w)
      as (_ & _ & _ & _ & Ha & Hb).
    split; assumption.
  - destruct (group_addEntity_same_entities g e w) as (_ & _ & _ & _ & Ha & Hb).
    split; assumption.
  - destruct (group_removeEntity_same_entities g e w) as (_ & _ & _ & _ & Ha & Hb).
    split; assumption.
  - unfold group_set. destruct (JsMap.get g (heap w)); split; reflexivity.
  - unfold group_remove. destruct (JsMap.get g (heap w)); split; reflexivity.
Qed.

Lemma step_archetype_ok op w :
  is_revert op = false -> ids_issued w ->
  archetype_ok w -> archetype_ok (step deepClone op w).
Proof.
  intros Hr Hid Hok. destruct (entity_op op) eqn:He.
  - destruct op; try discriminate.
    + now apply spawn_archetype_ok.
    + now apply despawn_archetype_ok.
    + now apply step_set_archetype_ok.
    + now apply step_remove_archetype_ok.
  - destruct (step_group_index op w He Hr) as [Ha Hb].
    destruct (step_group_same_tables op w He Hr) as (Hn & Hen & Hc).
    now apply (archetype_ok_ext w).
Qed.

(** Tables belong to live entities, whatever the call. *)
Lemma step_tables_live op w :
  is_revert op = false -> tables_live w -> tables_live (step deepClone op w).
Proof.
  intros Hr Hlive. destruct (entity_op op) eqn:He.
  - destruct op; try discriminate.
    + intros e. unfold valid. cbn [step spawn snd fire entities components].
      rewrite map_has_set, set_has_add. cbn [keq Key_N].
      destruct (N.eqb e (nextEntityId w)); [reflexivity |]. apply Hlive.
    + intros e'. cbn [step]. rewrite despawn_valid.
      destruct (despawn_fields e w) as (_ & _ & _ & Hc & _). rewrite Hc.
      destruct (fst (despawn e w)).
      * rewrite map_has_delete. cbn [keq Key_N]. rewrite andb_true_r.
        destruct (N.eqb e' e); [discriminate |]. simpl. intros H.
        now rewrite (Hlive e' H).
      * rewrite andb_false_r, andb_true_r. apply Hlive.
    + destruct (step_set_fields e c v w) as (_ & He' & _ & _ & _ & Hc).
      intros e'. unfold valid. rewrite He', Hc. fold (valid e' w).
      destruct (valid e w) eqn:Hv; [| apply Hlive].
      destruct (JsMap.get e (components w)) eqn:Hg; [| apply Hlive].
      rewrite map_has_set. cbn [keq Key_N].
      destruct (N.eqb_spec e' e) as [-> | Hn]; [auto | apply Hlive].
    + destruct (step_remove_fields e c w) as (_ & He' & _ & _ & _ & Hc).
      intros e'. unfold valid. rewrite He', Hc. fold (valid e' w).
      destruct (valid e w && own_has e c w) eqn:Hv; [| apply Hlive].
      apply andb_true_iff in Hv. destruct Hv as [Hv _].
      destruct (JsMap.get e (components w)) eqn:Hg; [| apply Hlive].
      rewrite map_has_set. cbn [keq Key_N].
      destruct (N.eqb_spec e' e) as [-> | Hn]; [auto | apply Hlive].
  - destruct (step_group_same_tables op w He Hr) as (_ & Hen & Hc).
    intros e. unfold valid. rewrite Hen, Hc. apply Hlive.
Qed.

(** ** Queries on a world whose index is up to date *)

Lemma set_add_NoDup (x : EntityId) (l : list EntityId) : NoDup l -> NoDup (JsSet.add x l).
Proof.
  intros Hnd. unfold JsSet.add. destruct (JsSet.has x l) eqn:Hx; [assumption |].
  apply set_has_false in Hx. apply NoDup_app; [assumption | repeat constructor; auto |].
  intros y Hy [<- | []]. contradiction.
Qed.

Lemma fold_add_NoDup (l : list EntityId) : forall acc,
  NoDup acc -> NoDup (fold_left (fun r entity => JsSet.add entity r) l acc).
Proof.
  induction l as [| x l IH]; intros acc Hnd; simpl; [assumption |].
  apply IH. now apply set_add_NoDup.
Qed.

(** The scan of all entities, taken when nothing is required. *)
Lemma scan_spec (cm : list (EntityId * Components Value)) (X : list Id) :
  forall l acc,
  let result :=
    fold_left
      (fun result entity =>
         match JsMap.get entity cm with
         | None => result
         | Some comps =>
             if existsb (fun comp => JsMap.has comp comps) X then result
             else JsSet.add entity result
         end) l acc in
  (NoDup acc -> NoDup result) /\
  forall x, In x result <->
            In x acc \/
            (In x l /\ exists comps, JsMap.get x cm = Some comps /\
                                     existsb (fun comp => JsMap.has comp comps) X = false).
Proof.
  induction l as [| e l IH]; intros acc; simpl.
  - split; [auto |]. intros x. split; [auto | intros [H | [[] _]]; exact H].
  - destruct (JsMap.get e cm) as [comps |] eqn:Hg.
    + destruct (existsb (fun comp => JsMap.has comp comps) X) eqn:Hex.
      * destruct (IH acc) as [Hnd Hin]. split; [exact Hnd |].
        intros x. rewrite Hin. split.
        -- intros [H | [H1 H2]]; [now left | right; split; [now right | exact H2]].
        -- intros [H | [[<- | H1] H2]]; [now left | | right; tauto].
           destruct H2 as [comps' [Hg' Hex']].
           assert (comps' = comps) by congruence. subst comps'. congruence.
      * destruct (IH (JsSet.add e acc)) as [Hnd Hin]. split.
        -- intros H. apply Hnd. now apply set_add_NoDup.
        -- intros x. rewrite Hin, set_In_add. split.
           ++ intros [[-> | H] | [H1 H2]]; [| now left | right; split; [now right | exact H2]].
              right. split; [now left | eauto].
           ++ intros [H | [[<- | H1] H2]]; [left; now right | left; now left | right; tauto].
    + destruct (IH acc) as [Hnd Hin]. split; [exact Hnd |].
      intros x. rewrite Hin. split.
      * intros [H | [H1 H2]]; [now left | right; split; [now right | exact H2]].
      * intros [H | [[<- | H1] H2]]; [now left | | right; tauto].
        destruct H2 as [comps' [Hg' _]]. congruence.
Qed.

(** The choice of the buckets whose signature passes the tests. *)
Lemma matchingArchetypes_spec (R X : list Id) (m : list (string * list EntityId)) :
  forall acc,
  fold_left
    (fun acc archetype =>
       if negb (forallb (fun req => includes req (parseArchetype (fst archetype))) R)
       then acc
       else if existsb (fun ex => includes ex (parseArchetype (fst archetype))) X
            then acc
            else acc ++ [fst archetype])
    m acc
  = acc ++ map fst (filter (fun b => archetypeMatches R X (fst b)) m).
Proof.
  induction m as [| [a b] r IH]; intros acc; simpl; [now rewrite app_nil_r |].
  rewrite IH. unfold archetypeMatches at 2. simpl.
  destruct (forallb _ R); simpl; [| reflexivity].
  destruct (existsb _ X); simpl; [reflexivity |].
  now rewrite <- app_assoc.
Qed.

(** The union of the chosen buckets. *)
Lemma union_spec (m : list (string * list EntityId)) : forall chosen acc,
  let result :=
    fold_left
      (fun result archetype =>
         match JsMap.get archetype m with
         | Some ents => fold_left (fun r entity => JsSet.add entity r) ents result
         | None => result
         end) chosen acc in
  (NoDup acc -> NoDup result) /\
  forall x, In x result <->
            In x acc \/
            exists a ents, In a chosen /\ JsMap.get a m = Some ents /\ In x ents.
Proof.
  induction chosen as [| a chosen IH]; intros acc; simpl.
  - split; [auto |]. intros x. split; [auto | intros [H | (a & ents & [] & _)]; exact H].
  - destruct (JsMap.get a m) as [ents |] eqn:Hg.
    + destruct (IH (fold_left (fun r entity => JsSet.add entity r) ents acc))
        as [Hnd Hin].
      split; [intros H; now apply Hnd, fold_add_NoDup |].
      intros x. rewrite Hin, In_fold_add. split.
      * intros [[H | H] | (a' & ents' & H1 & H2 & H3)].
        -- now left.
        -- right. exists a, ents. auto.
        -- right. exists a', ents'. auto.
      * intros [H | (a' & ents' & [<- | H1] & H2 & H3)].
        -- left. now left.
        -- left. right. rewrite Hg in H2. now injection H2 as <-.
        -- right. exists a', ents'. auto.
    + destruct (IH acc) as [Hnd Hin]. split; [exact Hnd |].
      intros x. rewrite Hin. split.
      * intros [H | (a' & ents' & H1 & H2 & H3)]; [now left |].
        right. exists a', ents'. auto.
      * intros [H | (a' & ents' & [<- | H1] & H2 & H3)]; [now left | congruence |].
        right. exists a', ents'. auto.
Qed.

Lemma bucketsIn_In e a (m : list (string * list EntityId)) :
  NoDup (JsMap.keys m) ->
  (In a (bucketsIn e m) <-> exists ents, JsMap.get a m = Some ents /\ In e ents).
Proof.
  intros Hnd. unfold bucketsIn. rewrite in_map_iff. split.
  - intros [[a' ents] [Ha Hin]]. simpl in Ha. subst a'.
    apply filter_In in Hin. destruct Hin as [Hin Hhas]. simpl in Hhas.
    exists ents. split; [now apply map_NoDup_get | now apply set_has_In].
  - intros [ents [Hg Hin]]. exists (a, ents). split; [reflexivity |].
    apply filter_In. split; [now apply map_get_In | now apply set_has_In].
Qed.

(** The entities that [getMatchingEntities] returns. *)
Lemma getMatchingEntities_spec (R X : list Id) w :
  NoDup (JsMap.keys (archetypeToEntities w)) ->
  NoDup (getMatchingEntities R X w) /\
  forall e, In e (getMatchingEntities R X w) <->
    match R with
    | [] => valid e w = true /\
            exists comps, JsMap.get e (components w) = Some comps /\
                          existsb (fun comp => JsMap.has comp comps) X = false
    | _ => exists a, In a (bucketsOf e w) /\ archetypeMatches R X a = true
    end.
Proof.
  intros Hnd. unfold getMatchingEntities. destruct R as [| r0 R].
  - destruct (scan_spec (components w) X (entities w) []) as [Hn Hin].
    split; [apply Hn; constructor |].
    intros e. rewrite Hin. unfold valid. rewrite set_has_In. split.
    + intros [[] | H]. exact H.
    + intros H. now right.
  - rewrite matchingArchetypes_spec. simpl app.
    destruct (union_spec (archetypeToEntities w)
                (map fst (filter (fun b => archetypeMatches (r0 :: R) X (fst b))
                            (archetypeToEntities w))) []) as [Hn Hin].
    split; [apply Hn; constructor |].
    intros e. rewrite Hin. unfold bucketsOf. split.
    + intros [[] | (a & ents & Ha & Hg & He)].
      exists a. split; [apply (bucketsIn_In e a _ Hnd); eauto |].
      apply in_map_iff in Ha. destruct Ha as [[a' b] [<- Hf]].
      apply filter_In in Hf. apply Hf.
    + intros (a & Ha & Hm). right.
      apply (bucketsIn_In e a _ Hnd) in Ha. destruct Ha as [ents [Hg He]].
      exists a, ents. split; [| auto].
      apply in_map_iff. exists (a, ents). split; [reflexivity |].
      apply filter_In. split; [now apply map_get_In | exact Hm].
Qed.

(** The calls of [each]: one for every matching entity that has a table. *)
Lemma each_calls_fold (R : list Id) (cm : list (EntityId * Components Value)) :
  forall l calls,
  fold_left
    (fun calls entity =>
       match JsMap.get entity cm with
       | None => calls
       | Some comps => calls ++ [(entity, map (fun c => JsMap.get c comps) R)]
       end) l calls
  = calls ++ flat_map
               (fun entity =>
                  match JsMap.get entity cm with
                  | None => []
                  | Some comps => [(entity, map (fun c => JsMap.get c comps) R)]
                  end) l.
Proof.
  induction l as [| e l IH]; intros calls; simpl; [now rewrite app_nil_r |].
  rewrite IH. destruct (JsMap.get e cm); [now rewrite <- app_assoc | reflexivity].
Qed.

Lemma each_spec (q : Query) w :
  NoDup (JsMap.keys (archetypeToEntities w)) ->
  NoDup (map fst (each q w)) /\
  forall e vals,
    In (e, vals) (each q w) <->
    In e (getMatchingEntities (required q) (excluded q) w) /\
    JsMap.has e (components w) = true /\
    vals = map (fun c => own_get e c w) (required q).
Proof.
  intros Hnd. unfold each. rewrite each_calls_fold. simpl app.
  destruct (getMatchingEntities_spec (required q) (excluded q) w Hnd) as [Hme _].
  generalize dependent (getMatchingEntities (required q) (excluded q) w).
  intros l Hl. split.
  - induction l as [| x l IH]; simpl; [constructor |].
    inversion Hl as [| ? ? Hni Hl']; subst.
    destruct (JsMap.get x (components w)); simpl; [| now apply IH].
    constructor; [| now apply IH].
    intros Hin. apply Hni. apply in_map_iff in Hin.
    destruct Hin as [[y vs] [Hy Hin]]. simpl in Hy. subst y.
    apply in_flat_map in Hin. destruct Hin as [z [Hz Hin]].
    destruct (JsMap.get z (components w)); [| destruct Hin].
    destruct Hin as [[= -> _] | []]. exact Hz.
  - intros e vals. rewrite in_flat_map. unfold own_get, JsMap.has. split.
    + intros [x [Hx Hin]].
      destruct (JsMap.get x (components w)) as [comps |] eqn:Hg; [| destruct Hin].
      destruct Hin as [[= -> <-] | []]. rewrite Hg. auto.
    + intros (Hin & Hhas & ->). exists e. split; [exact Hin |].
      destruct (JsMap.get e (components w)); [now left | discriminate].
Qed.

Lemma signature_has c (comps : Components Value) :
  0 < c -> includes c (parseArchetype (signatureOf comps)) = JsMap.has c comps.
Proof.
  intros Hc. unfold signatureOf. rewrite includes_parse by assumption.
  apply eq_true_iff_eq. rewrite includes_In, In_fold_add, map_has_keys.
  simpl. tauto.
Qed.

Lemma forallb_ext_in {A} (f g : A -> bool) (l : list A) :
  (forall x, In x l -> f x = g x) -> forallb f l = forallb g l.
Proof.
  induction l as [| x l IH]; simpl; intros H; [reflexivity |].
  rewrite (H x (or_introl eq_refl)), IH; auto.
Qed.

Lemma existsb_ext_in {A} (f g : A -> bool) (l : list A) :
  (forall x, In x l -> f x = g x) -> existsb f l = existsb g l.
Proof.
  induction l as [| x l IH]; simpl; intros H; [reflexivity |].
  rewrite (H x (or_introl eq_refl)), IH; auto.
Qed.

(** The tests on the signature of a table are the tests on the table. *)
Lemma archetypeMatches_signature (R X : list Id) (comps : Components Value) :
  Forall (fun c => 0 < c) (R ++ X) ->
  archetypeMatches R X (signatureOf comps)
  = forallb (fun c => JsMap.has c comps) R
    && negb (existsb (fun c => JsMap.has c comps) X).
Proof.
  intros Hpos. rewrite Forall_forall in Hpos. unfold archetypeMatches. f_equal.
  - apply forallb_ext_in. intros c Hc. apply signature_has, Hpos, in_or_app. now left.
  - f_equal. apply existsb_ext_in. intros c Hc.
    apply signature_has, Hpos, in_or_app. now right.
Qed.

(** On a world whose archetype index is up to date, [each] (and so
    [collect]) calls back exactly once for every live entity whose own table
    has all required and no excluded component, with the values of its own
    table in the order of the required list. *)
Theorem query_correct_on_consistent_index (q : Query) w :
  tables_ok w -> tables_live w -> archetype_ok w ->
  Forall (fun c => 0 < c) (required q ++ excluded q) ->
  NoDup (map fst (each q w)) /\
  forall e vals,
    In (e, vals) (each q w) <->
    matches q e w = true /\ vals = map (fun c => own_get e c w) (required q).
Proof.
  intros Hok Hlive (Hnd & Hidx & _) Hpos.
  destruct (each_spec q w Hnd) as [Hone Hcalls]. split; [exact Hone |].
  destruct (getMatchingEntities_spec (required q) (excluded q) w Hnd) as [_ Hme].
  intros e vals. rewrite Hcalls, Hme. unfold matches, own_has.
  split.
  - intros (Hin & Htab & ->). split; [| reflexivity].
    pose proof (Hlive e Htab) as Hv. rewrite Hv. simpl.
    apply map_has_get in Htab. destruct Htab as [comps Hg]. rewrite Hg.
    destruct (required q) as [| r0 R] eqn:HR.
    + destruct Hin as (_ & comps' & Hg' & Hex). simpl.
      assert (comps' = comps) by congruence. subst. now rewrite Hex.
    + destruct Hin as (a & Ha & Hm). destruct (Hidx e Hv) as [_ Hb].
      unfold archetypeOf in Hb. rewrite Hg in Hb. rewrite Hb in Ha.
      destruct comps as [| kv r]; [destruct Ha |].
      destruct Ha as [<- | []].
      rewrite archetypeMatches_signature in Hm by assumption. exact Hm.
  - intros [Hm ->]. apply andb_true_iff in Hm. destruct Hm as [Hm Hex].
    apply andb_true_iff in Hm. destruct Hm as [Hv Hall].
    pose proof (Hok e Hv) as Htab. split; [| split; [exact Htab | reflexivity]].
    apply map_has_get in Htab. destruct Htab as [comps Hg]. rewrite Hg in *.
    destruct (required q) as [| r0 R] eqn:HR.
    + split; [exact Hv |]. exists comps. split; [reflexivity |].
      now apply negb_true_iff.
    + exists (signatureOf comps). destruct (Hidx e Hv) as [_ Hb].
      unfold archetypeOf in Hb. rewrite Hg in Hb.
      destruct comps as [| kv r].
      * simpl in Hall. discriminate.
      * rewrite Hb. split; [now left |].
        rewrite archetypeMatches_signature by assumption.
        now rewrite Hall, Hex.
Qed.

(** ** Worlds reached without a revert *)

Lemma tables_live_new : tables_live (@createWorld Value).
Proof. intros e H. discriminate H. Qed.

Lemma run_index_inv ops : forall w,
  existsb (@is_revert Value) ops = false ->
  store_inv w -> tables_live w -> archetype_ok w ->
  store_inv (run deepClone ops w) /\ tables_live (run deepClone ops w) /\
  archetype_ok (run deepClone ops w).
Proof.
  induction ops as [| op ops IH]; intros w Hops Hinv Hlive Hidx; simpl in *; [auto |].
  apply orb_false_iff in Hops. destruct Hops as [Hop Hops].
  apply IH; [assumption | | |].
  - apply step_inv; [| assumption]. intros s ->. discriminate Hop.
  - now apply step_tables_live.
  - apply step_archetype_ok; [assumption | apply Hinv | assumption].
Qed.

(** X1: With set, remove, spawn, despawn and the calls on groups, but no revert,
    every live entity with a non-empty own table lies in exactly one bucket,
    whose parsed signature lists the component ids of that table, and a live
    entity with an empty table lies in none. *)
Theorem archetype_index_kept_without_revert (ops : list (Op Value)) :
  existsb (@is_revert Value) ops = false ->
  let w := run deepClone ops createWorld in
  forall e, valid e w = true ->
    match ownComponentIds e w with
    | [] => bucketsOf e w = []
    | ids =>
        exists a, bucketsOf e w = [a] /\
                  forall c, 0 < c -> includes c (parseArchetype a) = includes c ids
    end.
Proof.
  intros Hops w e Hv.
  destruct (run_index_inv ops createWorld Hops createWorld_inv tables_live_new
              createWorld_archetype_ok) as ((Hok & _) & _ & (_ & Hidx & _)).
  fold w in Hok, Hidx. destruct (Hidx e Hv) as [_ Hb].
  unfold ownComponentIds, archetypeOf in *.
  destruct (JsMap.get e (components w)) as [[| kv r] |]; try exact Hb.
  exists (signatureOf (kv :: r)). split; [exact Hb |].
  intros c Hc. rewrite signature_has by assumption.
  apply eq_true_iff_eq. rewrite includes_In. exact (map_has_keys c (kv :: r)).
Qed.

(** X2: In every state reached without a revert, [each] (and so [collect])
    of a query over positive component ids calls back exactly once for every
    live entity whose own table has all required and no excluded component,
    with the values of its own table in the order of the required list. *)
Theorem query_correct_without_revert (ops : list (Op Value)) (q : Query) :
  existsb (@is_revert Value) ops = false ->
  Forall (fun c => 0 < c) (required q ++ excluded q) ->
  let w := run deepClone ops createWorld in
  NoDup (map fst (each q w)) /\
  forall e vals,
    In (e, vals) (each q w) <->
    matches q e w = true /\ vals = map (fun c => own_get e c w) (required q).
Proof.
  intros Hops Hpos w.
  destruct (run_index_inv ops createWorld Hops createWorld_inv tables_live_new
              createWorld_archetype_ok) as ((Hok & _) & Hlive & Hidx).
  now apply query_correct_on_consistent_index.
Qed.

(** ** Where the code departs from its documentation *)

(** C1 (the code at two failing inputs).  After spawn, set and despawn the
    entity is gone from the world and still sits in the bucket of its old
    archetype; and after set, remove and a revert to a snapshot taken in
    between, the live entity owns a component and sits in no bucket.
    [despawn] and [revert] never call [updateEntityArchetype], which [set]
    and [remove] do call: without a revert the index is right for every live
    entity ([archetype_index_kept_without_revert]). *)
Theorem despawn_and_revert_leave_archetype_index_stale (v : Value) :
  let w := run deepClone [OSpawn; OSet 1 1 v] createWorld in
  (fst (despawn 1 w) = true /\
   valid 1 (snd (despawn 1 w)) = false /\
   bucketsOf 1 (snd (despawn 1 w)) = ["1"%string]) /\
  match snapshot deepClone 1 0 None w with
  | Returned (Some s) =>
      let w' := run deepClone [ORemove 1 1; ORevert s] w in
      valid 1 w' = true /\
      ownComponentIds 1 w' = [1] /\
      bucketsOf 1 w' = []
  | _ => False
  end.
Proof.
  split; [repeat split |].
  cbv beta iota zeta delta [snapshot createSnapshot]. simpl captureEntities.
  repeat split.
Qed.

(** C2 (the code at two failing inputs).  First, the entity is live and
    owns the required component, yet the query makes no call for it: the
    bucket it should be found in was never rebuilt by [revert].  Second, the
    entity no longer owns component 1, which [revert] deleted, yet it still
    sits in bucket "1|2", so the query for component 1 calls back for it with
    an absent value.  Without a revert every query is answered as claimed
    ([query_correct_without_revert]). *)
Theorem query_misses_entity_restored_by_revert (v v' : Value) :
  let w := run deepClone [OSpawn; OSet 1 1 v] createWorld in
  match snapshot deepClone 1 0 None w with
  | Returned (Some s) =>
      let w' := run deepClone [ORemove 1 1; ORevert s] w in
      valid 1 w' = true /\
      own_get 1 1 w' = Some (deepClone (deepClone v)) /\
      each (query [1]) w' = [] /\
      collect (query [1]) w' = []
  | _ => False
  end /\
  let u := run deepClone [OSpawn; OSet 1 2 v] createWorld in
  match snapshot deepClone 1 0 None u with
  | Returned (Some s) =>
      let u' := run deepClone [OSet 1 1 v'; ORevert s] u in
      valid 1 u' = true /\
      own_has 1 1 u' = false /\
      each (query [1]) u' = [(1, [None])]
  | _ => False
  end.
Proof.
  cbv beta iota zeta delta [snapshot createSnapshot]. simpl captureEntities.
  repeat split.
Qed.

(** C4 (the code at the failing input).  In a world without entities
    [snapshot] returns a snapshot with an empty state map, not [undefined];
    nothing in [createSnapshot] ever returns [undefined], and on a store
    whose live entities have their table it returns a snapshot whatever the
    filter. *)
Theorem snapshot_of_empty_world_is_not_absent (id now : N) (filter : option (list Id)) :
  snapshot deepClone id now filter (@createWorld Value)
  = Returned (Some (mkSnapshot id now [] filter)) /\
  (forall w, snapshot deepClone id now filter w <> Returned None) /\
  (forall w, tables_ok w ->
             exists s, snapshot deepClone id now filter w = Returned (Some s)).
Proof.
  split; [reflexivity |]. split.
  - intros w. unfold snapshot. now destruct (createSnapshot _ _ _ _ _ _).
  - intros w. apply snapshot_returns.
Qed.

End WorldFacts.

(** * The theorems at concrete worlds *)



Lemma partial_revert_only_adds_or_overwrites_witness :
  let clone := fun v : N => v in
  let w0 := run clone [OSpawn; OSet 1 1 10; OSet 1 2 5] createWorld in
  let s := mkSnapshot 1 0 [(1, [(1, 10)])] (Some [1]) in
  let w := run clone [OSet 1 1 99; OSet 1 2 6; OSet 1 3 7] w0 in
  let w' := revert clone s w in
  isPartial s = true /\
  own_get 1 2 w' = Some 6 /\ own_has 1 3 w' = true /\ own_get 1 1 w' = Some 10.
Proof.
  intros clone w0 s w w'.
  assert (Hwf : snapshot_wf s).
  { apply (snapshot_wf_captured N clone 1 0 (Some [1]) w0). reflexivity. }
  assert (Hreach : reachable clone w []).
  { apply reachable_run; [| reflexivity].
    apply reachable_run; [apply reach_new | reflexivity]. }
  destruct (reachable_inv N clone w [] Hreach) as ((Hok & _) & _).
  destruct (partial_revert_only_adds_or_overwrites N clone s w eq_refl Hwf Hok)
    as (_ & _ & Hhas & Hout & Hown & _).
  split; [reflexivity |]. split; [| split].
  - exact (Hout 1 2 [1] eq_refl eq_refl eq_refl).
  - exact (Hhas 1 3 eq_refl eq_refl).
  - exact (Hown 1 1 eq_refl).
Defined.

Lemma entity_ids_never_reused_witness :
  let clone := fun v : N => v in
  let w := snd (spawn (@createWorld N)) in
  let s := mkSnapshot 1 0 [(2, [(1, 10)])] None in
  let ops1 := [OSet 2 1 10] in
  let ops2 := [ORevert s; OSpawn] in
  let w2 := snd (despawn 2 (run clone ops1 (snd (spawn w)))) in
  fst (spawn w) = 2 /\
  valid 2 w2 = false /\
  valid 2 (run clone ops2 w2) = true /\
  fst (spawn (run clone ops2 w2)) <> 2.
Proof.
  intros clone w s ops1 ops2 w2.
  destruct (entity_ids_never_reused N clone w ops1 ops2 eq_refl)
    as (Hdead & Hfresh & _).
  split; [reflexivity |]. split; [exact Hdead |]. split; [reflexivity | exact Hfresh].
Defined.

Lemma group_membership_ignores_liveness_witness :
  let clone := fun v : N => v in
  let w := run clone [OCreateGroup; OGroupSet 1 7 42] createWorld in
  let w' := group_addEntity 1 5 w in
  valid 5 w = false /\
  group_hasEntity 1 5 w' = true /\
  In 1 (getGroupsForEntity 5 w') /\
  get 5 7 w' = None /\ has 5 7 w' = false.
Proof.
  intros clone w w'.
  assert (Hreach : reachable clone w []).
  { apply reachable_run; [apply reach_new | reflexivity]. }
  destruct (group_membership_ignores_liveness N clone w [] 1 5 Hreach eq_refl)
    as (Hmem & _ & Hrev & Hdead).
  split; [reflexivity |]. split; [exact Hmem |]. split; [exact Hrev |].
  exact (proj2 (Hdead eq_refl) 7).
Defined.

Lemma remove_acts_on_own_table_only_witness :
  let w := run (fun v : N => v)
             [OSpawn; OCreateGroup; OAddEntity 1 1; OGroupSet 1 7 42]
             createWorld in
  has 1 7 w = true /\ fst (remove 1 7 w) = false /\ snd (remove 1 7 w) = w /\
  group_get 1 7 (snd (remove 1 7 w)) = Some 42.
Proof.
  intros w.
  destruct (remove_acts_on_own_table_only N 1 7 w) as (Hr & Hf & _ & _ & _ & Hg & _).
  split; [reflexivity |]. split; [exact Hr |]. split; [apply Hf; exact Hr |].
  rewrite (proj1 (conj (Hg 1 7) I)). reflexivity.
Defined.

(** * Further properties of events *)

(** X3: [connect] gives the new handler an id that no connected handler has,
    puts it after the handlers that are connected and keeps those as they
    are. *)
Theorem connect_adds_fresh_connection (cb : Event.Callback) (ev : Event.t) :
  Event.wf ev ->
  let id := fst (Event.connect cb ev) in
  let ev' := snd (Event.connect cb ev) in
  JsMap.has id (Event.connections ev) = false /\
  Event.connections ev' = Event.connections ev ++ [(id, cb)] /\
  Event.getConnectionCount ev' = S (Event.getConnectionCount ev) /\
  Event.wf ev'.
Proof.
  intros Hwf id ev'. subst id ev'.
  pose proof (wf_nextId_fresh ev Hwf) as Hfresh.
  pose proof (connect_connections cb ev Hwf) as Hconn.
  split; [exact Hfresh |]. split; [exact Hconn |]. split.
  - unfold Event.getConnectionCount, JsMap.size.
    rewrite Hconn, length_app. simpl. lia.
  - exact (connect_wf cb ev Hwf).
Qed.

(** X4: Disconnecting is final and may be repeated: the handler of a
    connection that [connect] has made is not called by a later [fire],
    whatever the handlers that run connect, a second [Disconnect] changes
    nothing, and no other connection is touched. *)
Theorem disconnect_is_final_and_idempotent (id : N) (ev : Event.t) :
  id < Event.nextId ev ->
  let ev' := Event.Disconnect id ev in
  ~ In id (fst (Event.fire ev')) /\
  Event.Disconnect id ev' = ev' /\
  (forall id', id' <> id ->
     JsMap.get id' (Event.connections ev') = JsMap.get id' (Event.connections ev)) /\
  Event.nextId ev' = Event.nextId ev.
Proof.
  intros Hlt ev'. subst ev'. split; [| split; [| split]].
  - intros Hin. apply fire_calls in Hin. destruct Hin as [Hin | Hle].
    + apply map_has_keys in Hin. rewrite Disconnect_has, N.eqb_refl in Hin. discriminate.
    + simpl in Hle. lia.
  - unfold Event.Disconnect. simpl. f_equal.
    apply map_delete_absent.
    change (JsMap.has id (Event.connections (Event.Disconnect id ev)) = false).
    now rewrite Disconnect_has, N.eqb_refl.
  - intros id' Hne. rewrite Disconnect_get.
    now rewrite (proj2 (N.eqb_neq id' id) Hne).
  - reflexivity.
Qed.

(** X5: [disconnectAll] leaves no handler, so that a [fire] calls nobody, and it
    keeps the id counter: the next handler gets an id that none of the
    dropped ones had, and a [Disconnect] kept from before cannot remove it. *)
Theorem disconnectAll_keeps_the_id_counter (cb : Event.Callback) (ev : Event.t) :
  Event.wf ev ->
  let ev0 := Event.disconnectAll ev in
  let id' := fst (Event.connect cb ev0) in
  let ev1 := snd (Event.connect cb ev0) in
  Event.getConnectionCount ev0 = 0%nat /\
  Event.fire ev0 = ([], ev0) /\
  Event.connections ev1 = [(id', cb)] /\
  forall id, In id (JsMap.keys (Event.connections ev)) ->
             id <> id' /\ Event.Disconnect id ev1 = ev1.
Proof.
  intros [_ Hlt] ev0 id' ev1. subst ev0 id' ev1. simpl.
  split; [reflexivity |]. split; [reflexivity |]. split; [reflexivity |].
  intros id Hin. apply Hlt in Hin.
  split; [lia |].
  unfold Event.Disconnect. simpl.
  destruct (N.eqb_spec id (Event.nextId ev)) as [-> | Hne]; [lia | reflexivity].
Qed.

(** X6: What a [fire] does to the event is what the handlers that ran did:
    the counter moves by the number of handlers they connected; a
    connection found after the [fire] was there before it, with the same
    handler, or got its id during it; and a connection that was there
    before it is gone exactly when a handler that ran disconnected it. *)
Theorem fire_only_removes_what_handlers_disconnect (ev : Event.t) :
  Event.wf ev ->
  let ran := fst (Event.deliver ev) in
  let ev' := snd (Event.fire ev) in
  fst (Event.fire ev) = JsMap.keys ran /\
  Event.nextId ev'
  = Event.nextId ev
    + N.of_nat (List.length (flat_map (fun p => Event.cb_connects (snd p)) ran)) /\
  (forall id cb, JsMap.get id (Event.connections ev') = Some cb ->
     JsMap.get id (Event.connections ev) = Some cb \/
     Event.nextId ev <= id < Event.nextId ev') /\
  (forall id, JsMap.has id (Event.connections ev) = true ->
     (JsMap.has id (Event.connections ev') = false <->
      exists id' cb', In (id', cb') ran /\ In id (Event.cb_disconnects cb'))).
Proof.
  intros Hwf ran ev'. subst ran ev'.
  split; [reflexivity |]. split; [apply fire_nextId |]. split.
  - intros id cb Hget. destruct (N.lt_ge_cases id (Event.nextId ev)) as [Hlt | Hge].
    + left. rewrite (fire_get ev id Hlt) in Hget.
      now destruct (existsb _ (fst (Event.deliver ev))).
    + right. split; [exact Hge |].
      apply (proj2 (fire_wf ev Hwf)). apply map_has_keys. eapply map_get_has; eauto.
  - intros id Hlive.
    assert (Hlt : id < Event.nextId ev) by (apply (proj2 Hwf); now apply map_has_keys).
    unfold JsMap.has at 1. rewrite (fire_get ev id Hlt).
    destruct (existsb _ (fst (Event.deliver ev))) eqn:Hex.
    + split; [| reflexivity]. intros _.
      apply existsb_exists in Hex. destruct Hex as [[id' cb'] [Hin Hp]].
      exists id', cb'. split; [exact Hin |]. now apply set_has_In.
    + split.
      * unfold JsMap.has in Hlive.
        destruct (JsMap.get id (Event.connections ev)); discriminate.
      * intros (id' & cb' & Hin & Hd). exfalso.
        assert (Hex' : existsb (fun p => JsSet.has id (Event.cb_disconnects (snd p)))
                         (fst (Event.deliver ev)) = true).
        { apply existsb_exists. exists (id', cb'). split; [exact Hin |].
          now apply set_has_In. }
        congruence.
Qed.

(** X7: The handler of [wait] is called by the next [fire] and by no later one,
    provided no handler connected before it disconnects the id it gets. *)
Theorem wait_is_one_shot (ev : Event.t) :
  Event.wf ev ->
  (forall id cb, In (id, cb) (Event.connections ev) ->
                 ~ In (Event.nextId ev) (Event.cb_disconnects cb)) ->
  let id := fst (Event.wait ev) in
  let ev1 := snd (Event.wait ev) in
  let ev2 := snd (Event.fire ev1) in
  JsMap.has id (Event.connections ev1) = true /\
  In id (fst (Event.fire ev1)) /\
  JsMap.has id (Event.connections ev2) = false /\
  ~ In id (fst (Event.fire ev2)).
Proof.
  intros Hwf Hothers id ev1 ev2.
  set (self := [Event.ADisconnect (Event.nextId ev)]).
  assert (Hid : id = Event.nextId ev) by reflexivity.
  assert (Hwf1 : Event.wf ev1) by exact (connect_wf self ev Hwf).
  assert (Hconn : Event.connections ev1 = Event.connections ev ++ [(id, self)]).
  { exact (connect_connections self ev Hwf). }
  assert (Hhas : JsMap.has id (Event.connections ev1) = true).
  { apply map_has_keys. rewrite Hconn. unfold JsMap.keys. rewrite map_app.
    apply in_or_app. right. now left. }
  assert (Hcalled : In id (fst (Event.fire ev1))).
  { apply (fire_called_iff ev1 (Event.connections ev) id self [] Hwf1 Hconn).
    intros id' cb' Hin _. rewrite Hid. eauto. }
  assert (Hlt : id < Event.nextId ev1) by (simpl; lia).
  assert (Hgone : JsMap.has id (Event.connections ev2) = false).
  { unfold JsMap.has. subst ev2. rewrite (fire_get ev1 id Hlt).
    assert (Hex : existsb (fun p => JsSet.has id (Event.cb_disconnects (snd p)))
                    (fst (Event.deliver ev1)) = true).
    { apply existsb_exists. exists (id, self). split.
      - apply deliver_connected; [exact Hwf1 | | exact Hcalled].
        rewrite Hconn. apply in_or_app. right. now left.
      - simpl. rewrite Hid, N.eqb_refl. reflexivity. }
    now rewrite Hex. }
  repeat split; try assumption.
  intros Hin. apply fire_calls in Hin. destruct Hin as [Hin | Hle].
  - apply map_has_keys in Hin. congruence.
  - pose proof (fire_nextId_le ev1) as H. fold ev2 in H. lia.
Qed.

(** * Further properties of archetype signatures *)

Lemma sort_inner_min : forall rest x,
  fst (sort_inner x rest) <= x /\
  Forall (N.le (fst (sort_inner x rest))) (snd (sort_inner x rest)) /\
  List.length (snd (sort_inner x rest)) = List.length rest.
Proof.
  induction rest as [| y r IH]; intros x; simpl.
  - split; [lia |]. split; [constructor | reflexivity].
  - destruct (N.ltb_spec y x) as [Hlt | Hge].
    + destruct (IH y) as (Hm & Hall & Hlen).
      destruct (sort_inner y r) as [m r']; simpl in *.
      split; [lia |]. split; [constructor; [lia | assumption] | now rewrite Hlen].
    + destruct (IH x) as (Hm & Hall & Hlen).
      destruct (sort_inner x r) as [m r']; simpl in *.
      split; [lia |]. split; [constructor; [lia | assumption] | now rewrite Hlen].
Qed.

Lemma sort_outer_sorted : forall fuel a,
  (List.length a <= fuel)%nat -> StronglySorted N.le (sort_outer fuel a).
Proof.
  induction fuel as [| f IH]; intros a Hlen.
  - destruct a; [constructor | simpl in Hlen; lia].
  - destruct a as [| x rest]; [constructor |]. simpl.
    destruct (sort_inner_min rest x) as (_ & Hall & Hl).
    destruct (sort_inner x rest) as [m rest']; simpl in *.
    constructor.
    + apply IH. lia.
    + rewrite Forall_forall in *. intros y Hy. apply Hall.
      eapply Permutation_in; [symmetry; apply sort_outer_perm | exact Hy].
Qed.

Lemma manual_sort_sorted a : StronglySorted N.le (manual_sort a).
Proof. apply sort_outer_sorted. reflexivity. Qed.

(** Two sorted lists with the same elements are the same list. *)
Lemma sorted_perm_eq : forall l1 l2 : list N,
  StronglySorted N.le l1 -> StronglySorted N.le l2 -> Permutation l1 l2 -> l1 = l2.
Proof.
  induction l1 as [| x1 l1 IH]; intros l2 H1 H2 Hp.
  - apply Permutation_nil in Hp. now subst.
  - destruct l2 as [| x2 l2]; [apply Permutation_sym, Permutation_nil in Hp; discriminate |].
    inversion H1 as [| ? ? Hs1 Hall1]; subst.
    inversion H2 as [| ? ? Hs2 Hall2]; subst.
    rewrite Forall_forall in Hall1, Hall2.
    assert (Hx : x1 = x2).
    { assert (H12 : x1 <= x2).
      { assert (Hin : In x2 (x1 :: l1)).
        { eapply Permutation_in; [symmetry; exact Hp | now left]. }
        destruct Hin as [-> | Hin]; [lia | now apply Hall1]. }
      assert (H21 : x2 <= x1).
      { assert (Hin : In x1 (x2 :: l2)).
        { eapply Permutation_in; [exact Hp | now left]. }
        destruct Hin as [-> | Hin]; [lia | now apply Hall2]. }
      lia. }
    subst x2. f_equal. apply IH; try assumption.
    now apply Permutation_cons_inv in Hp.
Qed.

Lemma tostring_inj (l1 l2 : list N) : map tostring l1 = map tostring l2 -> l1 = l2.
Proof.
  intros H. apply (f_equal (map tonumber_or_0)) in H. rewrite !map_map in H.
  rewrite (map_ext _ (fun n => n) tonumber_tostring) in H.
  rewrite (map_ext _ (fun n => n) tonumber_tostring) in H.
  now rewrite !map_id in H.
Qed.

Lemma generate_sorted_inj (ids ids' : list Id) :
  generateArchetypeSignature ids = generateArchetypeSignature ids' ->
  manual_sort ids = manual_sort ids'.
Proof.
  intros Heq.
  assert (Hnil : forall l l' : list Id,
            manual_sort l = [] ->
            generateArchetypeSignature l = generateArchetypeSignature l' ->
            manual_sort l' = []).
  { intros l l' Hl He.
    assert (l = []) as ->.
    { apply Permutation_nil. rewrite <- Hl. symmetry. apply manual_sort_perm. }
    destruct l' as [| x l']; [reflexivity |].
    exfalso. apply (generate_nonempty (x :: l')); [discriminate |]. now rewrite <- He. }
  destruct (manual_sort ids) as [| x l] eqn:E1.
  - symmetry. now apply (Hnil ids ids').
  - destruct (manual_sort ids') as [| x' l'] eqn:E2.
    + rewrite (Hnil ids' ids E2 (eq_sym Heq)) in E1. discriminate.
    + unfold generateArchetypeSignature in Heq. rewrite E1, E2 in Heq.
      apply (f_equal (split "|")) in Heq.
      rewrite !split_concat in Heq;
        try discriminate;
        try (apply Forall_forall; intros t Hin; apply in_map_iff in Hin;
             destruct Hin as [n [<- _]]; apply tostring_no_bar).
      now apply tostring_inj.
Qed.

Lemma includes_zero_parse (a : string) : includes 0 (parseArchetype a) = false.
Proof.
  destruct (includes 0 (parseArchetype a)) eqn:E; [| reflexivity].
  apply includes_In in E. unfold parseArchetype in E. apply filter_In in E.
  destruct E as [_ E]. discriminate.
Qed.

(** X8: The manual sort of [generateArchetypeSignature] leaves the ids in
    ascending order and loses or adds none. *)
Theorem manual_sort_sorts (a : list Id) :
  StronglySorted N.le (manual_sort a) /\ Permutation a (manual_sort a).
Proof. split; [apply manual_sort_sorted | apply manual_sort_perm]. Qed.

(** X9: Two collections of component ids have the same signature exactly when
    they hold the same ids the same number of times, in whatever order. *)
Theorem signature_identifies_component_set (ids ids' : list Id) :
  generateArchetypeSignature ids = generateArchetypeSignature ids' <->
  Permutation ids ids'.
Proof.
  split.
  - intros Heq. apply generate_sorted_inj in Heq.
    etransitivity; [apply manual_sort_perm |]. rewrite Heq.
    symmetry. apply manual_sort_perm.
  - intros Hp. unfold generateArchetypeSignature. f_equal. f_equal.
    apply sorted_perm_eq; try apply manual_sort_sorted.
    etransitivity; [symmetry; apply manual_sort_perm |].
    etransitivity; [exact Hp | apply manual_sort_perm].
Qed.

(** X10: Reading a signature back, as [getMatchingEntities] does, gives the ids
    in ascending order without the id 0, which no parsed signature holds. *)
Theorem signature_round_trip (ids : list Id) :
  parseArchetype (generateArchetypeSignature ids)
  = filter (fun id => 0 <? id) (manual_sort ids) /\
  (forall c, 0 < c ->
     includes c (parseArchetype (generateArchetypeSignature ids)) = includes c ids) /\
  includes 0 (parseArchetype (generateArchetypeSignature ids)) = false.
Proof.
  split; [apply parse_generate |].
  split; [intros c Hc; now apply includes_parse | apply includes_zero_parse].
Qed.

(** * The component registry *)

Lemma registerAll_spec : forall names r,
  registry_ok r ->
  let ids := fst (registerAll names r) in
  let r' := snd (registerAll names r) in
  registry_ok r' /\
  componentRegistry r' = componentRegistry r ++ ids /\
  map snd ids = map (fun k => nextComponentId r + N.of_nat k) (seq 0 (List.length ids)) /\
  nextComponentId r' = nextComponentId r + N.of_nat (List.length ids) /\
  (forall name, JsMap.has name (componentRegistry r') = true <->
                JsMap.has name (componentRegistry r) = true \/ In name names).
Proof.
  induction names as [| name rest IH]; intros r Hok; simpl.
  - split; [exact Hok |]. split; [now rewrite app_nil_r |].
    split; [reflexivity |]. split; [lia |].
    intros name. split; [auto | intros [H | []]; exact H].
  - unfold component. destruct (JsMap.has name (componentRegistry r)) eqn:Hhas.
    + destruct (IH r Hok) as (Hok' & Hreg & Hids & Hnext & Hnames).
      split; [exact Hok' |]. split; [exact Hreg |]. split; [exact Hids |].
      split; [exact Hnext |].
      intros n. rewrite Hnames. split; [tauto | intros [H | [<- | H]]; auto].
    + set (r1 := {| componentRegistry := JsMap.set name (nextComponentId r) (componentRegistry r);
                    nextComponentId := nextComponentId r + 1 |}).
      assert (Hset : componentRegistry r1 = componentRegistry r ++ [(name, nextComponentId r)]).
      { simpl. now apply map_set_absent. }
      assert (Hok1 : registry_ok r1).
      { destruct Hok as (Hnd & Hrange & Hinj & Hpos). unfold registry_ok. rewrite Hset.
        unfold JsMap.keys. rewrite !map_app. simpl. split; [| split; [| split]].
        - apply NoDup_app; [exact Hnd | repeat constructor; auto |].
          intros x Hx [<- | []]. apply map_has_keys in Hx. congruence.
        - intros n id Hin. apply in_app_or in Hin.
          destruct Hin as [Hin | [[= <- <-] | []]].
          + apply Hrange in Hin. lia.
          + lia.
        - apply NoDup_app; [exact Hinj | repeat constructor; auto |].
          intros x Hx [<- | []]. apply in_map_iff in Hx.
          destruct Hx as [[n id] [Hid Hin]]. simpl in Hid. subst id.
          apply Hrange in Hin. lia.
        - lia. }
      destruct (IH r1 Hok1) as (Hok' & Hreg & Hids & Hnext & Hnames).
      destruct (registerAll rest r1) as [ids r'] eqn:Hrun. simpl in *.
      split; [exact Hok' |]. split; [| split; [| split]].
      * rewrite Hreg, map_set_absent by assumption. now rewrite <- app_assoc.
      * rewrite N.add_0_r. f_equal. rewrite Hids, <- seq_shift, map_map.
        apply map_ext. intros k. lia.
      * rewrite Hnext. lia.
      * intros n. rewrite Hnames, map_has_set. cbn [keq Key_string].
        rewrite orb_true_iff, String.eqb_eq. split.
        -- intros [[-> | H] | H]; auto.
        -- intros [H | [-> | H]]; auto.
Qed.

(** X11: Registering the names of a list on a new registry: every name gets an
    id once, the ids count up from 1 in the order of registration, a name
    that is registered cannot be registered again, and the next new name
    gets the next id. *)
Theorem component_ids_are_unique (names : list string) :
  let ids := fst (registerAll names newRegistry) in
  let r := snd (registerAll names newRegistry) in
  componentRegistry r = ids /\
  map snd ids = map N.of_nat (seq 1 (List.length ids)) /\
  NoDup (map fst ids) /\
  (forall name, In name (map fst ids) <-> In name names) /\
  (forall name, In name names -> component name r = Threw) /\
  (forall name, ~ In name names ->
     exists r', component name r = Returned (N.of_nat (S (List.length ids)), r')).
Proof.
  intros ids r.
  assert (Hnew : registry_ok newRegistry).
  { unfold registry_ok, newRegistry. simpl.
    split; [constructor |]. split; [intros n id [] |]. split; [constructor | lia]. }
  destruct (registerAll_spec names newRegistry Hnew) as (Hok & Hreg & Hids & Hnext & Hnames).
  fold ids in Hreg, Hids, Hnext. fold r in Hok, Hreg, Hnext, Hnames.
  cbn [componentRegistry nextComponentId newRegistry app] in *.
  assert (Hin : forall name, In name (map fst ids) <-> In name names).
  { intros name. rewrite <- Hreg. fold (JsMap.keys (componentRegistry r)).
    rewrite <- map_has_keys, Hnames. split; [intros [H | H]; [discriminate | exact H] | auto]. }
  split; [exact Hreg |]. split; [| split; [| split; [exact Hin | split]]].
  - rewrite Hids, <- seq_shift, map_map. apply map_ext. intros k.
    rewrite Nat2N.inj_succ. lia.
  - rewrite <- Hreg. apply Hok.
  - intros name Hn. unfold component.
    replace (JsMap.has name (componentRegistry r)) with true; [reflexivity |].
    symmetry. apply Hnames. now right.
  - intros name Hn. unfold component.
    replace (JsMap.has name (componentRegistry r)) with false.
    + rewrite Hnext, Nat2N.inj_succ. eexists. f_equal. f_equal. lia.
    + symmetry. destruct (JsMap.has name (componentRegistry r)) eqn:E; [| reflexivity].
      apply Hnames in E. destruct E as [E | E]; [discriminate | contradiction].
Qed.

(** * Further properties of the world store *)

Section MoreWorldFacts.
Variable Value : Type.
Variable deepClone : Value -> Value.
Implicit Types w : World Value.

Lemma log_leaveArchetype a e w : log (leaveArchetype a e w) = log w.
Proof. unfold leaveArchetype. repeat break_match; reflexivity. Qed.

Lemma log_joinArchetype a e w : log (joinArchetype a e w) = log w.
Proof. unfold joinArchetype. repeat break_match; reflexivity. Qed.

Lemma log_updateEntityArchetype e w : log (updateEntityArchetype e w) = log w.
Proof.
  unfold updateEntityArchetype.
  repeat break_match; cbn [log with_entityToArchetype];
    rewrite ?log_joinArchetype, ?log_leaveArchetype; reflexivity.
Qed.

(** The whole of what [set] does to a live entity with a table. *)
Lemma set_live e c v w comps :
  valid e w = true -> JsMap.get e (components w) = Some comps ->
  exists w',
    set e c v w = Returned w' /\
    same_store (with_components (JsMap.set e (JsMap.set c v comps) (components w)) w) w' /\
    log w' = log w ++ (if JsMap.has c comps then [] else [ComponentAdded e c]).
Proof.
  intros Hv Hg. unfold set. rewrite Hv, Hg. simpl.
  eexists. split; [reflexivity |].
  set (w1 := with_components (JsMap.set e (JsMap.set c v comps) (components w)) w).
  pose proof (same_store_updateEntityArchetype Value e w1) as Hs.
  pose proof (log_updateEntityArchetype e w1) as Hl.
  destruct (JsMap.has c comps).
  - split; [exact Hs |]. rewrite Hl. simpl. now rewrite app_nil_r.
  - split.
    + eapply same_store_trans; [exact Hs | apply same_store_fire].
    + simpl. now rewrite Hl.
Qed.

Lemma same_store_groups w w' :
  same_store w w' ->
  (forall e, getGroupsForEntity e w' = getGroupsForEntity e w) /\
  (forall g c, group_get g c w' = group_get g c w /\ group_has g c w' = group_has g c w).
Proof.
  intros (_ & _ & _ & _ & Hm & Hh & _). split.
  - intros e. unfold getGroupsForEntity. now rewrite Hm.
  - intros g c. unfold group_get, group_has. now rewrite Hh.
Qed.

Lemma same_store_observe w w' :
  same_store w w' ->
  forall e c, valid e w' = valid e w /\ own_get e c w' = own_get e c w /\
              own_has e c w' = own_has e c w /\
              has e c w' = has e c w /\ get e c w' = get e c w.
Proof.
  intros Hs e c. destruct (same_store_groups w w' Hs) as [Hgs Htab].
  pose proof (valid_same_store Value w w' e Hs) as Hv.
  split; [exact Hv |].
  split; [now apply own_get_same_store |].
  split; [now apply own_has_same_store |].
  apply observe_ext; auto.
  intros _ c'. now apply own_get_same_store.
Qed.

Lemma group_has_get g c w :
  group_has g c w = true <-> exists v, group_get g c w = Some v.
Proof.
  unfold group_has, group_get, JsMap.has.
  destruct (JsMap.get g (heap w)) as [G |].
  - destruct (JsMap.get c (g_components G)); split; eauto; try discriminate.
    intros [v H]. discriminate.
  - split; [discriminate | intros [v H]; discriminate].
Qed.

Lemma overlay_has_get c w (gs : list GroupId) :
  existsb (fun g => group_has g c w) gs = true <->
  exists v, match find (fun g => group_has g c w) gs with
            | Some g => group_get g c w
            | None => None
            end = Some v.
Proof.
  induction gs as [| g gs IH]; simpl.
  - split; [discriminate | intros [v H]; discriminate].
  - destruct (group_has g c w) eqn:E; simpl; [| exact IH].
    apply group_has_get in E. tauto.
Qed.

(** X12: [has] holds exactly when [get] gives a value. *)
Theorem has_exactly_when_get_gives_a_value (e : EntityId) (c : Id) w :
  has e c w = true <-> exists v, get e c w = Some v.
Proof.
  rewrite has_groups, get_groups, own_has_get.
  destruct (valid e w); simpl; [| split; [discriminate | intros [v H]; discriminate]].
  destruct (own_get e c w) as [v |]; [split; eauto |].
  apply overlay_has_get.
Qed.

(** What [get] and [has] say of one entity and one component rests on the
    liveness of the entity, that cell of its own table, its groups and
    their tables. *)
Lemma observe_at e c w w' :
  valid e w' = valid e w ->
  own_get e c w' = own_get e c w ->
  getGroupsForEntity e w' = getGroupsForEntity e w ->
  (forall g, group_get g c w' = group_get g c w /\ group_has g c w' = group_has g c w) ->
  has e c w' = has e c w /\ get e c w' = get e c w.
Proof.
  intros Hv Hown Hgs Htab.
  rewrite !has_groups, !get_groups, Hv, Hgs, !own_has_get, Hown.
  rewrite (existsb_ext_all _ (fun g => group_has g c w));
    [| intros g; apply (Htab g)].
  rewrite (find_ext_all _ (fun g => group_has g c w));
    [| intros g; apply (Htab g)].
  split; [reflexivity |].
  destruct (valid e w); simpl; [| reflexivity].
  destruct (own_get e c w); [reflexivity |].
  destruct (find _ _); [apply (Htab g) | reflexivity].
Qed.

(** X13: [set] on a live entity: [get] then gives the value written, every other
    entity and component is seen as before, and [ComponentAdded] is fired
    only when the entity did not own the component; on an entity that is
    not live it throws. *)
Theorem set_then_get (e : EntityId) (c : Id) (v : Value) w :
  (valid e w = false -> set e c v w = Threw) /\
  (valid e w = true -> JsMap.has e (components w) = true ->
   exists w',
     set e c v w = Returned w' /\
     get e c w' = Some v /\ has e c w' = true /\
     (forall e' c', e' <> e \/ c' <> c ->
        get e' c' w' = get e' c' w /\ has e' c' w' = has e' c' w) /\
     (forall e', valid e' w' = valid e' w) /\
     log w' = log w ++ (if own_has e c w then [] else [ComponentAdded e c])).
Proof.
  split; [apply set_threw |].
  intros Hv Htab. apply map_has_get in Htab. destruct Htab as [comps Hg].
  destruct (set_live e c v w comps Hv Hg) as (w' & Hset & Hs & Hlog).
  exists w'. split; [exact Hset |].
  set (w1 := with_components (JsMap.set e (JsMap.set c v comps) (components w)) w) in Hs.
  assert (Hobs := same_store_observe w1 w' Hs).
  assert (Hown : forall e' c',
            own_get e' c' w1
            = if N.eqb e' e && N.eqb c' c then Some v else own_get e' c' w).
  { intros e' c'. unfold own_get. simpl. rewrite map_get_set. cbn [keq Key_N].
    destruct (N.eqb_spec e' e) as [-> | Hne]; simpl; [| reflexivity].
    rewrite Hg, map_get_set. reflexivity. }
  assert (Hv1 : forall e', valid e' w1 = valid e' w) by reflexivity.
  split; [| split; [| split; [| split]]].
  - destruct (Hobs e c) as (_ & _ & _ & _ & ->).
    rewrite get_groups, Hv1, Hv, own_has_get, Hown, !N.eqb_refl. reflexivity.
  - destruct (Hobs e c) as (_ & _ & _ & -> & _).
    rewrite has_groups, Hv1, Hv, own_has_get, Hown, !N.eqb_refl. reflexivity.
  - intros e' c' Hne. destruct (Hobs e' c') as (_ & _ & _ & -> & ->).
    apply and_comm. apply observe_at; auto.
    rewrite Hown.
    destruct (N.eqb_spec e' e) as [-> | He]; [| reflexivity].
    destruct (N.eqb_spec c' c) as [-> | Hc]; [| reflexivity].
    destruct Hne; congruence.
  - intros e'. now destruct (Hobs e' c) as (-> & _).
  - rewrite Hlog. unfold own_has. now rewrite Hg.
Qed.

(** ** set followed by remove *)

Lemma map_delete_set_absent {K V} `{Key K} (k : K) (v : V) (m : list (K * V)) :
  JsMap.has k m = false -> JsMap.delete k (JsMap.set k v m) = m.
Proof.
  intros Hh. rewrite (map_set_absent k v m Hh). unfold JsMap.delete.
  rewrite filter_app. simpl. rewrite keq_refl. simpl. rewrite app_nil_r.
  now apply map_delete_absent.
Qed.

Lemma map_set_set {K V} `{Key K} (k : K) (v v' : V) (m : list (K * V)) :
  JsMap.set k v' (JsMap.set k v m) = JsMap.set k v' m.
Proof.
  induction m as [| [k0 v0] r IH]; simpl.
  - now rewrite keq_refl.
  - destruct (keq k k0) eqn:E; simpl; [now rewrite keq_refl |].
    rewrite E. now rewrite IH.
Qed.

Lemma map_set_same {K V} `{Key K} (k : K) (v : V) (m : list (K * V)) :
  JsMap.get k m = Some v -> JsMap.set k v m = m.
Proof.
  induction m as [| [k0 v0] r IH]; simpl; [discriminate |].
  destruct (keq_spec k k0) as [-> | Hn].
  - now intros [= ->].
  - intros Hg. now rewrite IH.
Qed.

(** The whole of what [remove] does when it removes. *)
Lemma remove_live e c w comps :
  valid e w = true -> JsMap.get e (components w) = Some comps ->
  JsMap.has c comps = true ->
  fst (remove e c w) = true /\
  same_store (with_components (JsMap.set e (JsMap.delete c comps) (components w)) w)
    (snd (remove e c w)) /\
  log (snd (remove e c w)) = log w ++ [ComponentRemoved e c].
Proof.
  intros Hv Hg Hh. unfold remove. rewrite Hv, Hg, Hh. simpl.
  set (w1 := with_components (JsMap.set e (JsMap.delete c comps) (components w)) w).
  split; [reflexivity |]. split.
  - eapply same_store_trans;
      [apply (same_store_updateEntityArchetype Value e w1) | apply same_store_fire].
  - now rewrite log_updateEntityArchetype.
Qed.

(** X14: Setting a component that the entity does not own and removing it again
    leaves the entities, their tables and the groups exactly as they were,
    so that every [get] and [has] answers as before; the two calls fire
    [ComponentAdded] and [ComponentRemoved]. *)
Theorem set_then_remove_restores_the_store (e : EntityId) (c : Id) (v : Value) w w1 :
  own_has e c w = false ->
  set e c v w = Returned w1 ->
  let r := remove e c w1 in
  fst r = JsMap.has e (components w) /\
  same_store w (snd r) /\
  (forall e' c', get e' c' (snd r) = get e' c' w /\ has e' c' (snd r) = has e' c' w) /\
  log (snd r)
  = log w ++ (if fst r then [ComponentAdded e c; ComponentRemoved e c] else []).
Proof.
  intros Hown Hset r.
  assert (Hv : valid e w = true).
  { destruct (valid e w) eqn:Hv; [reflexivity |]. rewrite set_threw in Hset by assumption.
    discriminate. }
  assert (Hmain : fst r = JsMap.has e (components w) /\ same_store w (snd r) /\
                  log (snd r)
                  = log w ++ (if fst r then [ComponentAdded e c; ComponentRemoved e c]
                              else [])).
  { subst r. unfold JsMap.has.
    destruct (JsMap.get e (components w)) as [comps |] eqn:Hg.
    - destruct (set_live e c v w comps Hv Hg) as (w' & Hset' & Hs & Hlog).
      rewrite Hset in Hset'. injection Hset' as <-.
      assert (Hc : JsMap.has c comps = false).
      { unfold own_has in Hown. now rewrite Hg in Hown. }
      rewrite Hc in Hlog.
      assert (Hv1 : valid e w1 = true).
      { rewrite (valid_same_store Value _ _ e Hs). exact Hv. }
      assert (Hg1 : JsMap.get e (components w1) = Some (JsMap.set c v comps)).
      { destruct Hs as (_ & _ & -> & _). simpl. apply map_get_set_eq. }
      assert (Hh1 : JsMap.has c (JsMap.set c v comps) = true).
      { rewrite map_has_set, keq_refl. reflexivity. }
      destruct (remove_live e c w1 _ Hv1 Hg1 Hh1) as (Hr & Hs' & Hlog').
      rewrite Hr. split; [reflexivity |]. split.
      + eapply same_store_trans; [| exact Hs'].
        destruct Hs as (Hn & He & Hcs & Hgr & Hm & Hh & Hng).
        unfold same_store. simpl in *. rewrite Hn, He, Hgr, Hm, Hh, Hng, Hcs.
        repeat split.
        rewrite map_set_set, map_delete_set_absent by assumption.
        now apply map_set_same.
      + rewrite Hlog', Hlog, <- app_assoc. reflexivity.
    - unfold set in Hset. rewrite Hv, Hg in Hset. simpl in Hset. injection Hset as <-.
      unfold remove. rewrite Hv, Hg. simpl.
      split; [reflexivity |]. split; [apply same_store_refl | now rewrite app_nil_r]. }
  destruct Hmain as (Hr & Hs & Hlog).
  split; [exact Hr |]. split; [exact Hs |]. split; [| exact Hlog].
  intros e' c'. destruct (same_store_observe w (snd r) Hs e' c') as (_ & _ & _ & -> & ->).
  auto.
Qed.

(** ** Ids count up *)

Lemma nextGroupId_group_removeEntity g e w :
  nextGroupId (group_removeEntity g e w) = nextGroupId w.
Proof. unfold group_removeEntity, onGroupEntityRemoved. repeat break_match; reflexivity. Qed.

Lemma nextGroupId_group_addEntity g e w :
  nextGroupId (group_addEntity g e w) = nextGroupId w.
Proof. unfold group_addEntity, onGroupEntityAdded. repeat break_match; reflexivity. Qed.

Lemma nextGroupId_detachFromGroups e gs : forall w,
  nextGroupId (detachFromGroups e gs w) = nextGroupId w.
Proof.
  induction gs as [| g gs IH]; intros w; simpl; [reflexivity |].
  rewrite IH. simpl. apply nextGroupId_group_removeEntity.
Qed.

Lemma nextGroupId_despawn e w : nextGroupId (snd (despawn e w)) = nextGroupId w.
Proof.
  unfold despawn. destruct (valid e w); simpl; [| reflexivity].
  destruct (JsMap.get e (entityToGroups w)) as [gs |]; simpl.
  - destruct (JsMap.get e (components (detachFromGroups e gs w))); simpl;
      rewrite ?fire_all_eq; simpl; apply nextGroupId_detachFromGroups.
  - destruct (JsMap.get e (components w)); simpl; rewrite ?fire_all_eq; reflexivity.
Qed.

Lemma nextGroupId_despawnEach (s : Snapshot Value) ents : forall w,
  nextGroupId (despawnEach s ents w) = nextGroupId w.
Proof.
  induction ents as [| e ents IH]; intros w; simpl; [reflexivity |].
  destruct (negb (JsMap.has e (entityStates s))); rewrite IH; [| reflexivity].
  apply nextGroupId_despawn.
Qed.

Lemma nextGroupId_removeGroup_loop g ents : forall w,
  nextGroupId (fold_left (fun w entity => group_removeEntity g entity w) ents w)
  = nextGroupId w.
Proof.
  induction ents as [| e ents IH]; intros w; simpl; [reflexivity |].
  rewrite IH. apply nextGroupId_group_removeEntity.
Qed.

Lemma nextGroupId_set e c v w w' : set e c v w = Returned w' -> nextGroupId w' = nextGroupId w.
Proof.
  unfold set. destruct (negb (valid e w)); [discriminate |].
  destruct (JsMap.get e (components w)) as [comps |]; [| now intros [= <-]].
  set (w1 := with_components _ w).
  destruct (same_store_updateEntityArchetype Value e w1) as (_ & _ & _ & _ & _ & _ & Hg).
  destruct (JsMap.has c comps); intros [= <-]; exact Hg.
Qed.

Lemma nextGroupId_remove e c w : nextGroupId (snd (remove e c w)) = nextGroupId w.
Proof.
  unfold remove. destruct (negb (valid e w)); [reflexivity |].
  destruct (JsMap.get e (components w)) as [comps |]; [| reflexivity].
  destruct (JsMap.has c comps); [| reflexivity].
  set (w1 := with_components _ w).
  destruct (same_store_updateEntityArchetype Value e w1) as (_ & _ & _ & _ & _ & _ & Hg).
  exact Hg.
Qed.

Lemma nextGroupId_revert (s : Snapshot Value) w :
  nextGroupId (revert deepClone s w) = nextGroupId w.
Proof.
  unfold revert.
  destruct (restoreEntities_frame Value deepClone s (entityStates s)
              (if negb (isPartial s) then despawnUnlisted s w else w))
    as (_ & _ & _ & _ & -> & _).
  destruct (negb (isPartial s)); [| reflexivity].
  apply nextGroupId_despawnEach.
Qed.

Lemma step_counters (op : Op Value) w :
  nextEntityId (step deepClone op w)
  = nextEntityId w + (match op with OSpawn => 1 | _ => 0 end) /\
  nextGroupId (step deepClone op w)
  = nextGroupId w + (match op with OCreateGroup => 1 | _ => 0 end).
Proof.
  destruct op; rewrite ?N.add_0_r.
  - split; reflexivity.
  - cbn [step]. split; [apply (despawn_fields Value e w) | apply nextGroupId_despawn].
  - split; [apply (step_set_fields Value deepClone e c v w) |].
    cbn [step]. destruct (set e c v w) as [w' |] eqn:Hset; [| reflexivity].
    now apply (nextGroupId_set e c v).
  - split; [apply (step_remove_fields Value deepClone e c w) | apply nextGroupId_remove].
  - split; reflexivity.
  - cbn [step]. unfold removeGroup. destruct (negb (JsSet.has g (groups w))); [auto |].
    cbn [nextEntityId nextGroupId with_groups].
    split; [| apply nextGroupId_removeGroup_loop].
    apply (removeGroup_loop_same_entities Value g (group_getEntities g w) w).
  - cbn [step]. split; [| apply nextGroupId_group_addEntity].
    apply (group_addEntity_same_entities Value g e w).
  - cbn [step]. split; [| apply nextGroupId_group_removeEntity].
    apply (group_removeEntity_same_entities Value g e w).
  - cbn [step]. unfold group_set. destruct (JsMap.get g (heap w)); auto.
  - cbn [step]. unfold group_remove. destruct (JsMap.get g (heap w)); auto.
  - cbn [step]. split; [apply (revert_frame Value deepClone s w) | apply nextGroupId_revert].
Qed.

(** X15: The calls of [spawn] on a world return 1, 2, 3, ..., whatever other
    calls are made in between: no other call moves the counter, [despawn]
    and [revert] included, which may bring an entity back under its old
    id. *)
Theorem spawn_ids_count_up (ops : list (Op Value)) :
  fst (spawn (run deepClone ops createWorld))
  = 1 + N.of_nat (List.length
                    (filter (fun op => match op with OSpawn => true | _ => false end) ops)).
Proof.
  assert (H : forall w0,
    nextEntityId (run deepClone ops w0)
    = nextEntityId w0
      + N.of_nat (List.length
                    (filter (fun op : Op Value => match op with OSpawn => true | _ => false end)
                       ops))).
  { induction ops as [| op ops IH]; intros w0; simpl.
    - lia.
    - rewrite (IH (step deepClone op w0)), (proj1 (step_counters op w0)).
      destruct op; simpl; lia. }
  exact (H createWorld).
Qed.

(** ** Prefabs *)

Lemma map_get_app {K V} `{Key K} (k : K) (l1 l2 : list (K * V)) :
  JsMap.get k (l1 ++ l2)
  = match JsMap.get k l1 with Some v => Some v | None => JsMap.get k l2 end.
Proof.
  induction l1 as [| [k0 v0] r IH]; simpl; [reflexivity |].
  now destruct (keq k k0).
Qed.

Lemma map_keys_set {K V} `{Key K} (k : K) (v : V) (m : list (K * V)) :
  JsMap.keys (JsMap.set k v m)
  = if JsMap.has k m then JsMap.keys m else JsMap.keys m ++ [k].
Proof.
  unfold JsMap.has, JsMap.keys. induction m as [| [k0 v0] r IH]; simpl; [reflexivity |].
  destruct (keq_spec k k0) as [-> | Hn]; simpl; [reflexivity |].
  rewrite IH. now destruct (JsMap.get k r).
Qed.

(** The table that a run of [set] calls with the pairs of a list builds. *)
Lemma fold_set_get (c : Id) (pairs : list (Id * Value)) : forall t : Components Value,
  JsMap.get c (fold_left (fun t p => JsMap.set (fst p) (snd p) t) pairs t)
  = match JsMap.get c (rev pairs) with
    | Some v => Some v
    | None => JsMap.get c t
    end.
Proof.
  induction pairs as [| [k v] rest IH]; intros t; simpl; [reflexivity |].
  rewrite IH, map_get_app. destruct (JsMap.get c (rev rest)); [reflexivity |].
  simpl. rewrite map_get_set. cbn [keq Key_N]. now destruct (N.eqb c k).
Qed.

Lemma setEach_live e (pairs : list (Id * Value)) : forall w comps,
  valid e w = true -> JsMap.get e (components w) = Some comps ->
  let final := fold_left (fun t p => JsMap.set (fst p) (snd p) t) pairs comps in
  exists w' added,
    setEach e pairs w = Returned w' /\
    same_store (with_components (JsMap.set e final (components w)) w) w' /\
    JsMap.keys final = JsMap.keys comps ++ added /\
    log w' = log w ++ map (ComponentAdded e) added.
Proof.
  induction pairs as [| [c v] rest IH]; intros w comps Hv Hg final; subst final; simpl.
  - exists w, []. split; [reflexivity |].
    split; [| split; [now rewrite app_nil_r | simpl; now rewrite app_nil_r]].
    unfold same_store. simpl. repeat split. symmetry. now apply map_set_same.
  - destruct (set_live e c v w comps Hv Hg) as (w1 & -> & Hs & Hlog).
    assert (Hv1 : valid e w1 = true).
    { rewrite (valid_same_store Value _ _ e Hs). exact Hv. }
    assert (Hg1 : JsMap.get e (components w1) = Some (JsMap.set c v comps)).
    { destruct Hs as (_ & _ & -> & _). simpl. apply map_get_set_eq. }
    destruct (IH w1 _ Hv1 Hg1) as (w' & added & Hrun & Hs' & Hkeys & Hlog').
    exists w', ((if JsMap.has c comps then [] else [c]) ++ added).
    split; [exact Hrun |]. split; [| split].
    + eapply same_store_trans; [| exact Hs'].
      destruct Hs as (Hn & He & Hcs & Hgr & Hm & Hh & Hng).
      unfold same_store. simpl in *. rewrite Hn, He, Hgr, Hm, Hh, Hng, Hcs.
      repeat split. now rewrite map_set_set.
    + rewrite Hkeys, map_keys_set, app_assoc.
      destruct (JsMap.has c comps); [now rewrite app_nil_r | reflexivity].
    + rewrite Hlog', Hlog, map_app, <- !app_assoc.
      now destruct (JsMap.has c comps).
Qed.

Lemma setEach_app e (ps qs : list (Id * Value)) : forall w,
  setEach e (ps ++ qs) w
  = match setEach e ps w with
    | Returned w' => setEach e qs w'
    | Threw => Threw
    end.
Proof.
  induction ps as [| [c v] ps IH]; intros w; simpl; [reflexivity |].
  destruct (set e c v w); [apply IH | reflexivity].
Qed.

(** X16: [Prefab.spawn] always returns: it spawns the next entity and gives it
    the components of the prefab and of the overrides, an override and in
    general the last pair for a component being the one that counts; other
    entities are left alone; the events are [EntitySpawned] and one
    [ComponentAdded] for each component of the new entity.  Spawning from
    an extended prefab is spawning with the extension as first overrides. *)
Theorem prefab_spawn_builds_the_entity (p overrides : list (Id * Value)) w :
  let e := nextEntityId w in
  (exists w',
     prefab_spawn p overrides w = Returned (e, w') /\
     valid e w' = true /\
     nextEntityId w' = e + 1 /\
     (forall c, own_get e c w'
                = match JsMap.get c (rev overrides) with
                  | Some v => Some v
                  | None => JsMap.get c (rev p)
                  end) /\
     (forall e' c, e' <> e ->
        valid e' w' = valid e' w /\ own_get e' c w' = own_get e' c w) /\
     log w' = log w ++ EntitySpawned e :: map (ComponentAdded e) (ownComponentIds e w')) /\
  (forall cs ov,
     prefab_spawn (prefab_extend p cs) ov w = prefab_spawn p (cs ++ ov) w).
Proof.
  intros e. split.
  - unfold prefab_spawn.
    pose proof (spawn_fields Value w) as (Hid & Hn0 & He0 & Hc0 & _).
    assert (Hl0 : log (snd (spawn w)) = log w ++ [EntitySpawned e]) by reflexivity.
    destruct (spawn w) as [e0 w0]. simpl in Hid, Hn0, He0, Hc0, Hl0. subst e0.
    fold e in He0, Hc0. fold e. cbv beta iota.
    assert (Hv0 : valid e w0 = true).
    { unfold valid. rewrite He0, set_has_add, N.eqb_refl. reflexivity. }
    assert (Hg0 : JsMap.get e (components w0) = Some []).
    { rewrite Hc0. apply map_get_set_eq. }
    destruct (setEach_live e p w0 [] Hv0 Hg0) as (w2 & added & -> & Hs & Hkeys & Hlog).
    set (t1 := fold_left (fun t q => JsMap.set (fst q) (snd q) t) p []) in *.
    assert (Hv2 : valid e w2 = true).
    { rewrite (valid_same_store Value _ _ e Hs). exact Hv0. }
    assert (Hg2 : JsMap.get e (components w2) = Some t1).
    { destruct Hs as (_ & _ & -> & _). simpl. apply map_get_set_eq. }
    destruct (setEach_live e overrides w2 t1 Hv2 Hg2)
      as (w3 & added' & -> & Hs' & Hkeys' & Hlog').
    set (t2 := fold_left (fun t q => JsMap.set (fst q) (snd q) t) overrides t1) in *.
    exists w3. split; [reflexivity |].
    destruct Hs as (Hn & He & Hcs & _). destruct Hs' as (Hn' & He' & Hcs' & _).
    simpl in Hn, He, Hcs, Hn', He', Hcs'.
    assert (Htab : components w3 = JsMap.set e t2 (JsMap.set e [] (components w))).
    { rewrite Hcs', Hcs, Hc0. now rewrite !map_set_set. }
    split; [| split; [| split; [| split]]].
    + unfold valid. rewrite He', He. exact Hv0.
    + rewrite Hn', Hn. exact Hn0.
    + intros c. unfold own_get. rewrite Htab, map_get_set_eq.
      subst t2 t1. rewrite !fold_set_get. simpl.
      destruct (JsMap.get c (rev overrides)); [reflexivity |].
      now destruct (JsMap.get c (rev p)).
    + intros e' c Hne. split.
      * unfold valid. rewrite He', He, He0, set_has_add. cbn [keq Key_N].
        now rewrite (proj2 (N.eqb_neq e' e) Hne).
      * unfold own_get. rewrite Htab, !map_get_set_neq by assumption. reflexivity.
    + rewrite Hlog', Hlog. unfold ownComponentIds. rewrite Htab, map_get_set_eq.
      rewrite Hkeys', Hkeys, Hl0. simpl. rewrite map_app, <- !app_assoc. reflexivity.
  - intros cs ov. unfold prefab_spawn, prefab_extend. simpl.
    rewrite !setEach_app.
    destruct (setEach _ p _); [| reflexivity].
    rewrite setEach_app. now destruct (setEach _ cs _).
Qed.

(** ** Component id 0 and the archetype index *)

Lemma matching_buckets (R X : list Id) w :
  R <> [] ->
  getMatchingEntities R X w
  = fold_left
      (fun result archetype =>
         match JsMap.get archetype (archetypeToEntities w) with
         | Some ents => fold_left (fun r entity => JsSet.add entity r) ents result
         | None => result
         end)
      (map fst (filter (fun b => archetypeMatches R X (fst b)) (archetypeToEntities w)))
      [].
Proof.
  intros HR. unfold getMatchingEntities. destruct R as [| r0 R]; [congruence |].
  now rewrite matchingArchetypes_spec.
Qed.

Lemma archetypeMatches_zero_required (R X : list Id) a :
  In 0 R -> archetypeMatches R X a = false.
Proof.
  intros Hin. unfold archetypeMatches.
  replace (forallb (fun req => includes req (parseArchetype a)) R) with false; [reflexivity |].
  symmetry. apply not_true_is_false. intros Hall. rewrite forallb_forall in Hall.
  specialize (Hall 0 Hin). now rewrite includes_zero_parse in Hall.
Qed.

Lemma archetypeMatches_zero_excluded (R X : list Id) a :
  archetypeMatches R (X ++ [0]) a = archetypeMatches R X a.
Proof.
  unfold archetypeMatches. rewrite existsb_app. simpl.
  now rewrite includes_zero_parse, !orb_false_r.
Qed.

(** X17: A signature is read back without the id 0, so the archetype path of a
    query cannot see component 0: a query that requires it calls back for
    no entity, in any world, and excluding it changes nothing of a query
    that requires something. *)
Theorem component_zero_is_invisible_to_the_index (q : Query) w :
  (In 0 (required q) -> each q w = [] /\ collect q w = []) /\
  (required q <> [] -> each (without [0] q) w = each q w).
Proof.
  split.
  - intros Hin.
    assert (HR : required q <> []) by (intros E; rewrite E in Hin; destruct Hin).
    assert (Hnone : getMatchingEntities (required q) (excluded q) w = []).
    { rewrite matching_buckets by assumption.
      replace (filter (fun b => archetypeMatches (required q) (excluded q) (fst b))
                 (archetypeToEntities w)) with (@nil (string * list EntityId));
        [reflexivity |].
      symmetry. induction (archetypeToEntities w) as [| b l IH]; simpl; [reflexivity |].
      now rewrite archetypeMatches_zero_required. }
    unfold collect, each. rewrite Hnone. auto.
  - intros HR. unfold each, without. simpl.
    rewrite !matching_buckets by assumption.
    rewrite (filter_ext _ (fun b => archetypeMatches (required q) (excluded q) (fst b)));
      [reflexivity |].
    intros b. apply archetypeMatches_zero_excluded.
Qed.

(** ** The query that requires nothing, and [each] of the older world *)

Lemma each_unindexed_loop_spec (q : Query) (cm : list (EntityId * Components Value)) :
  forall ents calls,
  (forall e, In e ents -> JsMap.has e cm = true) ->
  each_unindexed_loop q cm ents calls
  = Returned
      (calls ++
       map (fun e => (e, map (fun c => match JsMap.get e cm with
                                       | Some comps => JsMap.get c comps
                                       | None => None
                                       end) (required q)))
         (filter (fun e => match JsMap.get e cm with
                           | Some comps =>
                               forallb (fun c => JsMap.has c comps) (required q)
                               && negb (existsb (fun c => JsMap.has c comps) (excluded q))
                           | None => false
                           end) ents)).
Proof.
  induction ents as [| e ents IH]; intros calls Hall; simpl.
  - now rewrite app_nil_r.
  - destruct (map_has_get e cm (Hall e (or_introl eq_refl))) as [comps Hg].
    rewrite Hg.
    destruct (forallb _ (required q) && negb (existsb _ (excluded q))) eqn:Ht.
    + rewrite IH by (intros x Hx; apply Hall; now right).
      simpl. rewrite Hg, <- app_assoc. reflexivity.
    + apply IH. intros x Hx. apply Hall. now right.
Qed.

Lemma each_unindexed_scans_own_tables_aux (q : Query) w :
  tables_ok w ->
  each_unindexed q w
  = Returned (map (fun e => (e, map (fun c => own_get e c w) (required q)))
                (filter (fun e => matches q e w) (entities w))).
Proof.
  intros Hok. unfold each_unindexed.
  rewrite each_unindexed_loop_spec.
  - simpl. f_equal.
    rewrite (filter_ext_in _ (fun e => matches q e w)).
    + apply map_ext. intros e. reflexivity.
    + intros e Hin. unfold matches, own_has, valid.
      rewrite (proj2 (set_has_In e (entities w)) Hin). simpl.
      destruct (map_has_get e (components w)
                  (Hok e (proj2 (set_has_In e (entities w)) Hin))) as [comps ->].
      reflexivity.
  - intros e Hin. apply Hok. now apply set_has_In.
Qed.

(** X18: [each] of the older world: on a store where every live entity has its
    table it returns, and calls back once for each live entity that matches,
    in the order in which the entities were added, with the values of the
    own table. *)
Theorem each_unindexed_scans_own_tables (q : Query) w :
  tables_ok w ->
  each_unindexed q w
  = Returned (map (fun e => (e, map (fun c => own_get e c w) (required q)))
                (filter (fun e => matches q e w) (entities w))).
Proof. apply each_unindexed_scans_own_tables_aux. Qed.

(** X19: A query that requires no component does not go through the archetype
    index: in every reachable world, also after a revert, it calls back
    once for each live entity that owns none of the excluded components. *)
Theorem query_without_required_scans_entities (X : list Id) w snaps :
  reachable deepClone w snaps ->
  let q := without X (query []) in
  NoDup (map fst (each q w)) /\
  forall e vals, In (e, vals) (each q w) <-> matches q e w = true /\ vals = [].
Proof.
  intros Hreach q.
  destruct (reachable_inv Value deepClone w snaps Hreach) as ((Hok & _) & _).
  subst q. unfold each. rewrite each_calls_fold.
  unfold without, query. cbn [required excluded app]. unfold getMatchingEntities.
  destruct (scan_spec Value (components w) X (entities w) []) as [Hnd Hin].
  simpl in Hnd, Hin.
  set (l := fold_left _ (entities w) []) in *.
  assert (Hl : forall e, In e l <->
            valid e w = true /\
            exists comps, JsMap.get e (components w) = Some comps /\
                          existsb (fun comp => JsMap.has comp comps) X = false).
  { intros e. rewrite Hin. unfold valid. rewrite set_has_In. split.
    - intros [[] | H]. exact H.
    - intros H. now right. }
  split.
  - specialize (Hnd (NoDup_nil _)). clear Hin Hl.
    induction l as [| x l IH]; simpl; [constructor |].
    inversion Hnd as [| ? ? Hni Hnd']; subst.
    destruct (JsMap.get x (components w)); simpl; [| now apply IH].
    constructor; [| now apply IH].
    intros Hx. apply Hni. apply in_map_iff in Hx.
    destruct Hx as [[y vs] [Hy Hx]]. simpl in Hy. subst y.
    apply in_flat_map in Hx. destruct Hx as [z [Hz Hx]].
    destruct (JsMap.get z (components w)); [| destruct Hx].
    destruct Hx as [[= -> _] | []]. exact Hz.
  - intros e vals. rewrite in_flat_map. unfold matches, own_has. simpl. split.
    + intros [x [Hx Hcall]]. apply Hl in Hx. destruct Hx as (Hv & comps & Hg & Hex).
      rewrite Hg in Hcall. destruct Hcall as [[= -> <-] | []].
      rewrite Hv, Hg. simpl. split; [| reflexivity]. now rewrite Hex.
    + intros [Hm ->]. apply andb_true_iff in Hm. destruct Hm as [Hv Hex].
      rewrite andb_true_r in Hv. exists e.
      destruct (map_has_get e (components w) (Hok e Hv)) as [comps Hg].
      rewrite Hg in *. split; [| now left].
      apply Hl. split; [exact Hv |]. exists comps. split; [exact Hg |].
      now apply negb_true_iff in Hex.
Qed.

(** ** The entity set lists no entity twice *)

Lemma set_delete_NoDup (x : EntityId) (l : list EntityId) :
  NoDup l -> NoDup (JsSet.delete x l).
Proof. intros H. unfold JsSet.delete. now apply NoDup_filter. Qed.

Lemma despawn_entities_nodup e w :
  entities_nodup w -> entities_nodup (snd (despawn e w)).
Proof.
  unfold entities_nodup. intros H.
  destruct (despawn_fields Value e w) as (_ & _ & -> & _).
  destruct (fst (despawn e w)); [now apply set_delete_NoDup | assumption].
Qed.

Lemma despawnEach_entities_nodup (s : Snapshot Value) ents : forall w,
  entities_nodup w -> entities_nodup (despawnEach s ents w).
Proof.
  induction ents as [| e ents IH]; intros w H; simpl; [assumption |].
  destruct (negb (JsMap.has e (entityStates s))); apply IH; [| assumption].
  now apply despawn_entities_nodup.
Qed.

Lemma restoreEntity_entities_nodup (s : Snapshot Value) e sc w :
  entities_nodup w ->
  entities_nodup match restoreEntity deepClone s e sc w with
                 | Continue w' | Return w' => w'
                 end.
Proof.
  unfold entities_nodup, restoreEntity. intros H.
  destruct (JsSet.has e (entities w)) eqn:He; simpl.
  - destruct (JsMap.get e (components w)); [| assumption].
    rewrite fire_all_eq. exact H.
  - destruct (JsMap.size sc =? 0)%nat; simpl; [assumption |].
    rewrite map_get_set_eq. rewrite fire_all_eq. simpl.
    now apply set_add_NoDup.
Qed.

Lemma restoreEntities_entities_nodup (s : Snapshot Value) states : forall w,
  entities_nodup w -> entities_nodup (restoreEntities deepClone s states w).
Proof.
  induction states as [| [e sc] rest IH]; intros w H; simpl; [assumption |].
  pose proof (restoreEntity_entities_nodup s e sc w H) as H1.
  destruct (restoreEntity deepClone s e sc w); [now apply IH | assumption].
Qed.

Lemma step_entities_nodup (op : Op Value) w :
  entities_nodup w -> entities_nodup (step deepClone op w).
Proof.
  intros H. destruct (entity_op op) eqn:He; [| destruct (is_revert op) eqn:Hr].
  - destruct op; try discriminate.
    + unfold entities_nodup. cbn [step].
      rewrite (proj1 (proj2 (proj2 (spawn_fields Value w)))). now apply set_add_NoDup.
    + now apply despawn_entities_nodup.
    + unfold entities_nodup.
      now rewrite (proj1 (proj2 (step_set_fields Value deepClone e c v w))).
    + unfold entities_nodup.
      now rewrite (proj1 (proj2 (step_remove_fields Value deepClone e c w))).
  - destruct op; try discriminate. cbn [step]. unfold revert.
    apply restoreEntities_entities_nodup.
    destruct (negb (isPartial s)); [now apply despawnEach_entities_nodup | assumption].
  - unfold entities_nodup.
    now rewrite (proj1 (proj2 (step_group_same_tables Value deepClone op w He Hr))).
Qed.

Lemma reachable_entities_nodup w snaps :
  reachable deepClone w snaps -> entities_nodup w.
Proof.
  induction 1; [constructor | now apply step_entities_nodup | assumption].
Qed.

Lemma NoDup_map_tagged {A B} (f : A -> B) (l : list A) :
  NoDup l -> NoDup (map (fun x => (x, f x)) l).
Proof.
  induction 1 as [| x l Hni Hnd IH]; simpl; constructor; [| assumption].
  intros Hin. apply Hni. apply in_map_iff in Hin.
  destruct Hin as [y [[= ->] Hy]]. exact Hy.
Qed.

(** X20: In a state reached without a revert the indexed [each] and the [each]
    of the older world make the same calls, each once; the order may
    differ, the index going bucket by bucket. *)
Theorem indexed_each_agrees_with_unindexed_each (ops : list (Op Value)) (q : Query) :
  existsb (@is_revert Value) ops = false ->
  Forall (fun c => 0 < c) (required q ++ excluded q) ->
  let w := run deepClone ops createWorld in
  exists calls,
    each_unindexed q w = Returned calls /\ Permutation (each q w) calls.
Proof.
  intros Hops Hpos w.
  destruct (run_index_inv Value deepClone ops createWorld Hops (createWorld_inv Value)
              (tables_live_new Value) (createWorld_archetype_ok Value))
    as ((Hok & Hrest) & Hlive & Hidx).
  fold w in Hok, Hrest, Hlive, Hidx.
  assert (Hnd : entities_nodup w).
  { apply (reachable_entities_nodup w []).
    apply reachable_run; [apply reach_new | exact Hops]. }
  destruct (query_correct_on_consistent_index Value q w Hok Hlive Hidx Hpos)
    as [Hone Hcalls].
  eexists. split; [now apply each_unindexed_scans_own_tables_aux |].
  apply NoDup_Permutation.
  - now apply NoDup_map_inv in Hone.
  - apply NoDup_map_tagged. now apply NoDup_filter.
  - intros [e vals]. rewrite Hcalls, in_map_iff. split.
    + intros [Hm ->]. exists e. split; [reflexivity |].
      apply filter_In. split; [| exact Hm].
      apply andb_true_iff in Hm. destruct Hm as [Hm _].
      apply andb_true_iff in Hm. destruct Hm as [Hv _]. now apply set_has_In.
    + intros [x [[= -> <-] Hx]]. apply filter_In in Hx. tauto.
Qed.

(** ** Groups of a reachable world *)

Lemma groups_inv_ext w w' :
  heap w' = heap w -> entityToGroups w' = entityToGroups w ->
  nextGroupId w' = nextGroupId w ->
  groups_inv w -> groups_inv w'.
Proof.
  intros Hh Hm Hn (Hb & Hs & Hi).
  unfold groups_inv, groups_backed, group_sets_ok, heap_issued,
    getGroupsForEntity, group_hasEntity in *.
  rewrite Hh, Hm, Hn. auto.
Qed.

Lemma heap_keys_group_removeEntity g e w g' :
  JsMap.has g' (heap (group_removeEntity g e w)) = JsMap.has g' (heap w).
Proof.
  unfold group_removeEntity.
  destruct (JsMap.get g (heap w)) as [G |] eqn:HG; [| reflexivity].
  destruct (JsSet.has e (g_entities G)); [| reflexivity].
  rewrite heap_onGroupEntityRemoved. simpl. rewrite map_has_set. cbn [keq Key_N].
  destruct (N.eqb_spec g' g) as [-> | Hn]; [| reflexivity].
  simpl. symmetry. unfold JsMap.has. now rewrite HG.
Qed.

Lemma heap_keys_group_addEntity g e w g' :
  JsMap.has g' (heap (group_addEntity g e w)) = JsMap.has g' (heap w).
Proof.
  unfold group_addEntity.
  destruct (JsMap.get g (heap w)) as [G |] eqn:HG; [| reflexivity].
  destruct (JsSet.has e (g_entities G)); [reflexivity |]. cbn [negb].
  rewrite heap_onGroupEntityAdded. simpl. rewrite map_has_set. cbn [keq Key_N].
  destruct (N.eqb_spec g' g) as [-> | Hn]; [| reflexivity].
  simpl. symmetry. unfold JsMap.has. now rewrite HG.
Qed.

Lemma group_hasEntity_heap g e w :
  group_hasEntity g e w = true -> JsMap.has g (heap w) = true.
Proof.
  unfold group_hasEntity.
  destruct (JsMap.get g (heap w)) as [G |] eqn:E; [| discriminate].
  intros _. exact (map_get_has g (heap w) G E).
Qed.

Lemma group_removeEntity_groups_inv g e w :
  groups_inv w -> groups_inv (group_removeEntity g e w).
Proof.
  intros (Hb & Hs & Hi). split; [| split].
  - intros g' e' Hin. rewrite group_removeEntity_hasEntity.
    destruct (N.eq_dec e' e) as [-> | Hn].
    + rewrite group_removeEntity_groupsFor in Hin.
      destruct (group_hasEntity g e w) eqn:Hm.
      * apply set_In_delete in Hin. destruct Hin as [Hne Hin].
        rewrite (Hb g' e Hin). simpl.
        now rewrite (proj2 (N.eqb_neq g' g) Hne).
      * rewrite (Hb g' e Hin). simpl.
        destruct (N.eqb_spec g' g) as [-> | Hne]; [| reflexivity].
        rewrite (Hb g e Hin) in Hm. discriminate.
    + rewrite (getGroupsForEntity_get Value e' _ _
                 (group_removeEntity_others Value g e w e' Hn)) in Hin.
      rewrite (Hb g' e' Hin). simpl.
      now rewrite (proj2 (N.eqb_neq e' e) Hn), andb_false_r.
  - intros e'. destruct (N.eq_dec e' e) as [-> | Hn].
    + rewrite group_removeEntity_groupsFor.
      destruct (group_hasEntity g e w); [| apply Hs].
      unfold JsSet.delete. apply NoDup_filter, Hs.
    + rewrite (getGroupsForEntity_get Value e' _ _
                 (group_removeEntity_others Value g e w e' Hn)). apply Hs.
  - intros g'. rewrite heap_keys_group_removeEntity, nextGroupId_group_removeEntity.
    apply Hi.
Qed.

Lemma group_addEntity_groups_inv g e w :
  groups_inv w -> groups_inv (group_addEntity g e w).
Proof.
  intros (Hb & Hs & Hi). split; [| split].
  - intros g' e' Hin. rewrite group_addEntity_hasEntity.
    destruct (N.eq_dec e' e) as [-> | Hn].
    + rewrite group_addEntity_groupsFor in Hin.
      destruct (JsMap.has g (heap w)) eqn:Hheap; simpl in Hin.
      * destruct (group_hasEntity g e w) eqn:Hm; simpl in Hin.
        -- now rewrite (Hb g' e Hin).
        -- apply set_In_add in Hin. destruct Hin as [-> | Hin].
           ++ rewrite !N.eqb_refl. apply orb_true_r.
           ++ now rewrite (Hb g' e Hin).
      * now rewrite (Hb g' e Hin).
    + rewrite (getGroupsForEntity_get Value e' _ _
                 (group_addEntity_others Value g e w e' Hn)) in Hin.
      now rewrite (Hb g' e' Hin).
  - intros e'. destruct (N.eq_dec e' e) as [-> | Hn].
    + rewrite group_addEntity_groupsFor.
      destruct (JsMap.has g (heap w) && negb (group_hasEntity g e w)); [| apply Hs].
      apply set_add_NoDup, Hs.
    + rewrite (getGroupsForEntity_get Value e' _ _
                 (group_addEntity_others Value g e w e' Hn)). apply Hs.
  - intros g'. rewrite heap_keys_group_addEntity, nextGroupId_group_addEntity.
    apply Hi.
Qed.

Lemma detachFromGroups_groups_inv e gs : forall w,
  groups_inv w -> groups_inv (detachFromGroups e gs w).
Proof.
  induction gs as [| g gs IH]; intros w H; simpl; [assumption |].
  apply IH.
  apply (groups_inv_ext (group_removeEntity g e w)); try reflexivity.
  now apply group_removeEntity_groups_inv.
Qed.

Lemma despawn_groups_inv e w : groups_inv w -> groups_inv (snd (despawn e w)).
Proof.
  intros H. destruct (valid e w) eqn:Hv; [| now rewrite despawn_invalid].
  destruct (despawn_group_state Value e w Hv) as [Hh Hm].
  pose proof (detachFromGroups_groups_inv e (getGroupsForEntity e w) w H) as (Hb & Hs & Hi).
  set (wd := detachFromGroups e (getGroupsForEntity e w) w) in *.
  assert (Hgs : forall e', getGroupsForEntity e' (snd (despawn e w))
                           = if N.eqb e' e then [] else getGroupsForEntity e' wd).
  { intros e'. unfold getGroupsForEntity. rewrite Hm, map_get_delete. cbn [keq Key_N].
    now destruct (N.eqb e' e). }
  split; [| split].
  - intros g e' Hin. rewrite Hgs in Hin. unfold group_hasEntity. rewrite Hh.
    destruct (N.eqb e' e); [destruct Hin | now apply Hb].
  - intros e'. rewrite Hgs. destruct (N.eqb e' e); [constructor | apply Hs].
  - intros g. rewrite Hh, nextGroupId_despawn.
    unfold wd. rewrite <- (nextGroupId_detachFromGroups e (getGroupsForEntity e w) w).
    apply Hi.
Qed.

Lemma despawnEach_groups_inv (s : Snapshot Value) ents : forall w,
  groups_inv w -> groups_inv (despawnEach s ents w).
Proof.
  induction ents as [| e ents IH]; intros w H; simpl; [assumption |].
  destruct (negb (JsMap.has e (entityStates s))); apply IH; [| assumption].
  now apply despawn_groups_inv.
Qed.

Lemma removeGroup_loop_groups_inv g ents : forall w,
  groups_inv w ->
  groups_inv (fold_left (fun w entity => group_removeEntity g entity w) ents w).
Proof.
  induction ents as [| e ents IH]; intros w H; simpl; [assumption |].
  apply IH. now apply group_removeEntity_groups_inv.
Qed.

Lemma group_table_update_groups_inv g G (t : Components Value) w :
  JsMap.get g (heap w) = Some G ->
  groups_inv w ->
  groups_inv (with_heap (JsMap.set g (mkGroup (g_id G) (g_entities G) t) (heap w)) w).
Proof.
  intros HG (Hb & Hs & Hi). split; [| split].
  - intros g' e Hin. specialize (Hb g' e Hin). revert Hb.
    unfold group_hasEntity. cbn [heap with_heap]. rewrite map_get_set. cbn [keq Key_N].
    destruct (N.eqb_spec g' g) as [-> | Hn]; [now rewrite HG | auto].
  - exact Hs.
  - intros g'. cbn [heap with_heap nextGroupId]. rewrite map_has_set. cbn [keq Key_N].
    destruct (N.eqb_spec g' g) as [-> | Hn]; [| apply Hi].
    intros _. apply Hi. unfold JsMap.has. now rewrite HG.
Qed.

Lemma step_groups_inv (op : Op Value) w : groups_inv w -> groups_inv (step deepClone op w).
Proof.
  intros H. destruct op.
  - now apply (groups_inv_ext w).
  - now apply despawn_groups_inv.
  - destruct (step_set_fields Value deepClone e c v w) as (_ & _ & _ & Hm & Hh & _).
    apply (groups_inv_ext w); try assumption.
    rewrite (proj2 (step_counters (OSet e c v) w)). apply N.add_0_r.
  - destruct (step_remove_fields Value deepClone e c w) as (_ & _ & _ & Hm & Hh & _).
    apply (groups_inv_ext w); try assumption.
    apply nextGroupId_remove.
  - destruct H as (Hb & Hs & Hi). cbn [step createGroup snd]. split; [| split].
    + intros g e Hin. pose proof (Hb g e Hin) as Hmem.
      pose proof (group_hasEntity_heap g e w Hmem) as Hk. apply Hi in Hk.
      unfold group_hasEntity in *. cbn [heap]. rewrite map_get_set. cbn [keq Key_N].
      destruct (N.eqb_spec g (nextGroupId w)) as [-> | Hn]; [lia | exact Hmem].
    + exact Hs.
    + intros g. cbn [heap nextGroupId]. rewrite map_has_set. cbn [keq Key_N].
      destruct (N.eqb_spec g (nextGroupId w)) as [-> | Hn]; [lia |].
      intros Hk. apply Hi in Hk. lia.
  - cbn [step]. unfold removeGroup.
    destruct (negb (JsSet.has g (groups w))); [assumption |].
    pose proof (removeGroup_loop_groups_inv g (group_getEntities g w) w H) as H'.
    now apply (groups_inv_ext _ _ eq_refl eq_refl eq_refl H').
  - now apply group_addEntity_groups_inv.
  - now apply group_removeEntity_groups_inv.
  - cbn [step]. unfold group_set.
    destruct (JsMap.get g (heap w)) as [G |] eqn:HG; [| assumption].
    now apply group_table_update_groups_inv.
  - cbn [step]. unfold group_remove.
    destruct (JsMap.get g (heap w)) as [G |] eqn:HG; [| assumption].
    cbn [snd]. now apply group_table_update_groups_inv.
  - cbn [step]. unfold revert.
    set (w1 := if negb (isPartial s) then despawnUnlisted s w else w).
    assert (H1 : groups_inv w1).
    { subst w1. destruct (negb (isPartial s)); [now apply despawnEach_groups_inv | assumption]. }
    destruct (restoreEntities_frame Value deepClone s (entityStates s) w1)
      as (_ & _ & Hm & Hh & Hn & _).
    now apply (groups_inv_ext w1).
Qed.

Lemma reachable_groups_inv w snaps : reachable deepClone w snaps -> groups_inv w.
Proof.
  induction 1; [| now apply step_groups_inv | assumption].
  split; [| split].
  - intros g e [].
  - intros e. constructor.
  - intros g Hk. discriminate Hk.
Qed.

(** ** despawn on a reachable world *)

(** X21: [despawn] of a live entity returns true and leaves nothing of it: it is
    not live, owns nothing, is in no group and in no entry of the reverse
    index; every other entity is seen as before; and a second [despawn]
    returns false and changes nothing. *)
Theorem despawn_removes_entity_everywhere w snaps (e : EntityId) :
  reachable deepClone w snaps -> valid e w = true ->
  let w' := snd (despawn e w) in
  fst (despawn e w) = true /\
  valid e w' = false /\
  (forall c, own_has e c w' = false /\ has e c w' = false /\ get e c w' = None) /\
  getGroupsForEntity e w' = [] /\
  (forall g, group_hasEntity g e w' = false) /\
  (forall e', e' <> e ->
     valid e' w' = valid e' w /\
     getGroupsForEntity e' w' = getGroupsForEntity e' w /\
     forall c, has e' c w' = has e' c w /\ get e' c w' = get e' c w) /\
  despawn e w' = (false, w').
Proof.
  intros Hreach Hv w'.
  destruct (reachable_inv Value deepClone w snaps Hreach) as ((Hok & _) & Hsync & _).
  assert (Hd : fst (despawn e w) = true).
  { rewrite despawn_result, Hv. simpl. now apply Hok. }
  assert (Hdead : valid e w' = false).
  { subst w'. rewrite despawn_valid, Hd, N.eqb_refl. simpl. apply andb_false_r. }
  destruct (despawn_fields Value e w) as (_ & _ & _ & Hc & _). rewrite Hd in Hc.
  fold w' in Hc.
  split; [exact Hd |]. split; [exact Hdead |].
  split; [| split; [| split; [| split]]].
  - intros c. unfold has, get. rewrite Hdead. simpl. split; [| auto].
    unfold own_has. rewrite Hc, map_get_delete_eq. reflexivity.
  - now apply despawn_groupsFor_self.
  - intros g. subst w'. rewrite despawn_hasEntity_self by assumption.
    destruct (group_hasEntity g e w) eqn:Hm; [| reflexivity].
    apply Hsync, set_has_In in Hm. now rewrite Hm.
  - intros e' Hne. destruct (despawn_others Value e w e' Hne) as [Hm Hh].
    fold w' in Hm, Hh.
    assert (Hv' : valid e' w' = valid e' w).
    { subst w'. rewrite despawn_valid, (proj2 (N.eqb_neq e' e) Hne). apply andb_true_r. }
    assert (Hgs : getGroupsForEntity e' w' = getGroupsForEntity e' w).
    { now apply getGroupsForEntity_get. }
    split; [exact Hv' |]. split; [exact Hgs |].
    apply observe_ext; try assumption.
    + intros _ c. unfold own_get. rewrite Hc, map_get_delete_neq by assumption. reflexivity.
    + apply group_get_tables. intros g. apply despawn_tables.
  - now apply despawn_invalid.
Qed.

Lemma log_group_removeEntity g e w :
  log (group_removeEntity g e w)
  = log w ++ (if group_hasEntity g e w then [EntityRemovedFromGroup e g] else []).
Proof.
  unfold group_removeEntity, group_hasEntity.
  destruct (JsMap.get g (heap w)) as [G |]; [| now rewrite app_nil_r].
  destruct (JsSet.has e (g_entities G)); [| now rewrite app_nil_r].
  unfold onGroupEntityRemoved. repeat break_match; reflexivity.
Qed.

Lemma detachFromGroups_log e gs : forall w,
  NoDup gs ->
  (forall g, In g gs -> group_hasEntity g e w = true) ->
  log (detachFromGroups e gs w)
  = log w ++ flat_map (fun g => [EntityRemovedFromGroup e g; EntityRemovedFromGroup e g]) gs.
Proof.
  induction gs as [| g gs IH]; intros w Hnd Hmem; simpl; [now rewrite app_nil_r |].
  inversion Hnd as [| ? ? Hni Hnd']; subst.
  rewrite IH; [| assumption |].
  - simpl. rewrite log_group_removeEntity, (Hmem g (or_introl eq_refl)).
    now rewrite <- !app_assoc.
  - intros g' Hin.
    change (group_hasEntity g' e (fire (EntityRemovedFromGroup e g)
                                    (group_removeEntity g e w)))
      with (group_hasEntity g' e (group_removeEntity g e w)).
    rewrite group_removeEntity_hasEntity, (Hmem g' (or_intror Hin)). simpl.
    assert (Hne : g' <> g) by (intros ->; contradiction).
    now rewrite (proj2 (N.eqb_neq g' g) Hne).
Qed.

(** X22: The events of a [despawn]: for each group of the entity
    [EntityRemovedFromGroup] twice in a row, once from the listener that
    [createGroup] put on the group and once from [despawn] itself, then
    [ComponentRemoved] for each own component, then [EntityDespawned]. *)
Theorem despawn_announces_each_group_removal_twice w snaps (e : EntityId) :
  reachable deepClone w snaps -> valid e w = true ->
  log (snd (despawn e w))
  = log w
    ++ flat_map (fun g => [EntityRemovedFromGroup e g; EntityRemovedFromGroup e g])
         (getGroupsForEntity e w)
    ++ map (ComponentRemoved e) (ownComponentIds e w)
    ++ [EntityDespawned e].
Proof.
  intros Hreach Hv.
  destruct (reachable_inv Value deepClone w snaps Hreach) as ((Hok & _) & _).
  destruct (reachable_groups_inv w snaps Hreach) as (Hb & Hs & _).
  destruct (map_has_get e (components w) (Hok e Hv)) as [comps Hg].
  unfold ownComponentIds. rewrite Hg.
  pose proof (Hb) as Hb'. pose proof (Hs e) as Hnd.
  unfold despawn. rewrite Hv. simpl negb. cbv iota.
  unfold getGroupsForEntity in *.
  destruct (JsMap.get e (entityToGroups w)) as [gs |] eqn:Hgs.
  - set (wd := detachFromGroups e gs w).
    assert (Hcd : components wd = components w).
    { apply (detachFromGroups_same_entities Value e gs w). }
    cbv zeta. cbn [components with_entityToGroups]. fold wd. rewrite Hcd, Hg.
    rewrite fire_all_eq. cbn [snd log fire with_entities with_components with_entityToGroups].
    unfold wd. rewrite detachFromGroups_log; [now rewrite <- !app_assoc | exact Hnd |].
    intros g Hin. apply Hb'. unfold getGroupsForEntity. now rewrite Hgs.
  - cbv zeta. rewrite Hg. rewrite fire_all_eq. simpl. now rewrite <- !app_assoc.
Qed.

(** ** Removing a group, and the overlay of group components *)

Lemma removeGroup_loop_hasEntity g ents g' e' : forall w,
  group_hasEntity g' e' (fold_left (fun w entity => group_removeEntity g entity w) ents w)
  = group_hasEntity g' e' w && negb (N.eqb g' g && JsSet.has e' ents).
Proof.
  induction ents as [| e ents IH]; intros w; simpl.
  - now rewrite andb_false_r, andb_true_r.
  - rewrite IH, group_removeEntity_hasEntity.
    destruct (group_hasEntity g' e' w), (N.eqb g' g), (N.eqb e' e), (JsSet.has e' ents);
      reflexivity.
Qed.

Lemma removeGroup_loop_tables g ents g' : forall w,
  option_map (@g_components Value)
    (JsMap.get g' (heap (fold_left (fun w entity => group_removeEntity g entity w) ents w)))
  = option_map (@g_components Value) (JsMap.get g' (heap w)).
Proof.
  induction ents as [| e ents IH]; intros w; simpl; [reflexivity |].
  rewrite IH. apply group_removeEntity_tables.
Qed.

Lemma filter_filter_comm_aux {A} (f g : A -> bool) (l : list A) :
  filter f (filter g l) = filter g (filter f l).
Proof.
  induction l as [| x l IH]; simpl; [reflexivity |].
  destruct (f x) eqn:Hf, (g x) eqn:Hg; simpl; rewrite ?Hf, ?Hg, IH; reflexivity.
Qed.

Lemma set_has_none (l : list EntityId) : (forall e, JsSet.has e l = false) -> l = [].
Proof.
  destruct l as [| x l]; [reflexivity |]. intros H. specialize (H x).
  simpl in H. rewrite N.eqb_refl in H. discriminate.
Qed.

(** X23: [removeGroup] of a group of the world takes every member out of the
    group and the group out of the reverse index of every entity and out of
    the world's set of groups; the other groups keep their members, every
    group its component table, and the entities their tables.  For a group
    that is not in the world's set it does nothing. *)
Theorem removeGroup_detaches_every_member w snaps (g : GroupId) :
  reachable deepClone w snaps ->
  let w' := removeGroup g w in
  (JsSet.has g (groups w) = false -> w' = w) /\
  (JsSet.has g (groups w) = true ->
     JsSet.has g (groups w') = false /\
     group_getEntities g w' = [] /\
     (forall e, group_hasEntity g e w' = false /\ ~ In g (getGroupsForEntity e w')) /\
     (forall g' e, g' <> g ->
        group_hasEntity g' e w' = group_hasEntity g' e w /\
        (In g' (getGroupsForEntity e w') <-> In g' (getGroupsForEntity e w))) /\
     (forall g' c, group_get g' c w' = group_get g' c w /\
                   group_has g' c w' = group_has g' c w) /\
     (forall c, getGroupsWithComponent c w'
                = JsSet.delete g (getGroupsWithComponent c w)) /\
     same_tables w w').
Proof.
  intros Hreach w'. split.
  - intros Hno. subst w'. unfold removeGroup. now rewrite Hno.
  - intros Hin.
    assert (Hreach' : reachable deepClone w' snaps).
    { apply (@reach_step Value deepClone w snaps (ORemoveGroup g) Hreach).
      intros s Hs. discriminate Hs. }
    destruct (reachable_inv Value deepClone w snaps Hreach) as (_ & Hsync & _).
    destruct (reachable_inv Value deepClone w' snaps Hreach') as (_ & Hsync' & _).
    destruct (reachable_groups_inv w snaps Hreach) as (Hb & _).
    destruct (reachable_groups_inv w' snaps Hreach') as (Hb' & _).
    set (w1 := fold_left (fun w entity => group_removeEntity g entity w)
                 (group_getEntities g w) w).
    assert (Hw' : w' = with_groups (JsSet.delete g (groups w1)) w1).
    { subst w'. unfold removeGroup. now rewrite Hin. }
    assert (Hmem : forall g' e,
              group_hasEntity g' e w'
              = group_hasEntity g' e w && negb (N.eqb g' g && JsSet.has e (group_getEntities g w))).
    { intros g' e. rewrite Hw'. apply (removeGroup_loop_hasEntity g _ g' e w). }
    assert (Hgone : forall e, group_hasEntity g e w' = false).
    { intros e. rewrite Hmem, N.eqb_refl. simpl.
      unfold group_hasEntity, group_getEntities.
      destruct (JsMap.get g (heap w)) as [G |]; [| reflexivity].
      now destruct (JsSet.has e (g_entities G)). }
    assert (Htabs : forall g' c, group_get g' c w' = group_get g' c w /\
                                 group_has g' c w' = group_has g' c w).
    { apply group_get_tables. intros g'. rewrite Hw'. cbn [heap with_groups].
      apply removeGroup_loop_tables. }
    split; [| split; [| split; [| split; [| split; [| split]]]]].
    + rewrite Hw'. cbn [groups with_groups]. rewrite set_has_delete, keq_refl. reflexivity.
    + apply set_has_none. intros e. specialize (Hgone e). revert Hgone.
      unfold group_hasEntity, group_getEntities.
      now destruct (JsMap.get g (heap w')).
    + intros e. split; [apply Hgone |].
      intros Hl. apply Hb' in Hl. rewrite Hgone in Hl. discriminate.
    + intros g' e Hne.
      assert (Hsame : group_hasEntity g' e w' = group_hasEntity g' e w).
      { rewrite Hmem, (proj2 (N.eqb_neq g' g) Hne). apply andb_true_r. }
      split; [exact Hsame |]. split.
      * intros Hl. apply Hsync. rewrite <- Hsame. now apply Hb'.
      * intros Hl. apply Hsync'. rewrite Hsame. now apply Hb.
    + exact Htabs.
    + intros c. unfold getGroupsWithComponent.
      rewrite (filter_ext _ (fun g' => group_has g' c w)) by (intros g'; apply Htabs).
      rewrite Hw'. cbn [groups with_groups].
      replace (groups w1) with (groups w).
      * unfold JsSet.delete. apply filter_filter_comm_aux.
      * symmetry. apply (removeGroup_loop_same_entities Value g (group_getEntities g w) w).
    + apply (step_group_same_tables Value deepClone (ORemoveGroup g) w); reflexivity.
Qed.

Lemma find_first (f : GroupId -> bool) (x : GroupId) (l : list GroupId) :
  In x l -> f x = true -> (forall y, In y l -> y <> x -> f y = false) ->
  find f l = Some x.
Proof.
  induction l as [| a l IH]; simpl; [intros [] |].
  intros Hin Hx Hothers. destruct (N.eq_dec a x) as [-> | Hne].
  - now rewrite Hx.
  - rewrite (Hothers a (or_introl eq_refl) Hne).
    destruct Hin as [-> | Hin]; [congruence |]. apply IH; auto.
Qed.

Lemma find_none {A} (f : A -> bool) (l : list A) :
  (forall y, In y l -> f y = false) -> find f l = None.
Proof.
  induction l as [| a l IH]; simpl; [reflexivity |].
  intros H. rewrite (H a (or_introl eq_refl)). apply IH. auto.
Qed.

(** X24: A component set on a group is what [get] gives for every live member
    that does not own the component and has no other group with it; once
    the component is removed from the group the member has it no more. *)
Theorem group_component_reaches_members (g : GroupId) (c : Id) (v : Value)
    (e : EntityId) w :
  valid e w = true -> own_has e c w = false ->
  In g (getGroupsForEntity e w) -> JsMap.has g (heap w) = true ->
  (forall g', In g' (getGroupsForEntity e w) -> g' <> g -> group_has g' c w = false) ->
  let w1 := group_set g c v w in
  let r := group_remove g c w1 in
  get e c w1 = Some v /\ has e c w1 = true /\
  fst r = true /\
  get e c (snd r) = None /\ has e c (snd r) = false.
Proof.
  intros Hv Hown Hin Hheap Hothers w1 r.
  apply map_has_get in Hheap. destruct Hheap as [G HG].
  set (G1 := mkGroup (g_id G) (g_entities G) (JsMap.set c v (g_components G))).
  assert (Hw1 : w1 = with_heap (JsMap.set g G1 (heap w)) w).
  { subst w1. unfold group_set. now rewrite HG. }
  assert (HG1 : JsMap.get g (heap w1) = Some G1).
  { rewrite Hw1. cbn [heap with_heap]. apply map_get_set_eq. }
  set (G2 := mkGroup (g_id G1) (g_entities G1) (JsMap.delete c (g_components G1))).
  assert (Hr : r = (true, with_heap (JsMap.set g G2 (heap w1)) w1)).
  { subst r. unfold group_remove. rewrite HG1. f_equal.
    simpl. rewrite map_has_set, keq_refl. reflexivity. }
  assert (Hhas1 : forall g', group_has g' c w1 = if N.eqb g' g then true else group_has g' c w).
  { intros g'. unfold group_has. rewrite Hw1. cbn [heap with_heap].
    rewrite map_get_set. cbn [keq Key_N]. destruct (N.eqb g' g); [| reflexivity].
    simpl. rewrite map_has_set, keq_refl. reflexivity. }
  assert (Hhas2 : forall g', group_has g' c (snd r)
                             = if N.eqb g' g then false else group_has g' c w).
  { intros g'. rewrite Hr. unfold group_has at 1. cbn [snd heap with_heap].
    rewrite map_get_set. cbn [keq Key_N].
    destruct (N.eqb_spec g' g) as [-> | Hne].
    - simpl. rewrite map_has_delete, keq_refl. reflexivity.
    - fold (group_has g' c w1). rewrite Hhas1. now rewrite (proj2 (N.eqb_neq g' g) Hne). }
  assert (Hfirst : find (fun g' => group_has g' c w1) (getGroupsForEntity e w) = Some g).
  { apply find_first; [exact Hin | now rewrite Hhas1, N.eqb_refl |].
    intros g' Hg' Hne. rewrite Hhas1, (proj2 (N.eqb_neq g' g) Hne). now apply Hothers. }
  assert (Hnone : forall g', In g' (getGroupsForEntity e w) -> group_has g' c (snd r) = false).
  { intros g' Hg'. rewrite Hhas2. destruct (N.eqb_spec g' g) as [-> | Hne]; [reflexivity |].
    now apply Hothers. }
  assert (Hget1 : group_get g c w1 = Some v).
  { unfold group_get. rewrite HG1. simpl. apply map_get_set_eq. }
  assert (Hs1 : valid e w1 = true /\ own_has e c w1 = false /\
                getGroupsForEntity e w1 = getGroupsForEntity e w).
  { rewrite Hw1. repeat split; assumption. }
  assert (Hs2 : valid e (snd r) = true /\ own_has e c (snd r) = false /\
                getGroupsForEntity e (snd r) = getGroupsForEntity e w).
  { rewrite Hr, Hw1. repeat split; assumption. }
  destruct Hs1 as (Hv1 & Ho1 & Hg1). destruct Hs2 as (Hv2 & Ho2 & Hg2).
  split; [| split; [| split; [| split]]].
  - rewrite get_groups, Hv1, Ho1, Hg1, Hfirst. exact Hget1.
  - rewrite has_groups, Hv1, Ho1, Hg1. simpl.
    apply existsb_exists. exists g. split; [exact Hin | now rewrite Hhas1, N.eqb_refl].
  - now rewrite Hr.
  - rewrite get_groups, Hv2, Ho2, Hg2. simpl. now rewrite find_none.
  - rewrite has_groups, Hv2, Ho2, Hg2. simpl.
    apply not_true_is_false. intros Hex. apply existsb_exists in Hex.
    destruct Hex as [g' [Hg' Hh]]. rewrite (Hnone g' Hg') in Hh. discriminate.
Qed.

(** ** What a snapshot holds *)

Lemma cloneFiltered_fold_get (comps : Components Value) (c : Id) : forall ids acc,
  JsMap.get c
    (fold_left
       (fun cloned id =>
          match JsMap.get id comps with
          | Some v => JsMap.set id (deepClone v) cloned
          | None => cloned
          end) ids acc)
  = if includes c ids
    then match JsMap.get c comps with
         | Some v => Some (deepClone v)
         | None => JsMap.get c acc
         end
    else JsMap.get c acc.
Proof.
  induction ids as [| id ids IH]; intros acc; [reflexivity |].
  cbn [fold_left]. rewrite IH. unfold includes. cbn [existsb].
  fold (includes c ids).
  destruct (N.eqb_spec c id) as [-> | Hn]; simpl.
  - destruct (JsMap.get id comps) as [v |].
    + rewrite map_get_set_eq. now destruct (includes id ids).
    + now destruct (includes id ids).
  - destruct (JsMap.get id comps) as [v |]; [| reflexivity].
    now rewrite map_get_set_neq.
Qed.

Lemma cloneFiltered_get (comps : Components Value) (ids : list Id) (c : Id) :
  JsMap.get c (cloneFiltered deepClone ids comps)
  = if includes c ids then option_map deepClone (JsMap.get c comps) else None.
Proof.
  unfold cloneFiltered. rewrite cloneFiltered_fold_get.
  destruct (includes c ids); [| reflexivity]. now destruct (JsMap.get c comps).
Qed.

Lemma map_empty_get {V} (m : list (Id * V)) :
  m = [] <-> forall c, JsMap.get c m = None.
Proof.
  split; [now intros -> |].
  destruct m as [| [k v] r]; [reflexivity |]. intros H. specialize (H k).
  simpl in H. rewrite N.eqb_refl in H. discriminate.
Qed.

Lemma cloneFiltered_empty (comps : Components Value) (ids : list Id) :
  match cloneFiltered deepClone ids comps with [] => true | _ => false end
  = negb (existsb (fun c => JsMap.has c comps) ids).
Proof.
  destruct (existsb (fun c => JsMap.has c comps) ids) eqn:Hex; simpl.
  - apply existsb_exists in Hex. destruct Hex as [c [Hin Hh]].
    destruct (cloneFiltered deepClone ids comps) eqn:Hcl; [| reflexivity].
    exfalso. pose proof (cloneFiltered_get comps ids c) as Hg.
    rewrite Hcl, (proj2 (includes_In c ids) Hin) in Hg. simpl in Hg.
    unfold JsMap.has in Hh. destruct (JsMap.get c comps); discriminate.
  - replace (cloneFiltered deepClone ids comps) with (@nil (Id * Value)); [reflexivity |].
    symmetry. apply map_empty_get. intros c. rewrite cloneFiltered_get.
    destruct (includes c ids) eqn:Hi; [| reflexivity].
    apply includes_In in Hi.
    assert (Hh : JsMap.has c comps = false).
    { destruct (JsMap.has c comps) eqn:Hh; [| reflexivity].
      assert (existsb (fun c => JsMap.has c comps) ids = true).
      { apply existsb_exists. eauto. }
      congruence. }
    unfold JsMap.has in Hh. now destruct (JsMap.get c comps).
Qed.

(** The entry of an entity in the map that a capture returns. *)
Lemma captureEntities_get cm filter e : forall ents acc states,
  captureEntities deepClone ents cm filter acc = Returned states ->
  JsMap.get e states
  = if JsSet.has e ents
    then match JsMap.get e cm with
         | Some comps =>
             if filtering filter
             then match cloneFiltered deepClone
                          (match filter with Some ids => ids | None => [] end) comps with
                  | [] => JsMap.get e acc
                  | t => Some t
                  end
             else Some (cloneAll deepClone comps)
         | None => JsMap.get e acc
         end
    else JsMap.get e acc.
Proof.
  induction ents as [| e0 ents IH]; intros acc states; simpl.
  - now intros [= <-].
  - destruct (JsMap.get e0 cm) as [comps0 |] eqn:Hg0; [| discriminate].
    assert (Hacc : forall t, e <> e0 -> JsMap.get e (JsMap.set e0 t acc) = JsMap.get e acc).
    { intros t Hn. now apply map_get_set_neq. }
    destruct (filtering filter) eqn:Hf.
    + destruct (cloneFiltered deepClone _ comps0) eqn:Hcl;
        intros Hcap; rewrite (IH _ _ Hcap); clear IH Hcap;
        (destruct (N.eqb_spec e e0) as [-> | Hn]; simpl;
         [rewrite Hg0, Hcl, ?map_get_set_eq; now destruct (JsSet.has e0 ents)
         | rewrite ?Hacc by assumption; reflexivity]).
    + intros Hcap; rewrite (IH _ _ Hcap); clear IH Hcap.
      destruct (N.eqb_spec e e0) as [-> | Hn]; simpl.
      * rewrite Hg0, map_get_set_eq. now destruct (JsSet.has e0 ents).
      * rewrite Hacc by assumption. reflexivity.
Qed.

Lemma captureEntities_tables cm filter : forall ents acc states,
  captureEntities deepClone ents cm filter acc = Returned states ->
  forall e, In e ents -> JsMap.has e cm = true.
Proof.
  induction ents as [| e0 ents IH]; intros acc states; simpl; [intros _ e [] |].
  destruct (JsMap.get e0 cm) as [comps0 |] eqn:Hg0; [| discriminate].
  intros Hcap e [<- | Hin].
  - exact (map_get_has e0 cm comps0 Hg0).
  - destruct (filtering filter); [destruct (cloneFiltered deepClone _ comps0) |];
      eapply IH; eauto.
Qed.

(** X25: What [createSnapshot] captures.  A snapshot without a filter, or with
    an empty one, has an entry for every live entity, with a clone of each
    value of its own table; a snapshot with a filter has an entry for the
    live entities that own at least one listed component, holding the
    clones of the listed components they own. *)
Theorem snapshot_captures_own_tables (id now : N) (filter : option (list Id)) w
    (s : Snapshot Value) :
  tables_nodup w ->
  snapshot deepClone id now filter w = Returned (Some s) ->
  let ids := match filter with Some ids => ids | None => [] end in
  snap_id s = id /\ snap_timestamp s = now /\ snap_components s = filter /\
  (forall e, JsMap.has e (entityStates s)
             = valid e w
               && (negb (filtering filter) || existsb (fun c => own_has e c w) ids)) /\
  (forall e sc, JsMap.get e (entityStates s) = Some sc ->
     forall c, JsMap.get c sc
               = if negb (filtering filter) || includes c ids
                 then option_map deepClone (own_get e c w)
                 else None).
Proof.
  intros Hnd Hsnap ids.
  assert (Hfields : snap_id s = id /\ snap_timestamp s = now).
  { unfold snapshot, createSnapshot in Hsnap.
    destruct (captureEntities deepClone (entities w) (components w) filter []);
      [| discriminate].
    injection Hsnap as <-. auto. }
  destruct (snapshot_inversion Value deepClone id now filter w s Hsnap) as [Hf Hcap].
  pose proof (captureEntities_tables _ _ _ _ _ Hcap) as Htab.
  assert (Hentry : forall e, JsMap.get e (entityStates s)
            = if valid e w
              then match JsMap.get e (components w) with
                   | Some comps =>
                       if filtering filter
                       then match cloneFiltered deepClone ids comps with
                            | [] => None
                            | t => Some t
                            end
                       else Some (cloneAll deepClone comps)
                   | None => None
                   end
              else None).
  { intros e. rewrite (captureEntities_get _ _ e _ _ _ Hcap). reflexivity. }
  destruct Hfields as [Hid Hnow].
  split; [exact Hid |]. split; [exact Hnow |]. split; [exact Hf |]. split.
  - intros e. unfold JsMap.has at 1. rewrite Hentry.
    destruct (valid e w) eqn:Hv; [| reflexivity]. simpl.
    assert (Hhas : JsMap.has e (components w) = true).
    { apply Htab. now apply set_has_In. }
    apply map_has_get in Hhas. destruct Hhas as [comps Hg]. rewrite Hg.
    destruct (filtering filter); simpl; [| reflexivity].
    pose proof (cloneFiltered_empty comps ids) as He.
    rewrite (existsb_ext_all (fun c => own_has e c w) (fun c => JsMap.has c comps)).
    + destruct (cloneFiltered deepClone ids comps); simpl in He.
      * now destruct (existsb _ ids).
      * now destruct (existsb _ ids).
    + intros c. unfold own_has. now rewrite Hg.
  - intros e sc. rewrite Hentry. destruct (valid e w); [| discriminate].
    destruct (JsMap.get e (components w)) as [comps |] eqn:Hg; [| discriminate].
    unfold own_get. rewrite Hg. destruct (filtering filter); simpl.
    + destruct (cloneFiltered deepClone ids comps) as [| p l] eqn:Hcl; [discriminate |].
      intros [= <-] c. rewrite <- Hcl. apply cloneFiltered_get.
    + intros [= <-] c. apply cloneAll_get. now apply (Hnd e).
Qed.

Lemma fold_left_ext_all {A B} (f g : A -> B -> A) (l : list B) :
  (forall a b, f a b = g a b) -> forall a, fold_left f l a = fold_left g l a.
Proof.
  intros H. induction l as [| x l IH]; intros a; simpl; [reflexivity |].
  now rewrite H, IH.
Qed.

Lemma captureEntities_unfiltered cm f1 f2 : forall ents acc,
  filtering f1 = false -> filtering f2 = false ->
  captureEntities deepClone ents cm f1 acc = captureEntities deepClone ents cm f2 acc.
Proof.
  induction ents as [| e ents IH]; intros acc H1 H2; simpl; [reflexivity |].
  destruct (JsMap.get e cm); [| reflexivity].
  rewrite H1, H2. now apply IH.
Qed.

Lemma revert_unfiltered (s1 s2 : Snapshot Value) w :
  isPartial s1 = false -> isPartial s2 = false ->
  entityStates s1 = entityStates s2 ->
  revert deepClone s1 w = revert deepClone s2 w.
Proof.
  intros H1 H2 Hst.
  assert (Hrestores : forall id, restores s1 id = restores s2 id).
  { intros id. unfold restores. now rewrite H1, H2. }
  assert (Htable : forall e sc cur,
            restoreTable deepClone s1 e sc cur = restoreTable deepClone s2 e sc cur).
  { intros e sc cur. unfold restoreTable. rewrite H1, H2. simpl.
    unfold restoreComponents.
    rewrite (fold_left_ext_all
               (fun acc kv =>
                  if restores s1 (fst kv)
                  then (JsMap.set (fst kv) (deepClone (snd kv)) (fst acc),
                        snd acc ++ [ComponentAdded e (fst kv)])
                  else acc)
               (fun acc kv =>
                  if restores s2 (fst kv)
                  then (JsMap.set (fst kv) (deepClone (snd kv)) (fst acc),
                        snd acc ++ [ComponentAdded e (fst kv)])
                  else acc)); [reflexivity |].
    intros acc kv. now rewrite Hrestores. }
  assert (Hentity : forall e sc w0,
            restoreEntity deepClone s1 e sc w0 = restoreEntity deepClone s2 e sc w0).
  { intros e sc w0. unfold restoreEntity.
    destruct (negb (JsSet.has e (entities w0)) && (JsMap.size sc =? 0)%nat); [reflexivity |].
    destruct (JsMap.get e _); [| reflexivity]. now rewrite Htable. }
  assert (Hloop : forall states w0,
            restoreEntities deepClone s1 states w0 = restoreEntities deepClone s2 states w0).
  { induction states as [| [e sc] rest IH]; intros w0; simpl; [reflexivity |].
    rewrite Hentity. destruct (restoreEntity deepClone s2 e sc w0); [apply IH | reflexivity]. }
  unfold revert, despawnUnlisted, despawnEach. rewrite H1, H2, Hst. apply Hloop.
Qed.

(** X26: A snapshot taken with an empty list of components is a full snapshot:
    it captures what the snapshot without a list captures, and [revert]
    treats it as one, despawning the entities it does not hold. *)
Theorem empty_filter_gives_a_full_snapshot (id now : N) w :
  match snapshot deepClone id now None w, snapshot deepClone id now (Some []) w with
  | Returned (Some s), Returned (Some s') =>
      entityStates s' = entityStates s /\
      snap_components s' = Some [] /\ isPartial s' = false /\
      forall w', revert deepClone s' w' = revert deepClone s w'
  | Threw, Threw => True
  | _, _ => False
  end.
Proof.
  unfold snapshot, createSnapshot.
  rewrite (captureEntities_unfiltered (components w) (Some []) None (entities w) [])
    by reflexivity.
  destruct (captureEntities deepClone (entities w) (components w) None []); [| exact I].
  split; [reflexivity |]. split; [reflexivity |]. split; [reflexivity |].
  intros w'. now apply revert_unfiltered.
Qed.

(** ** The older world and the indexed one *)

(** X27: On a store where live entities have their table, [set], [remove] and
    [despawn] of the indexed world do to the entities, their tables, the
    groups and the event log exactly what the ones of the older world do;
    they differ in the archetype index alone, which [despawn] does not
    touch either. *)
Theorem indexed_calls_refine_the_unindexed (e : EntityId) (c : Id) (v : Value) w :
  tables_ok w ->
  match set_unindexed e c v w, set e c v w with
  | Returned w0, Returned w1 => same_store w0 w1 /\ log w1 = log w0
  | Threw, Threw => valid e w = false
  | _, _ => False
  end /\
  match remove_unindexed e c w with
  | Returned (r, w0) =>
      fst (remove e c w) = r /\ same_store w0 (snd (remove e c w)) /\
      log (snd (remove e c w)) = log w0
  | Threw => False
  end /\
  despawn_unindexed e w = Returned (despawn e w).
Proof.
  intros Hok. split; [| split].
  - unfold set_unindexed. destruct (valid e w) eqn:Hv; simpl.
    + destruct (map_has_get e (components w) (Hok e Hv)) as [comps Hg]. rewrite Hg.
      destruct (set_live e c v w comps Hv Hg) as (w1 & -> & Hs & Hlog).
      destruct (JsMap.has c comps).
      * split; [exact Hs |]. rewrite Hlog. simpl. apply app_nil_r.
      * split; [| exact Hlog].
        eapply same_store_trans; [| exact Hs]. repeat split.
    + rewrite set_threw by assumption. reflexivity.
  - unfold remove_unindexed. destruct (valid e w) eqn:Hv; simpl.
    + destruct (map_has_get e (components w) (Hok e Hv)) as [comps Hg]. rewrite Hg.
      destruct (JsMap.has c comps) eqn:Hh.
      * destruct (remove_live e c w comps Hv Hg Hh) as (Hr & Hs & Hlog).
        split; [exact Hr |]. split; [| exact Hlog].
        eapply same_store_trans; [| exact Hs]. repeat split.
      * assert (Hr : fst (remove e c w) = false).
        { rewrite remove_result, Hv. unfold own_has. now rewrite Hg, Hh. }
        rewrite (remove_false Value e c w Hr).
        split; [exact Hr |]. split; [apply same_store_refl | reflexivity].
    + assert (Hr : fst (remove e c w) = false) by (now rewrite remove_result, Hv).
      rewrite (remove_false Value e c w Hr).
      split; [exact Hr |]. split; [apply same_store_refl | reflexivity].
  - unfold despawn_unindexed, despawn. destruct (valid e w) eqn:Hv; simpl; [| reflexivity].
    destruct (map_has_get e (components w) (Hok e Hv)) as [comps Hg].
    destruct (JsMap.get e (entityToGroups w)) as [gs |]; cbv zeta.
    + cbn [components with_entityToGroups].
      rewrite (proj1 (proj2 (proj2 (detachFromGroups_same_entities Value e gs w)))), Hg.
      reflexivity.
    + rewrite Hg. reflexivity.
Qed.

(** ** The invariants of a reachable world *)

(** X28: What holds of every state that is reached from a new world by the
    methods of the world and of its groups, a revert being to a snapshot
    that was taken of this world on the way (a revert to a snapshot of
    another world, and calls on the events of a group, are not among the
    steps of [reachable]): every live entity has a table and got its id
    from [spawn], no map or set holds a key twice, a group has an entity as
    a member exactly when the reverse index lists the group for the entity,
    every group object was made by [createGroup], and the snapshots taken
    are maps of maps that hold only ids that were issued. *)
Theorem reachable_worlds_are_well_formed w snaps :
  reachable deepClone w snaps ->
  tables_ok w /\ ids_issued w /\ tables_nodup w /\ entities_nodup w /\
  (forall g e, group_hasEntity g e w = true <-> In g (getGroupsForEntity e w)) /\
  group_sets_ok w /\ heap_issued w /\
  (forall s, In s snaps -> snapshot_wf s) /\
  snapshots_issued snaps w.
Proof.
  intros Hreach.
  destruct (reachable_inv Value deepClone w snaps Hreach)
    as ((Hok & Hid & Hnd) & Hsync & Hiss & Hwf).
  destruct (reachable_groups_inv w snaps Hreach) as (Hb & Hs & Hi).
  split; [exact Hok |]. split; [exact Hid |]. split; [exact Hnd |].
  split; [exact (reachable_entities_nodup w snaps Hreach) |].
  split; [intros g e; split; [apply Hsync | apply Hb] |].
  split; [exact Hs |]. split; [exact Hi |]. split; [exact Hwf | exact Hiss].
Qed.

(** ** The events of a revert *)

Lemma pruneComponents_nothing e (sc cur : Components Value) :
  (forall c, In c (JsMap.keys cur) -> JsMap.has c sc = true) ->
  pruneComponents e sc cur = (cur, []).
Proof.
  unfold pruneComponents. generalize (cur, @nil WorldEvent) as acc.
  induction (JsMap.keys cur) as [| k ks IH]; intros acc Hall; simpl; [reflexivity |].
  rewrite (Hall k (or_introl eq_refl)). simpl. apply IH. intros c Hc. apply Hall. now right.
Qed.

Lemma restoreComponents_events (s : Snapshot Value) e :
  (forall id, restores s id = true) ->
  forall (sc : Components Value) acc,
  snd (fold_left
         (fun acc kv =>
            if restores s (fst kv)
            then (JsMap.set (fst kv) (deepClone (snd kv)) (fst acc),
                  snd acc ++ [ComponentAdded e (fst kv)])
            else acc)
         sc acc)
  = snd acc ++ map (ComponentAdded e) (JsMap.keys sc).
Proof.
  intros Hall. induction sc as [| [k v] r IH]; intros acc; simpl.
  - now rewrite app_nil_r.
  - rewrite Hall, IH. simpl. now rewrite <- app_assoc.
Qed.

Lemma despawnEach_nothing (s : Snapshot Value) ents : forall w,
  (forall e, In e ents -> JsMap.has e (entityStates s) = true) ->
  despawnEach s ents w = w.
Proof.
  induction ents as [| e ents IH]; intros w Hall; simpl; [reflexivity |].
  rewrite (Hall e (or_introl eq_refl)). simpl. apply IH. intros x Hx. apply Hall. now right.
Qed.

Lemma restoreEntities_events (s : Snapshot Value) :
  isPartial s = false ->
  forall states w,
  NoDup (JsMap.keys states) ->
  (forall e sc, In (e, sc) states ->
     valid e w = true /\
     exists cur, JsMap.get e (components w) = Some cur /\
                 forall c, In c (JsMap.keys cur) -> JsMap.has c sc = true) ->
  log (restoreEntities deepClone s states w)
  = log w ++ flat_map (fun p => map (ComponentAdded (fst p)) (JsMap.keys (snd p))) states.
Proof.
  intros Hfull.
  assert (Hres : forall id, restores s id = true).
  { intros id. unfold restores. now rewrite Hfull. }
  induction states as [| [e sc] rest IH]; intros w Hnd Hall; simpl.
  - now rewrite app_nil_r.
  - inversion Hnd as [| ? ? Hni Hnd']; subst.
    destruct (Hall e sc (or_introl eq_refl)) as (Hv & cur & Hg & Hkeys).
    unfold restoreEntity. unfold valid in Hv. rewrite Hv. simpl. rewrite Hg.
    rewrite IH; [| assumption |].
    + rewrite fire_all_eq. simpl. unfold restoreTable. rewrite Hfull. simpl.
      rewrite (pruneComponents_nothing e sc cur Hkeys). simpl.
      unfold restoreComponents. rewrite (restoreComponents_events s e Hres). simpl.
      now rewrite <- app_assoc.
    + intros e' sc' Hin.
      assert (Hne : e' <> e).
      { intros ->. apply Hni. apply in_map_iff. exists (e, sc'). auto. }
      destruct (Hall e' sc' (or_intror Hin)) as (Hv' & cur' & Hg' & Hkeys').
      rewrite fire_all_eq. unfold valid. simpl. split; [exact Hv' |].
      exists cur'. split; [| exact Hkeys'].
      now rewrite map_get_set_neq.
Qed.

(** X29: A revert to a full snapshot taken of the very state it is applied to
    keeps the entities and gives every component the clone of its captured
    clone, and it fires [ComponentAdded] for every component of every
    entity, in the order of the snapshot, and no other event. *)
Theorem revert_announces_every_captured_component (id now : N) w snaps
    (s : Snapshot Value) :
  reachable deepClone w snaps ->
  snapshot deepClone id now None w = Returned (Some s) ->
  let w' := revert deepClone s w in
  (forall e, valid e w' = valid e w) /\
  (forall e c, valid e w = true ->
     own_get e c w' = option_map (fun v => deepClone (deepClone v)) (own_get e c w)) /\
  log w'
  = log w ++ flat_map (fun p => map (ComponentAdded (fst p)) (JsMap.keys (snd p)))
               (entityStates s).
Proof.
  intros Hreach Hsnap w'.
  destruct (reachable_inv Value deepClone w snaps Hreach) as ((Hok & _ & Hnd) & _).
  destruct (snapshot_full_states Value deepClone id now None w s Hok eq_refl Hsnap)
    as [Hfull Hstates].
  pose proof (snapshot_wf_captured Value deepClone id now None w s Hsnap) as Hwf.
  destruct (revert_spec Value deepClone s w Hwf Hok) as (_ & Hvalid & Htab & _).
  fold w' in Hvalid, Htab.
  assert (Hcur : forall e, valid e w = true -> NoDup (JsMap.keys (currentTable e w))).
  { intros e Hv. apply (Hnd e). now apply tables_ok_get. }
  split; [| split].
  - intros e. rewrite Hvalid, Hfull. unfold JsMap.has. rewrite Hstates.
    destruct (valid e w); reflexivity.
  - intros e c Hv. unfold own_get.
    rewrite (Htab e (cloneAll deepClone (currentTable e w))) by (now rewrite Hstates, Hv).
    rewrite Hv. cbn [negb andb]. rewrite restoreTable_get.
    + rewrite cloneAll_get by (now apply Hcur). unfold restores. rewrite Hfull. simpl.
      rewrite (tables_ok_get Value e w Hok Hv).
      now destruct (JsMap.get c (currentTable e w)).
    + apply cloneAll_fold_NoDup. constructor.
  - subst w'. destruct Hwf as [Hkeys _].
    unfold revert. rewrite Hfull. simpl. unfold despawnUnlisted.
    rewrite despawnEach_nothing.
    + apply restoreEntities_events; [exact Hfull | exact Hkeys |].
      intros e sc Hin. apply (map_NoDup_get e sc _ Hkeys) in Hin.
      rewrite Hstates in Hin. destruct (valid e w) eqn:Hv; [| discriminate].
      injection Hin as <-. split; [reflexivity |].
      exists (currentTable e w). split; [now apply tables_ok_get |].
      intros c Hc. apply map_has_keys in Hc. unfold JsMap.has in *.
      rewrite cloneAll_get by (now apply Hcur).
      now destruct (JsMap.get c (currentTable e w)).
    + intros e Hin. unfold JsMap.has. rewrite Hstates. unfold valid.
      now rewrite (proj2 (set_has_In e (entities w)) Hin).
Qed.

End MoreWorldFacts.

(** * Adding an entity to a group and taking it out again *)

Section GroupRoundTrip.
Variable Value : Type.
Variable deepClone : Value -> Value.
Implicit Types w : World Value.

Lemma log_group_addEntity g e w :
  log (group_addEntity g e w)
  = log w ++ (if JsMap.has g (heap w) && negb (group_hasEntity g e w)
              then [EntityAddedToGroup e g] else []).
Proof.
  unfold group_addEntity, group_hasEntity, JsMap.has.
  destruct (JsMap.get g (heap w)) as [G |]; [| now rewrite app_nil_r].
  destruct (JsSet.has e (g_entities G)); [now rewrite app_nil_r |]. cbn [negb andb].
  unfold onGroupEntityAdded. repeat break_match; reflexivity.
Qed.

Lemma group_addEntity_member g e w :
  group_hasEntity g e w = true -> group_addEntity g e w = w.
Proof.
  unfold group_hasEntity, group_addEntity.
  destruct (JsMap.get g (heap w)) as [G |]; [| reflexivity].
  now intros ->.
Qed.

Lemma group_removeEntity_stranger g e w :
  group_hasEntity g e w = false -> group_removeEntity g e w = w.
Proof.
  unfold group_hasEntity, group_removeEntity.
  destruct (JsMap.get g (heap w)) as [G |]; [| reflexivity].
  now intros ->.
Qed.

Lemma set_delete_add (g : GroupId) (gs : list GroupId) :
  ~ In g gs -> JsSet.delete g (JsSet.add g gs) = gs.
Proof.
  intros Hni. unfold JsSet.add.
  rewrite (proj2 (set_has_false g gs)) by assumption.
  unfold JsSet.delete. rewrite filter_app. simpl. rewrite N.eqb_refl. simpl.
  rewrite app_nil_r. exact (set_delete_absent g gs (proj2 (set_has_false g gs) Hni)).
Qed.

(** X30: [addEntity] of an entity that is not a member makes it one, and a
    second [addEntity] changes nothing and fires nothing; [removeEntity]
    then puts the membership of every group and what [get] and [has] say
    back to what they were, the two calls having fired [EntityAddedToGroup]
    and [EntityRemovedFromGroup]; and a second [removeEntity] changes
    nothing. *)
Theorem addEntity_is_idempotent_and_undone_by_removeEntity w snaps
    (g : GroupId) (e : EntityId) :
  reachable deepClone w snaps ->
  JsMap.has g (heap w) = true -> group_hasEntity g e w = false ->
  let w1 := group_addEntity g e w in
  let w2 := group_removeEntity g e w1 in
  group_hasEntity g e w1 = true /\
  group_addEntity g e w1 = w1 /\
  (forall g' e', group_hasEntity g' e' w2 = group_hasEntity g' e' w) /\
  (forall e', getGroupsForEntity e' w2 = getGroupsForEntity e' w) /\
  (forall e' c, get e' c w2 = get e' c w /\ has e' c w2 = has e' c w) /\
  log w2 = log w ++ [EntityAddedToGroup e g; EntityRemovedFromGroup e g] /\
  group_removeEntity g e w2 = w2.
Proof.
  intros Hreach Hheap Hout w1 w2.
  destruct (reachable_groups_inv Value deepClone w snaps Hreach) as (Hb & _).
  assert (Hin1 : group_hasEntity g e w1 = true).
  { subst w1. rewrite group_addEntity_hasEntity, Hheap, !N.eqb_refl. apply orb_true_r. }
  assert (Hmem : forall g' e', group_hasEntity g' e' w2 = group_hasEntity g' e' w).
  { intros g' e'. subst w2 w1.
    rewrite group_removeEntity_hasEntity, group_addEntity_hasEntity, Hheap.
    destruct (N.eqb_spec g' g) as [-> | Hg]; simpl; [| now rewrite orb_false_r, andb_true_r].
    destruct (N.eqb_spec e' e) as [-> | He]; simpl; [| now rewrite orb_false_r, andb_true_r].
    rewrite Hout. reflexivity. }
  assert (Hgs : forall e', getGroupsForEntity e' w2 = getGroupsForEntity e' w).
  { intros e'. subst w2. destruct (N.eq_dec e' e) as [-> | Hne].
    - rewrite group_removeEntity_groupsFor, Hin1. subst w1.
      rewrite group_addEntity_groupsFor, Hheap, Hout. simpl.
      apply set_delete_add. intros Hl. apply Hb in Hl. congruence.
    - rewrite (getGroupsForEntity_get Value e' _ _
                 (group_removeEntity_others Value g e w1 e' Hne)).
      subst w1. apply getGroupsForEntity_get. now apply group_addEntity_others. }
  split; [exact Hin1 |]. split; [now apply group_addEntity_member |].
  split; [exact Hmem |]. split; [exact Hgs |].
  split; [| split].
  - intros e' c. apply and_comm.
    destruct (group_removeEntity_same_entities Value g e w1) as (_ & He2 & Hc2 & _).
    destruct (group_addEntity_same_entities Value g e w) as (_ & He1 & Hc1 & _).
    fold w1 in He1, Hc1. fold w2 in He2, Hc2.
    apply observe_ext.
    + unfold valid. now rewrite He2, He1.
    + intros _ c'. unfold own_get. now rewrite Hc2, Hc1.
    + apply Hgs.
    + apply group_get_tables. intros g'. subst w2 w1.
      now rewrite group_removeEntity_tables, group_addEntity_tables.
  - subst w2. rewrite log_group_removeEntity, Hin1. subst w1.
    rewrite log_group_addEntity, Hheap, Hout. simpl. now rewrite <- app_assoc.
  - apply group_removeEntity_stranger. now rewrite Hmem.
Qed.

End GroupRoundTrip.

(** * Group membership comes from [addEntity] alone *)

Section MembershipFacts.
Variable Value : Type.
Variable deepClone : Value -> Value.
Implicit Types w : World Value.

Lemma membership_within_refl e w : membership_within e w w.
Proof. split; auto. Qed.

Lemma membership_within_trans e w1 w2 w3 :
  membership_within e w1 w2 -> membership_within e w2 w3 -> membership_within e w1 w3.
Proof. intros [H1 H2] [H3 H4]. split; auto. Qed.

Lemma membership_within_same e w w' :
  JsMap.get e (entityToGroups w') = JsMap.get e (entityToGroups w) ->
  (forall g, group_hasEntity g e w' = group_hasEntity g e w) ->
  membership_within e w w'.
Proof.
  intros Hm Hh. split.
  - intros g. now rewrite (getGroupsForEntity_get Value e w w' Hm).
  - intros g. now rewrite Hh.
Qed.

Lemma membership_within_fields e w w' :
  entityToGroups w' = entityToGroups w -> heap w' = heap w -> membership_within e w w'.
Proof.
  intros Hm Hh. apply membership_within_same; [now rewrite Hm |].
  intros g. unfold group_hasEntity. now rewrite Hh.
Qed.

Lemma group_removeEntity_within g e0 w e :
  membership_within e w (group_removeEntity g e0 w).
Proof.
  split.
  - intros g'. destruct (N.eq_dec e e0) as [-> | Hn].
    + rewrite group_removeEntity_groupsFor.
      destruct (group_hasEntity g e0 w); [| auto].
      intros Hin. now apply set_In_delete in Hin.
    + now rewrite (getGroupsForEntity_get Value e _ _ (group_removeEntity_others Value g e0 w e Hn)).
  - intros g'. rewrite group_removeEntity_hasEntity. intros H.
    apply andb_true_iff in H. tauto.
Qed.

Lemma group_addEntity_within g e0 w e :
  e0 <> e -> membership_within e w (group_addEntity g e0 w).
Proof.
  intros Hn. apply membership_within_same.
  - apply group_addEntity_others. congruence.
  - intros g'. rewrite group_addEntity_hasEntity.
    assert (He : N.eqb e e0 = false) by (apply N.eqb_neq; congruence).
    now rewrite He, andb_false_r, orb_false_r.
Qed.

Lemma removeGroup_within g w e : membership_within e w (removeGroup g w).
Proof.
  unfold removeGroup. destruct (negb (JsSet.has g (groups w)));
    [apply membership_within_refl |].
  set (loop := fold_left (fun w entity => group_removeEntity g entity w)).
  apply (membership_within_trans e w (loop (group_getEntities g w) w));
    [| apply membership_within_fields; reflexivity].
  generalize (group_getEntities g w) as ents. intros ents. generalize w as w0.
  induction ents as [| e0 ents IH]; intros w0; simpl; [apply membership_within_refl |].
  eapply membership_within_trans; [apply (group_removeEntity_within g e0 w0 e) | apply IH].
Qed.

Lemma detachFromGroups_within e0 gs e : forall w,
  membership_within e w (detachFromGroups e0 gs w).
Proof.
  induction gs as [| g gs IH]; intros w; simpl; [apply membership_within_refl |].
  eapply membership_within_trans; [| apply IH].
  apply (membership_within_trans e w (group_removeEntity g e0 w));
    [apply group_removeEntity_within |].
  apply membership_within_fields; reflexivity.
Qed.

Lemma despawn_within e0 w e : membership_within e w (snd (despawn e0 w)).
Proof.
  destruct (valid e0 w) eqn:Hv;
    [| rewrite (despawn_invalid Value e0 w Hv); apply membership_within_refl].
  destruct (N.eq_dec e e0) as [-> | Hn].
  - split.
    + intros g. now rewrite (despawn_groupsFor_self Value e0 w Hv).
    + intros g. rewrite (despawn_hasEntity_self Value e0 w g Hv). intros H.
      apply andb_true_iff in H. tauto.
  - destruct (despawn_others Value e0 w e Hn) as [Hm Hh].
    now apply membership_within_same.
Qed.

Lemma despawnEach_within s ents e : forall w,
  membership_within e w (despawnEach s ents w).
Proof.
  induction ents as [| e0 ents IH]; intros w; simpl; [apply membership_within_refl |].
  destruct (negb (JsMap.has e0 (entityStates s))); [| apply IH].
  eapply membership_within_trans; [apply (despawn_within e0 w e) | apply IH].
Qed.

Lemma revert_within s w e : membership_within e w (revert deepClone s w).
Proof.
  unfold revert.
  set (w1 := if negb (isPartial s) then despawnUnlisted s w else w).
  assert (H1 : membership_within e w w1).
  { subst w1. destruct (negb (isPartial s));
      [apply despawnEach_within | apply membership_within_refl]. }
  eapply membership_within_trans; [exact H1 |].
  destruct (restoreEntities_frame Value deepClone s (entityStates s) w1)
    as (_ & _ & Hm & Hh & _).
  now apply membership_within_fields.
Qed.

(** No call but [addEntity] of the entity puts it into a group. *)
Lemma step_within op w e :
  (forall g, op <> OAddEntity g e) -> membership_within e w (step deepClone op w).
Proof.
  intros Hop. destruct op; cbn [step].
  - destruct (spawn_fields Value w) as (_ & _ & _ & _ & _ & Hm & Hh).
    now apply membership_within_fields.
  - apply despawn_within.
  - destruct (step_set_fields Value deepClone e0 c v w) as (_ & _ & _ & Hm & Hh & _).
    now apply membership_within_fields.
  - destruct (step_remove_fields Value deepClone e0 c w) as (_ & _ & _ & Hm & Hh & _).
    now apply membership_within_fields.
  - split; [auto |].
    intros g. unfold group_hasEntity, createGroup. simpl. rewrite map_get_set.
    cbn [keq Key_N]. destruct (N.eqb g (nextGroupId w)); [discriminate | auto].
  - apply removeGroup_within.
  - apply group_addEntity_within. intros ->. now apply (Hop g).
  - apply group_removeEntity_within.
  - apply membership_within_same.
    + unfold group_set. now destruct (JsMap.get g (heap w)).
    + intros g'. unfold group_set, group_hasEntity.
      destruct (JsMap.get g (heap w)) as [G |] eqn:HG; [| reflexivity].
      simpl. rewrite map_get_set. cbn [keq Key_N].
      destruct (N.eqb_spec g' g) as [-> | Hn]; [now rewrite HG | reflexivity].
  - apply membership_within_same.
    + unfold group_remove. now destruct (JsMap.get g (heap w)).
    + intros g'. unfold group_remove, group_hasEntity.
      destruct (JsMap.get g (heap w)) as [G |] eqn:HG; [| reflexivity].
      simpl. rewrite map_get_set. cbn [keq Key_N].
      destruct (N.eqb_spec g' g) as [-> | Hn]; [now rewrite HG | reflexivity].
  - apply revert_within.
Qed.

Lemma run_within ops e : forall w,
  (forall g, ~ In (OAddEntity g e) ops) ->
  membership_within e w (run deepClone ops w).
Proof.
  induction ops as [| op ops IH]; intros w Hops; simpl; [apply membership_within_refl |].
  apply (membership_within_trans e w (step deepClone op w)).
  - apply step_within. intros g ->. apply (Hops g). now left.
  - apply IH. intros g Hin. apply (Hops g). now right.
Qed.

(** After its despawn an entity is in no group, on either side, when the
    reverse index listed its groups. *)
Lemma despawn_leaves_every_group e w :
  fst (despawn e w) = true ->
  getGroupsForEntity e (snd (despawn e w)) = [] /\
  (groups_synced w -> forall g, group_hasEntity g e (snd (despawn e w)) = false).
Proof.
  intros Hd. rewrite despawn_result in Hd. apply andb_true_iff in Hd.
  destruct Hd as [Hv _]. split; [now apply despawn_groupsFor_self |].
  intros Hs g. rewrite (despawn_hasEntity_self Value e w g Hv).
  destruct (group_hasEntity g e w) eqn:Hh; [| reflexivity].
  apply Hs, set_has_In in Hh. now rewrite Hh.
Qed.

(** C9, amended: revert leaves the world's set of groups and every group's
    component table as they were, and it puts no entity into a group: the
    groups of an entity, and its membership of any group, change only for
    an entity that was live and that a full snapshot does not list (the
    ones revert despawns), and for these they can only get fewer.  So an
    entity that revert brings back to life has the groups that it had just
    before the revert: none, on either side, when it was despawned and no
    [addEntity] has named it since, whatever else was called in between and
    whatever groups it was in at capture. *)
Theorem revert_leaves_groups_alone s w :
  let w' := revert deepClone s w in
  groups w' = groups w /\
  (forall g c, group_get g c w' = group_get g c w /\ group_has g c w' = group_has g c w) /\
  (forall e,
     JsMap.has e (entityStates s) = true \/ valid e w = false \/ isPartial s = true ->
     getGroupsForEntity e w' = getGroupsForEntity e w /\
     forall g, group_hasEntity g e w' = group_hasEntity g e w) /\
  (forall e, membership_within e w w') /\
  (forall e ops,
     fst (despawn e w) = true ->
     (forall g, ~ In (OAddEntity g e) ops) ->
     let w1 := run deepClone ops (snd (despawn e w)) in
     getGroupsForEntity e (revert deepClone s w1) = [] /\
     (groups_synced w -> forall g, group_hasEntity g e (revert deepClone s w1) = false) /\
     (snapshot_wf s -> tables_ok w1 ->
      forall sc, JsMap.get e (entityStates s) = Some sc -> sc <> [] ->
                 valid e (revert deepClone s w1) = true)).
Proof.
  intros w'. subst w'.
  destruct (revert_frame Value deepClone s w) as (_ & Hg & _ & _ & Ht).
  split; [exact Hg |]. split; [| split; [| split]].
  - now apply group_get_tables.
  - intros e Hkept. destruct (revert_membership Value deepClone s w e Hkept) as [Hm Hh].
    split; [now apply getGroupsForEntity_get | exact Hh].
  - intros e. apply revert_within.
  - intros e ops Hd Hops w1.
    destruct (despawn_leaves_every_group e w Hd) as [Hnone Hout].
    assert (Hin : membership_within e (snd (despawn e w)) (revert deepClone s w1)).
    { eapply membership_within_trans; [apply (run_within ops e _ Hops) |].
      apply revert_within. }
    destruct Hin as [Hrev Hgrp]. split; [| split].
    + destruct (getGroupsForEntity e (revert deepClone s w1)) as [| g gs] eqn:Hgs;
        [reflexivity |].
      exfalso. specialize (Hrev g). rewrite Hnone in Hrev. apply Hrev. now left.
    + intros Hs g. destruct (group_hasEntity g e (revert deepClone s w1)) eqn:Hh;
        [| reflexivity].
      apply Hgrp in Hh. now rewrite (Hout Hs g) in Hh.
    + intros Hwf Hok sc Hget Hne. eapply revert_recreates; eauto.
Qed.

End MembershipFacts.

(** C9, as stated, fails: [addEntity] does not look at liveness, so an
    entity that was despawned can be put into a group, and the revert that
    brings it back to life leaves it there.  Entity 1 is captured, despawned
    and then added to group 1 again; after the revert it is live, it is a
    member of the group and it sees the group's component. *)
Lemma revert_recreates_entity_as_group_member :
  let clone := fun v : N => v in
  let w0 := run clone [OSpawn; OSet 1 1 10; OCreateGroup; OAddEntity 1 1; OGroupSet 1 7 42]
              createWorld in
  let w1 := run clone [ODespawn 1; OAddEntity 1 1] w0 in
  exists s,
    snapshot clone 1 0 None w0 = Returned (Some s) /\
    fst (despawn 1 w0) = true /\
    valid 1 w1 = false /\
    valid 1 (revert clone s w1) = true /\
    getGroupsForEntity 1 (revert clone s w1) = [1] /\
    group_hasEntity 1 1 (revert clone s w1) = true /\
    get 1 7 (revert clone s w1) = Some 42.
Proof. eexists. split; [reflexivity |]. repeat split. Qed.

Lemma revert_leaves_groups_alone_witness :
  let clone := fun v : N => v in
  let w0 := run clone [OSpawn; OSet 1 1 10; OCreateGroup; OAddEntity 1 1; OGroupSet 1 7 42]
              createWorld in
  let s := mkSnapshot 1 0 [(1, [(1, 10)])] None in
  let ops := [OSpawn; OAddEntity 1 2; ORemoveEntity 1 1; OSet 1 1 11] in
  let w1 := run clone ops (snd (despawn 1 w0)) in
  getGroupsForEntity 1 w0 = [1] /\
  fst (despawn 1 w0) = true /\
  getGroupsForEntity 1 (revert clone s w1) = [] /\
  group_hasEntity 1 1 (revert clone s w1) = false /\
  valid 1 (revert clone s w1) = true /\
  group_get 1 7 (revert clone s w0) = Some 42.
Proof.
  intros clone w0 s ops w1.
  assert (Hreach : reachable clone w0 []).
  { apply reachable_run; [apply reach_new | reflexivity]. }
  destruct (reachable_inv N clone w0 [] Hreach) as (_ & Hsync & _).
  destruct (revert_leaves_groups_alone N clone s w0) as (_ & Htab & _ & _ & Hgone).
  assert (Hops : forall g, ~ In (OAddEntity g 1) ops).
  { intros g [H | [H | [H | [H | []]]]]; discriminate H. }
  destruct (Hgone 1 ops eq_refl Hops) as (Hnone & Hout & _).
  split; [reflexivity |]. split; [reflexivity |]. split; [exact Hnone |].
  split; [exact (Hout Hsync 1) |]. split; [reflexivity |].
  rewrite (proj1 (Htab 1 7)). reflexivity.
Defined.

(** * The further theorems at concrete events and worlds *)

Lemma connect_adds_fresh_connection_witness :
  let plain : Event.Callback := [] in
  let ev := snd (Event.connect plain (snd (Event.connect plain Event.create))) in
  Event.wf ev /\
  fst (Event.connect plain ev) = 2 /\
  Event.getConnectionCount (snd (Event.connect plain ev)) = 3%nat.
Proof.
  intros plain ev.
  assert (Hwf : Event.wf ev) by (apply connect_wf, connect_wf, create_wf).
  split; [exact Hwf |]. split; [reflexivity |].
  destruct (connect_adds_fresh_connection plain ev Hwf) as (_ & _ & Hcount & _).
  exact Hcount.
Defined.

Lemma disconnect_is_final_and_idempotent_witness :
  let again := [Event.AConnect []] in
  let ev := snd (Event.connect again (snd (Event.connect [] Event.create))) in
  0 < Event.nextId ev /\
  fst (Event.fire (Event.Disconnect 0 ev)) = [1; 2] /\
  ~ In 0 (fst (Event.fire (Event.Disconnect 0 ev))).
Proof.
  intros again ev.
  assert (Hlt : 0 < Event.nextId ev) by reflexivity.
  split; [exact Hlt |]. split; [reflexivity |].
  exact (proj1 (disconnect_is_final_and_idempotent 0 ev Hlt)).
Defined.

Lemma disconnectAll_keeps_the_id_counter_witness :
  let plain : Event.Callback := [] in
  let ev := snd (Event.connect plain (snd (Event.connect plain Event.create))) in
  let ev1 := snd (Event.connect plain (Event.disconnectAll ev)) in
  Event.wf ev /\
  Event.connections ev1 = [(2, plain)] /\
  Event.Disconnect 1 ev1 = ev1.
Proof.
  intros plain ev ev1.
  assert (Hwf : Event.wf ev) by (apply connect_wf, connect_wf, create_wf).
  split; [exact Hwf |].
  destruct (disconnectAll_keeps_the_id_counter plain ev Hwf) as (_ & _ & Hconn & Hstale).
  split; [exact Hconn |].
  exact (proj2 (Hstale 1 (or_intror (or_introl eq_refl)))).
Defined.

Lemma fire_only_removes_what_handlers_disconnect_witness :
  let h0 := [Event.ADisconnect 1; Event.AConnect [Event.ADisconnect 0]] in
  let h1 : Event.Callback := [] in
  let ev := snd (Event.connect h1 (snd (Event.connect h0 Event.create))) in
  Event.wf ev /\
  fst (Event.fire ev) = [0; 2] /\
  Event.nextId (snd (Event.fire ev)) = 3 /\
  JsMap.has 1 (Event.connections (snd (Event.fire ev))) = false /\
  JsMap.has 0 (Event.connections (snd (Event.fire ev))) = false.
Proof.
  intros h0 h1 ev.
  assert (Hwf : Event.wf ev) by (apply connect_wf, connect_wf, create_wf).
  split; [exact Hwf |]. split; [reflexivity |].
  destruct (fire_only_removes_what_handlers_disconnect ev Hwf) as (_ & Hn & _ & Hgone).
  split; [exact Hn |]. split.
  - apply (Hgone 1 eq_refl). exists 0, h0. split; [now left | now left].
  - apply (Hgone 0 eq_refl). exists 2, [Event.ADisconnect 0].
    split; [right; now left | now left].
Defined.

Lemma wait_is_one_shot_witness :
  let plain : Event.Callback := [] in
  let ev := snd (Event.connect plain Event.create) in
  let ev1 := snd (Event.wait ev) in
  let ev2 := snd (Event.fire ev1) in
  Event.wf ev /\
  fst (Event.wait ev) = 1 /\
  In 1 (fst (Event.fire ev1)) /\
  ~ In 1 (fst (Event.fire ev2)).
Proof.
  intros plain ev ev1 ev2.
  assert (Hwf : Event.wf ev) by (apply connect_wf, create_wf).
  assert (Hothers : forall id cb, In (id, cb) (Event.connections ev) ->
                                  ~ In (Event.nextId ev) (Event.cb_disconnects cb)).
  { intros id cb [[= <- <-] | []] []. }
  split; [exact Hwf |]. split; [reflexivity |].
  destruct (wait_is_one_shot ev Hwf Hothers) as (_ & Hcalled & _ & Hnever).
  split; [exact Hcalled | exact Hnever].
Defined.

Lemma set_then_get_witness :
  let w := run (fun v : N => v) [OSpawn; OSpawn; OSet 2 7 3] createWorld in
  exists w',
    set 1 7 5 w = Returned w' /\ get 1 7 w' = Some 5 /\ get 2 7 w' = Some 3 /\
    set 9 7 5 w = Threw.
Proof.
  intros w.
  destruct (set_then_get N 1 7 5 w) as [_ Hlive].
  destruct (Hlive eq_refl eq_refl) as (w' & Hset & Hget & _ & Hframe & _).
  assert (Hne : (2 : N) <> 1) by discriminate.
  exists w'. split; [exact Hset |]. split; [exact Hget |]. split.
  - rewrite (proj1 (Hframe 2 7 (or_introl Hne))). reflexivity.
  - reflexivity.
Defined.

Lemma set_then_remove_restores_the_store_witness :
  let clone := fun v : N => v in
  let w := run clone [OSpawn; OCreateGroup; OAddEntity 1 1; OGroupSet 1 7 42] createWorld in
  let w1 := match set 1 7 5 w with Returned x => x | Threw => w end in
  own_has 1 7 w = false /\
  set 1 7 5 w = Returned w1 /\
  get 1 7 w1 = Some 5 /\
  get 1 7 (snd (remove 1 7 w1)) = Some 42.
Proof.
  intros clone w w1.
  destruct (set_then_remove_restores_the_store N 1 7 5 w w1 eq_refl eq_refl)
    as (_ & _ & Hobs & _).
  split; [reflexivity |]. split; [reflexivity |]. split; [reflexivity |].
  etransitivity; [exact (proj1 (Hobs 1 7)) | reflexivity].
Defined.

Lemma component_zero_is_invisible_to_the_index_witness :
  let w := run (fun v : N => v) [OSpawn; OSet 1 0 5] createWorld in
  own_has 1 0 w = true /\ each (query [0]) w = [].
Proof.
  intros w. split; [reflexivity |].
  destruct (component_zero_is_invisible_to_the_index N (query [0]) w) as [Hreq _].
  exact (proj1 (Hreq (or_introl eq_refl))).
Defined.

Lemma each_unindexed_scans_own_tables_witness :
  let clone := fun v : N => v in
  let w := run clone [OSpawn; OSet 1 1 10; OSpawn; OSet 2 2 20; OSpawn; OSet 3 1 30]
             createWorld in
  tables_ok w /\
  each_unindexed (query [1]) w = Returned [(1, [Some 10]); (3, [Some 30])].
Proof.
  intros clone w.
  assert (Hreach : reachable clone w []).
  { apply reachable_run; [apply reach_new | reflexivity]. }
  destruct (reachable_inv N clone w [] Hreach) as ((Hok & _) & _).
  split; [exact Hok |].
  etransitivity; [exact (each_unindexed_scans_own_tables N (query [1]) w Hok) | reflexivity].
Defined.

Lemma query_without_required_scans_entities_witness :
  let clone := fun v : N => v in
  let w0 := run clone [OSpawn; OSet 1 1 10] createWorld in
  let s := mkSnapshot 1 0 [(1, [(1, 10)])] None in
  let w := run clone [ORemove 1 1; ORevert s] w0 in
  reachable clone w [s] /\
  each (query [1]) w = [] /\
  In (1, []) (each (without [2] (query [])) w).
Proof.
  intros clone w0 s w.
  assert (Hreach : reachable clone w [s]).
  { apply (@reach_step N clone _ [s] (ORevert s)); [| intros s' [= <-]; now left].
    apply (@reach_step N clone _ [s] (ORemove 1 1)); [| intros s' Hs; discriminate Hs].
    apply (@reach_snapshot N clone w0 [] 1 0 None s); [| reflexivity].
    apply reachable_run; [apply reach_new | reflexivity]. }
  split; [exact Hreach |]. split; [reflexivity |].
  destruct (query_without_required_scans_entities N clone [2] w [s] Hreach) as [_ Hcalls].
  apply Hcalls. split; reflexivity.
Defined.

Lemma indexed_each_agrees_with_unindexed_each_witness :
  let clone := fun v : N => v in
  let ops := [OSpawn; OSet 1 1 10; OSpawn; OSet 2 1 20; OSet 2 2 5; OSpawn; ODespawn 1] in
  let w := run clone ops createWorld in
  exists calls,
    each_unindexed (query [1]) w = Returned calls /\
    Permutation (each (query [1]) w) calls.
Proof.
  intros clone ops w.
  assert (Hpos : Forall (fun c : N => 0 < c) (required (query [1]) ++ excluded (query [1]))).
  { repeat constructor. }
  exact (indexed_each_agrees_with_unindexed_each N clone ops (query [1]) eq_refl Hpos).
Defined.

Lemma despawn_removes_entity_everywhere_witness :
  let clone := fun v : N => v in
  let w := run clone [OSpawn; OSet 1 1 10; OCreateGroup; OAddEntity 1 1; OSpawn]
             createWorld in
  let w' := snd (despawn 1 w) in
  group_hasEntity 1 1 w = true /\
  valid 1 w' = false /\ group_hasEntity 1 1 w' = false /\
  getGroupsForEntity 1 w' = [] /\ valid 2 w' = true.
Proof.
  intros clone w w'.
  assert (Hreach : reachable clone w []).
  { apply reachable_run; [apply reach_new | reflexivity]. }
  destruct (despawn_removes_entity_everywhere N clone w [] 1 Hreach eq_refl)
    as (_ & Hdead & _ & Hgs & Hmem & _).
  split; [reflexivity |]. split; [exact Hdead |]. split; [exact (Hmem 1) |].
  split; [exact Hgs | reflexivity].
Defined.

Lemma despawn_announces_each_group_removal_twice_witness :
  let clone := fun v : N => v in
  let w := run clone [OSpawn; OSet 1 1 10; OCreateGroup; OAddEntity 1 1] createWorld in
  log (snd (despawn 1 w))
  = log w ++ [EntityRemovedFromGroup 1 1; EntityRemovedFromGroup 1 1;
              ComponentRemoved 1 1; EntityDespawned 1].
Proof.
  intros clone w.
  assert (Hreach : reachable clone w []).
  { apply reachable_run; [apply reach_new | reflexivity]. }
  etransitivity;
    [exact (despawn_announces_each_group_removal_twice N clone w [] 1 Hreach eq_refl)
    | reflexivity].
Defined.

Lemma removeGroup_detaches_every_member_witness :
  let clone := fun v : N => v in
  let w := run clone [OSpawn; OCreateGroup; OAddEntity 1 1; OGroupSet 1 7 42] createWorld in
  let w' := removeGroup 1 w in
  has 1 7 w = true /\
  group_getEntities 1 w' = [] /\ ~ In 1 (getGroupsForEntity 1 w') /\
  group_get 1 7 w' = Some 42.
Proof.
  intros clone w w'.
  assert (Hreach : reachable clone w []).
  { apply reachable_run; [apply reach_new | reflexivity]. }
  destruct (removeGroup_detaches_every_member N clone w [] 1 Hreach) as [_ Hrem].
  destruct (Hrem eq_refl) as (_ & Hnone & Hgone & _ & Htab & _).
  split; [reflexivity |]. split; [exact Hnone |]. split; [exact (proj2 (Hgone 1)) |].
  etransitivity; [exact (proj1 (Htab 1 7)) | reflexivity].
Defined.

Lemma group_component_reaches_members_witness :
  let clone := fun v : N => v in
  let w := run clone [OSpawn; OCreateGroup; OAddEntity 1 1] createWorld in
  get 1 7 w = None /\
  get 1 7 (group_set 1 7 42 w) = Some 42 /\
  get 1 7 (snd (group_remove 1 7 (group_set 1 7 42 w))) = None.
Proof.
  intros clone w.
  assert (Hothers : forall g', In g' (getGroupsForEntity 1 w) -> g' <> 1 ->
                               group_has g' 7 w = false).
  { intros g' [<- | []] Hne. now contradiction Hne. }
  destruct (group_component_reaches_members N 1 7 42 1 w eq_refl eq_refl
              (or_introl eq_refl) eq_refl Hothers)
    as (Hget & _ & _ & Hgone & _).
  split; [reflexivity |]. split; [exact Hget | exact Hgone].
Defined.

Lemma snapshot_captures_own_tables_witness :
  let clone := fun v : N => v in
  let w := run clone [OSpawn; OSet 1 1 10; OSet 1 2 20; OSpawn; OSet 2 2 5] createWorld in
  let s := mkSnapshot 7 3 [(1, [(1, 10)])] (Some [1]) in
  snapshot clone 7 3 (Some [1]) w = Returned (Some s) /\
  JsMap.has 1 (entityStates s) = true /\ JsMap.has 2 (entityStates s) = false.
Proof.
  intros clone w s.
  assert (Hreach : reachable clone w []).
  { apply reachable_run; [apply reach_new | reflexivity]. }
  destruct (reachable_inv N clone w [] Hreach) as ((_ & _ & Hnd) & _).
  destruct (snapshot_captures_own_tables N clone 7 3 (Some [1]) w s Hnd eq_refl)
    as (_ & _ & _ & Hhas & _).
  split; [reflexivity |].
  split; [etransitivity; [exact (Hhas 1) | reflexivity]
         | etransitivity; [exact (Hhas 2) | reflexivity]].
Defined.

Lemma reachable_worlds_are_well_formed_witness :
  let clone := fun v : N => v in
  let w := run clone [OSpawn; OSet 1 1 10; OCreateGroup; OAddEntity 1 1; OAddEntity 1 5;
                      ODespawn 1; OSpawn] createWorld in
  reachable clone w [] /\ tables_ok w /\ entities_nodup w /\
  (group_hasEntity 1 5 w = true <-> In 1 (getGroupsForEntity 5 w)).
Proof.
  intros clone w.
  assert (Hreach : reachable clone w []).
  { apply reachable_run; [apply reach_new | reflexivity]. }
  destruct (reachable_worlds_are_well_formed N clone w [] Hreach)
    as (Hok & _ & _ & Hnd & Hmem & _).
  split; [exact Hreach |]. split; [exact Hok |]. split; [exact Hnd | exact (Hmem 1 5)].
Defined.

Lemma revert_announces_every_captured_component_witness :
  let clone := fun v : N => v in
  let w := run clone [OSpawn; OSet 1 1 10; OSet 1 2 20] createWorld in
  let s := mkSnapshot 1 0 [(1, [(1, 10); (2, 20)])] None in
  snapshot clone 1 0 None w = Returned (Some s) /\
  log (revert clone s w) = log w ++ [ComponentAdded 1 1; ComponentAdded 1 2].
Proof.
  intros clone w s.
  assert (Hreach : reachable clone w []).
  { apply reachable_run; [apply reach_new | reflexivity]. }
  destruct (revert_announces_every_captured_component N clone 1 0 w [] s Hreach eq_refl)
    as (_ & _ & Hlog).
  split; [reflexivity |]. etransitivity; [exact Hlog | reflexivity].
Defined.

Lemma indexed_calls_refine_the_unindexed_witness :
  let clone := fun v : N => v in
  let w := run clone [OSpawn; OSet 1 1 10] createWorld in
  tables_ok w /\ despawn_unindexed 1 w = Returned (despawn 1 w).
Proof.
  intros clone w.
  assert (Hreach : reachable clone w []).
  { apply reachable_run; [apply reach_new | reflexivity]. }
  destruct (reachable_inv N clone w [] Hreach) as ((Hok & _) & _).
  split; [exact Hok |].
  destruct (indexed_calls_refine_the_unindexed N 1 1 10 w Hok) as (_ & _ & Hd).
  exact Hd.
Defined.

Lemma archetype_index_kept_without_revert_witness :
  let clone := fun v : N => v in
  let ops := [OSpawn; OSet 1 2 20; OSet 1 1 10; OSpawn; ODespawn 2] in
  let w := run clone ops createWorld in
  exists a, bucketsOf 1 w = [a] /\
            forall c, 0 < c -> includes c (parseArchetype a) = includes c [2; 1].
Proof.
  intros clone ops w.
  exact (archetype_index_kept_without_revert N clone ops eq_refl 1 eq_refl).
Defined.

Lemma query_correct_without_revert_witness :
  let clone := fun v : N => v in
  let ops := [OSpawn; OSet 1 1 10; OSpawn; OSet 2 2 20; ORemove 2 2] in
  let w := run clone ops createWorld in
  In (1, [Some 10]) (each (query [1]) w) /\ ~ In (2, [None]) (each (query [1]) w).
Proof.
  intros clone ops w.
  assert (Hpos : Forall (fun c : N => 0 < c) (required (query [1]) ++ excluded (query [1]))).
  { repeat constructor. }
  destruct (query_correct_without_revert N clone ops (query [1]) eq_refl Hpos)
    as [_ Hcalls].
  split.
  - apply Hcalls. split; reflexivity.
  - intros Hin. apply Hcalls in Hin. destruct Hin as [Hm _]. discriminate Hm.
Defined.

Lemma addEntity_is_idempotent_and_undone_by_removeEntity_witness :
  let clone := fun v : N => v in
  let w := run clone [OSpawn; OCreateGroup; OGroupSet 1 7 42] createWorld in
  let w1 := group_addEntity 1 1 w in
  let w2 := group_removeEntity 1 1 w1 in
  get 1 7 w1 = Some 42 /\ get 1 7 w2 = None /\ getGroupsForEntity 1 w2 = [].
Proof.
  intros clone w w1 w2.
  assert (Hreach : reachable clone w []).
  { apply reachable_run; [apply reach_new | reflexivity]. }
  destruct (addEntity_is_idempotent_and_undone_by_removeEntity N clone w [] 1 1
              Hreach eq_refl eq_refl)
    as (_ & _ & _ & Hgs & Hobs & _).
  split; [reflexivity |]. split.
  - etransitivity; [exact (proj1 (Hobs 1 7)) | reflexivity].
  - etransitivity; [exact (Hgs 1) | reflexivity].
Defined.
